(** * TuneFree: the playback / queue state machine of [PlayerProvider]

    A shallow embedding of the React context that owns the audio element,
    the play queue and the persisted session
    ([contexts/PlayerContext.tsx], in its revision with persistence and
    media-session support), and the properties of the specification that
    can be settled on it.

    Conventions of the embedding.
    - React state is the record [Session]; a function of the component
      reads the state variables of the render it was created in, so every
      operation takes that render's [Session] as its closure [c] and
      applies its [setX] calls to the latest state of the [World].
    - JS objects that are shared and mutated in place ([fullSong]) live in
      a heap of songs and are named by references.
    - Promises are defunctionalised: an [await] or [.then] registers a
      continuation in [pending]; the environment settles it later.
    - [Math.random] is a tape of draws consumed from the front.
    - The Web Audio graph (analyser) and the media-session publications
      carry no session state and are left out.

    The earlier revision of the provider, where it differs, is module
    [Legacy]; the pure helpers of the full-screen player (lyrics parsing,
    the highlighted line, the clock display) are module [FullPlayer]. *)

From Stdlib Require Import ZArith QArith Qround Lia DecimalString.
From stdpp Require Import base option list strings gmap.

Local Open Scope Z_scope.
Local Open Scope nat_scope.

(** ** Results of fallible computations *)

Inductive Error := SyntaxError | SecurityError | TypeError.

(** [Starve]: the run asked for more random draws than the tape holds.  A
    retry loop that never exits starves every tape. *)
Inductive Res (A : Type) :=
| Ok (a : A)
| Throw (e : Error)
| Starve.
Arguments Ok {A} a.
Arguments Throw {A} e.
Arguments Starve {A}.

#[global] Instance res_ret : MRet Res := fun A a => Ok a.

#[global] Instance res_bind : MBind Res := fun A B k m =>
  match m with
  | Ok a => k a
  | Throw e => Throw e
  | Starve => Starve
  end.

(** [try { m } catch { h }] *)
Definition try_catch {A} (m : Res A) (h : Res A) : Res A :=
  match m with
  | Throw _ => h
  | r => r
  end.

(** ** Data model *)

(** [Song.id : string | number]; [===] never identifies a string with a
    number. *)
Inductive SongId := IdNum (n : Z) | IdStr (s : string).

#[global] Instance SongId_eq_dec : EqDecision SongId.
Proof. solve_decision. Defined.

(** The declaration of [Song] ([types.ts]) is not among the sources: the
    fields are the ones the player reads and writes. *)
Module Song.
Record t := mk {
  id : SongId;
  name : string;
  artist : string;
  album : option string;
  pic : option string;
  url : option string;
  source : string
}.

Definition with_url (u : string) (s : t) : t :=
  mk (id s) (name s) (artist s) (album s) (pic s) (Some u) (source s).

Definition with_pic (p : string) (s : t) : t :=
  mk (id s) (name s) (artist s) (album s) (Some p) (url s) (source s).
End Song.

#[global] Instance Song_eq_dec : EqDecision Song.t.
Proof. solve_decision. Defined.

#[global] Instance Song_inhabited : Inhabited Song.t :=
  populate (Song.mk (IdNum 0) EmptyString EmptyString None None None EmptyString).

(** JS truthiness of an optional string: [undefined], [null] and the empty
    string are falsy. *)
Definition truthy (o : option string) : bool :=
  match o with
  | Some s => bool_decide (s ≠ EmptyString)
  | None => false
  end.

Inductive PlayMode := sequence | loop | shuffle.

#[global] Instance PlayMode_eq_dec : EqDecision PlayMode.
Proof. solve_decision. Defined.

(** References into the heap of song objects. *)
Definition Ref := nat.

(** The React state of [PlayerProvider].  [queue_id] is the identity of the
    array held in [queue]: a [setQueue] that builds a new array bumps it, one
    that returns [prev] keeps it. *)
Record Session := mkSession {
  currentSong : option Ref;
  isPlaying : bool;
  isLoading : bool;
  currentTime : Q;
  duration : option Q;
  volume : Q;
  queue : list Ref;
  queue_id : nat;
  playMode : PlayMode
}.

(** ** The output device

    Modelled from the spec: the Output Device Adapter is the browser's audio
    element, which is not part of the repository.  [load] resets the elapsed
    time to 0 and forgets the duration; [seek] clamps into [[0, duration]]
    and, while the duration is unknown, keeps the requested time until the
    metadata loads. *)
Module Audio.
Record t := mk {
  src : string;
  currentTime : Q;
  duration : option Q     (* [None]: not known yet (NaN) *)
}.

Definition fresh : t := mk EmptyString 0%Q None.

(** [max 0 (min d t)] *)
Definition clamp (d t : Q) : Q :=
  let m := if Qlt_le_dec d t then d else t in
  if Qlt_le_dec m 0 then 0%Q else m.

Definition set_src (u : string) (a : t) : t := mk u (currentTime a) (duration a).

Definition load (a : t) : t := mk (src a) 0%Q None.

Definition set_currentTime (time : Q) (a : t) : t :=
  match duration a with
  | Some d => mk (src a) (clamp d time) (duration a)
  | None => mk (src a) time None
  end.

Definition metadata (d : option Q) (a : t) : t :=
  match d with
  | Some d' => mk (src a) (clamp d' (currentTime a)) d
  | None => mk (src a) (currentTime a) None
  end.
End Audio.

(** Calls issued to the device, most recent first. *)
Inductive Call :=
| CSetSrc (u : string)
| CLoad
| CPlay
| CPause
| CSetTime (t : Q).

(** ** Asynchronous work in flight *)

(** The part of [getSongInfo]'s result the player reads. *)
Record Info := mkInfo { info_pic : option string }.

(** What remains to run once a promise settles.  [song] is the argument of the
    [playSong] call, [fullSong] the copy that call made. *)
Inductive Cont :=
| AwaitUrl (song : Song.t) (fullSong : Ref)    (* await getSongUrl(...) *)
| AwaitInfo (song : Song.t) (fullSong : Ref)   (* getSongInfo(...).then(...) *)
| AwaitPlay (fullSong : Ref).                  (* playPromise.then(...).catch(...) *)

Inductive Settlement :=
| FulfilledUrl (u : option string)
| FulfilledInfo (i : option Info)
| FulfilledPlay
| Rejected.

(** ** Persistence: JSON values and [localStorage] *)

#[local] Set Warnings "-register-all".
Inductive JSON :=
| JNull
| JBool (b : bool)
| JNum (n : Z)
| JStr (s : string)
| JArr (l : list JSON)
| JObj (fields : list (string * JSON)).
#[local] Set Warnings "register-all".

(** A stored string, up to what [JSON.parse] makes of it: the empty string,
    a string that is not JSON, or the text of a JSON value. *)
Inductive Text :=
| TEmpty
| TGarbage (raw : string)
| TJson (v : JSON).

Definition JSON_parse (t : Text) : Res JSON :=
  match t with
  | TJson v => Ok v
  | _ => Throw SyntaxError
  end.

Definition JSON_stringify (v : JSON) : Text := TJson v.

(** [Denied]: every access to [localStorage] throws. *)
Inductive Storage :=
| Denied
| Items (m : gmap string Text).

Definition getItem (key : string) (ls : Storage) : Res (option Text) :=
  match ls with
  | Denied => Throw SecurityError
  | Items m => Ok (m !! key)
  end.

Definition setItem (key : string) (v : Text) (ls : Storage) : Res Storage :=
  match ls with
  | Denied => Throw SecurityError
  | Items m => Ok (Items (<[key := v]> m))
  end.

(** [item ? JSON.parse(item) : def] inside [try]; [catch] returns [def]. *)
Definition getLocal (key : string) (def : JSON) (ls : Storage) : Res JSON :=
  try_catch
    (item ← getItem key ls;
     match item with
     | None | Some TEmpty => Ok def
     | Some t => JSON_parse t
     end)
    (Ok def).

(** ** The world: React state, closures, heap, device, storage, promises *)

Record World := mkWorld {
  st : Session;                 (* latest React state *)
  rendered : Session;           (* state captured by the last render's closures *)
  mounted : Session;            (* state captured by the first render's closures *)
  heap : list Song.t;
  audioRef : option Audio.t;
  calls : list Call;
  localStorage : Storage;
  pending : gmap nat Cont;
  next_task : nat;
  random : list Q;              (* results of [Math.random()] to come *)
  location_href : string
}.

Definition with_st (s : Session) (w : World) : World :=
  mkWorld s (rendered w) (mounted w) (heap w) (audioRef w) (calls w)
    (localStorage w) (pending w) (next_task w) (random w) (location_href w).

Definition with_rendered (s : Session) (w : World) : World :=
  mkWorld (st w) s (mounted w) (heap w) (audioRef w) (calls w)
    (localStorage w) (pending w) (next_task w) (random w) (location_href w).

Definition with_heap (h : list Song.t) (w : World) : World :=
  mkWorld (st w) (rendered w) (mounted w) h (audioRef w) (calls w)
    (localStorage w) (pending w) (next_task w) (random w) (location_href w).

Definition with_audio (a : option Audio.t) (cs : list Call) (w : World) : World :=
  mkWorld (st w) (rendered w) (mounted w) (heap w) a cs
    (localStorage w) (pending w) (next_task w) (random w) (location_href w).

Definition with_localStorage (ls : Storage) (w : World) : World :=
  mkWorld (st w) (rendered w) (mounted w) (heap w) (audioRef w) (calls w)
    ls (pending w) (next_task w) (random w) (location_href w).

Definition with_pending (p : gmap nat Cont) (n : nat) (w : World) : World :=
  mkWorld (st w) (rendered w) (mounted w) (heap w) (audioRef w) (calls w)
    (localStorage w) p n (random w) (location_href w).

Definition with_random (t : list Q) (w : World) : World :=
  mkWorld (st w) (rendered w) (mounted w) (heap w) (audioRef w) (calls w)
    (localStorage w) (pending w) (next_task w) t (location_href w).

(** *** State setters *)

Definition setCurrentSong (v : option Ref) (w : World) : World :=
  let s := st w in
  with_st (mkSession v (isPlaying s) (isLoading s) (currentTime s) (duration s)
             (volume s) (queue s) (queue_id s) (playMode s)) w.

Definition setIsPlaying (v : bool) (w : World) : World :=
  let s := st w in
  with_st (mkSession (currentSong s) v (isLoading s) (currentTime s) (duration s)
             (volume s) (queue s) (queue_id s) (playMode s)) w.

Definition setIsLoading (v : bool) (w : World) : World :=
  let s := st w in
  with_st (mkSession (currentSong s) (isPlaying s) v (currentTime s) (duration s)
             (volume s) (queue s) (queue_id s) (playMode s)) w.

Definition setCurrentTime (v : Q) (w : World) : World :=
  let s := st w in
  with_st (mkSession (currentSong s) (isPlaying s) (isLoading s) v (duration s)
             (volume s) (queue s) (queue_id s) (playMode s)) w.

Definition setDuration (v : option Q) (w : World) : World :=
  let s := st w in
  with_st (mkSession (currentSong s) (isPlaying s) (isLoading s) (currentTime s) v
             (volume s) (queue s) (queue_id s) (playMode s)) w.

(** [setQueue] with a newly built array. *)
Definition setQueue (v : list Ref) (w : World) : World :=
  let s := st w in
  with_st (mkSession (currentSong s) (isPlaying s) (isLoading s) (currentTime s)
             (duration s) (volume s) v (S (queue_id s)) (playMode s)) w.

Definition setPlayMode (v : PlayMode) (w : World) : World :=
  let s := st w in
  with_st (mkSession (currentSong s) (isPlaying s) (isLoading s) (currentTime s)
             (duration s) (volume s) (queue s) (queue_id s) v) w.

(** *** Heap, device and promise primitives *)

Definition deref (w : World) (r : Ref) : Song.t := heap w !!! r.

(** A new object: [{ ...s }], or an object handed in by a caller. *)
Definition alloc (s : Song.t) (w : World) : Ref * World :=
  (length (heap w), with_heap (heap w ++ [s]) w).

Definition audio_do (f : Audio.t -> Audio.t) (c : Call) (w : World) : World :=
  match audioRef w with
  | Some a => with_audio (Some (f a)) (c :: calls w) w
  | None => w
  end.

Definition spawn (k : Cont) (w : World) : World :=
  with_pending (<[next_task w := k]> (pending w)) (S (next_task w)) w.

(** [audio.src && audio.src !== window.location.href] *)
Definition has_src (href : string) (a : Audio.t) : bool :=
  bool_decide (Audio.src a ≠ EmptyString) && bool_decide (Audio.src a ≠ href).

(** [q.find(s => s.id === i)] is truthy. *)
Definition has_id (h : list Song.t) (i : SongId) (q : list Ref) : bool :=
  existsb (fun s => bool_decide (Song.id (h !!! s) = i)) q.

Fixpoint findIndex_from {A} (p : A -> bool) (l : list A) (i : Z) : Z :=
  match l with
  | [] => (-1)%Z
  | x :: l' => if p x then i else findIndex_from p l' (i + 1)%Z
  end.

(** [l.findIndex(p)]: [-1] when no element satisfies [p]. *)
Definition findIndex {A} (p : A -> bool) (l : list A) : Z := findIndex_from p l 0%Z.

(** [q[i]]: [undefined] outside the array. *)
Definition queue_at (q : list Ref) (i : Z) : option Ref :=
  if bool_decide (i < 0)%Z then None else q !! Z.to_nat i.

(** [Math.floor(r * len)], the product taken exactly. *)
Definition random_index (len : nat) (r : Q) : Z :=
  Qfloor (r * inject_Z (Z.of_nat len)).

(** ** The operations of [PlayerProvider] *)

(** [playSong], from [setIsLoading(true)] up to the [await]: the call made
    when the toggle test at its head does not return. *)
Definition playSong_start (song : Song.t) (w : World) : World :=
  let w := setIsLoading true w in
  let '(fullSong, w) := alloc song w in            (* let fullSong = { ...song } *)
  let w := setCurrentSong (Some fullSong) w in
  let w :=
    if has_id (heap w) (Song.id song) (queue (st w)) then w
    else setQueue (queue (st w) ++ [fullSong]) w in
  spawn (AwaitUrl song fullSong) w.                (* await getSongUrl(song.id, song.source) *)

(** [togglePlay].  With no source on the device it calls
    [playSong(currentSong)], whose toggle test then fails on the same
    missing source: see [togglePlay_calls_playSong]. *)
Definition togglePlay (c : Session) (w : World) : World :=
  match audioRef w, currentSong c with
  | Some a, Some cur =>
      if negb (has_src (location_href w) a) then playSong_start (deref w cur) w
      else if isPlaying c then setIsPlaying false (audio_do id CPause w)
      else setIsPlaying true (audio_do id CPlay w)
  | _, _ => w
  end.

(** [currentSong?.id === i] *)
Definition is_current (w : World) (c : Session) (i : SongId) : bool :=
  match currentSong c with
  | Some cur => bool_decide (Song.id (deref w cur) = i)
  | None => false
  end.

Definition playSong (c : Session) (song : Song.t) (w : World) : World :=
  match audioRef w with
  | None => w
  | Some a =>
      if is_current w c (Song.id song) && has_src (location_href w) a
      then togglePlay c w
      else playSong_start song w
  end.

(** The rest of [playSong], run when [getSongUrl] settles. *)
Definition playSong_resume (song : Song.t) (fullSong : Ref) (r : Settlement)
    (w : World) : World :=
  match r with
  | FulfilledUrl url =>
      let w :=
        if negb (truthy (Song.pic song)) then spawn (AwaitInfo song fullSong) w
        else w in
      match url with
      | Some u =>
          if truthy url then
            (* fullSong.url = url *)
            let w := with_heap (<[fullSong := Song.with_url u (deref w fullSong)]> (heap w)) w in
            match audioRef w with
            | Some _ =>
                let w := audio_do (Audio.set_src u) (CSetSrc u) w in
                let w := audio_do Audio.load CLoad w in
                let w := audio_do id CPlay w in
                spawn (AwaitPlay fullSong) w
            | None => setIsLoading false w          (* TypeError, caught *)
            end
          else setIsLoading false w
      | None => setIsLoading false w
      end
  | Rejected => setIsLoading false w
  | _ => w
  end.

(** The callback of [getSongInfo(...).then]. *)
Definition info_arrived (song : Song.t) (fullSong : Ref) (r : Settlement)
    (w : World) : World :=
  match r with
  | FulfilledInfo (Some info) =>
      match info_pic info with
      | Some p =>
          if truthy (info_pic info) then
            let '(updated, w) := alloc (Song.with_pic p (deref w fullSong)) w in
            let w :=
              setCurrentSong
                (match currentSong (st w) with
                 | Some prev =>
                     if bool_decide (Song.id (deref w prev) = Song.id song)
                     then Some updated else Some prev
                 | None => None
                 end) w in
            setQueue
              ((fun s => if bool_decide (Song.id (deref w s) = Song.id song)
                         then updated else s) <$> queue (st w)) w
          else w
      | None => w
      end
  | _ => w
  end.

(** The callbacks on [playPromise]. *)
Definition play_settled (fullSong : Ref) (r : Settlement) (w : World) : World :=
  match r with
  | FulfilledPlay => setIsPlaying true w
  | Rejected => setIsPlaying false w
  | _ => w
  end.

Definition seek (time : Q) (w : World) : World :=
  match audioRef w with
  | Some _ => setCurrentTime time (audio_do (Audio.set_currentTime time) (CSetTime time) w)
  | None => w
  end.

(** [do { nextIndex = Math.floor(Math.random() * len) }
     while (len > 1 && nextIndex === currentIndex)] *)
Fixpoint shuffle_draw (len : nat) (currentIndex : Z) (tape : list Q) : Res (Z * list Q) :=
  match tape with
  | [] => Starve
  | r :: tape' =>
      let nextIndex := random_index len r in
      if bool_decide (1 < len) && bool_decide (nextIndex = currentIndex)
      then shuffle_draw len currentIndex tape'
      else Ok (nextIndex, tape')
  end.

(** [queue.findIndex(s => s.id === currentSong.id)] *)
Definition current_index (w : World) (c : Session) (cur : Ref) : Z :=
  findIndex (fun s => bool_decide (Song.id (deref w s) = Song.id (deref w cur))) (queue c).

(** [playSong(queue[i])]; on [undefined] the call rejects before any
    update. *)
Definition playSong_at (c : Session) (i : Z) (w : World) : World :=
  match queue_at (queue c) i with
  | Some s => playSong c (deref w s) w
  | None => w
  end.

Definition playNext (c : Session) (force : bool) (w : World) : Res World :=
  match currentSong c with
  | None => Ok w
  | Some cur =>
      if bool_decide (length (queue c) = 0) then Ok w
      else if negb force && bool_decide (playMode c = loop) then
        Ok (audio_do id CPlay (audio_do (Audio.set_currentTime 0) (CSetTime 0) w))
      else
        let currentIndex := current_index w c cur in
        if bool_decide (playMode c = shuffle) then
          '(nextIndex, tape) ← shuffle_draw (length (queue c)) currentIndex (random w);
          Ok (playSong_at c nextIndex (with_random tape w))
        else
          let nextIndex := Z.rem (currentIndex + 1) (Z.of_nat (length (queue c))) in
          Ok (playSong_at c nextIndex w)
  end.

Definition playPrev (c : Session) (w : World) : Res World :=
  match currentSong c with
  | None => Ok w
  | Some cur =>
      if bool_decide (length (queue c) = 0) then Ok w
      else
        let currentIndex := current_index w c cur in
        if bool_decide (playMode c = shuffle) then
          match random w with
          | [] => Starve
          | r :: tape =>
              Ok (playSong_at c (random_index (length (queue c)) r) (with_random tape w))
          end
        else
          let len := Z.of_nat (length (queue c)) in
          Ok (playSong_at c (Z.rem (currentIndex - 1 + len) len) w)
  end.

(** [addToQueue(song)], [song] being the caller's object. *)
Definition addToQueue (song : Ref) (w : World) : World :=
  if has_id (heap w) (Song.id (deref w song)) (queue (st w)) then w
  else setQueue (queue (st w) ++ [song]) w.

Definition removeFromQueue (songId : SongId) (w : World) : World :=
  setQueue (filter (fun s => Song.id (deref w s) ≠ songId) (queue (st w))) w.

Definition clearQueue (w : World) : World := setQueue [] w.

Definition togglePlayMode (w : World) : World :=
  setPlayMode
    (match playMode (st w) with
     | sequence => loop
     | loop => shuffle
     | shuffle => sequence
     end) w.

(** *** Device event handlers *)

Definition handleTimeUpdate (w : World) : World :=
  match audioRef w with
  | Some a => setCurrentTime (Audio.currentTime a) w
  | None => w
  end.

Definition handleLoadedMetadata (w : World) : World :=
  match audioRef w with
  | Some a => setIsLoading false (setDuration (Audio.duration a) w)
  | None => w
  end.

(** Registered once, by the effect of the first render: the [playNext] it
    calls is the first render's. *)
Definition handleEnded (w : World) : Res World := playNext (mounted w) false w.

Definition handleError (w : World) : World := setIsPlaying false (setIsLoading false w).

Definition handleWaiting (w : World) : World := setIsLoading true w.

Definition handleCanPlay (w : World) : World := setIsLoading false w.

(** ** Persistence effects and startup *)

Definition encode_id (i : SongId) : JSON :=
  match i with
  | IdNum n => JNum n
  | IdStr s => JStr s
  end.

(** A field that is [undefined] is left out by [JSON.stringify]. *)
Definition opt_field (k : string) (o : option string) : list (string * JSON) :=
  match o with
  | Some s => [(k, JStr s)]
  | None => []
  end.

Definition encode_song (s : Song.t) : JSON :=
  JObj ([("id", encode_id (Song.id s)); ("name", JStr (Song.name s));
         ("artist", JStr (Song.artist s))]
        ++ opt_field "album" (Song.album s)
        ++ opt_field "pic" (Song.pic s)
        ++ opt_field "url" (Song.url s)
        ++ [("source", JStr (Song.source s))]).

Definition encode_mode (m : PlayMode) : JSON :=
  match m with
  | sequence => JStr "sequence"
  | loop => JStr "loop"
  | shuffle => JStr "shuffle"
  end.

Definition encode_current (h : list Song.t) (c : option Ref) : JSON :=
  match c with
  | Some r => encode_song (h !!! r)
  | None => JNull
  end.

Definition encode_queue (h : list Song.t) (q : list Ref) : JSON :=
  JArr ((fun r => encode_song (h !!! r)) <$> q).

(** The casts [as Song], [as Song[]], [as PlayMode] are unchecked in the
    source.  The typed embedding can only hold values of the declared type:
    [None] marks a parsed value outside it. *)
Fixpoint field (k : string) (m : list (string * JSON)) : option JSON :=
  match m with
  | [] => None
  | (k', v) :: m' => if bool_decide (k' = k) then Some v else field k m'
  end.

Definition as_id (v : JSON) : option SongId :=
  match v with
  | JNum n => Some (IdNum n)
  | JStr s => Some (IdStr s)
  | _ => None
  end.

Definition as_str (v : JSON) : option string :=
  match v with
  | JStr s => Some s
  | _ => None
  end.

Definition as_opt_str (v : option JSON) : option (option string) :=
  match v with
  | None => Some None
  | Some (JStr s) => Some (Some s)
  | Some _ => None
  end.

Definition as_song (v : JSON) : option Song.t :=
  match v with
  | JObj m =>
      i ← field "id" m ≫= as_id;
      n ← field "name" m ≫= as_str;
      a ← field "artist" m ≫= as_str;
      al ← as_opt_str (field "album" m);
      p ← as_opt_str (field "pic" m);
      u ← as_opt_str (field "url" m);
      s ← field "source" m ≫= as_str;
      Some (Song.mk i n a al p u s)
  | _ => None
  end.

Definition as_current (v : JSON) : option (option Song.t) :=
  match v with
  | JNull => Some None
  | _ => Some <$> as_song v
  end.

Definition as_queue (v : JSON) : option (list Song.t) :=
  match v with
  | JArr l => mapM as_song l
  | _ => None
  end.

Definition as_mode (v : JSON) : option PlayMode :=
  match v with
  | JStr s =>
      if bool_decide (s = "sequence") then Some sequence
      else if bool_decide (s = "loop") then Some loop
      else if bool_decide (s = "shuffle") then Some shuffle
      else None
  | _ => None
  end.

Definition key_current : string := "tunefree_current_song".
Definition key_queue : string := "tunefree_queue".
Definition key_mode : string := "tunefree_play_mode".

(** The three persistence effects, in the order they are declared; each
    runs when its dependency differs from the previous render's. *)
Definition persist (key : string) (v : JSON) (changed : bool) (ls : Storage) : Res Storage :=
  if changed then setItem key (JSON_stringify v) ls else Ok ls.

Definition run_effects (first : bool) (w : World) : Res World :=
  let s := st w in
  let r := rendered w in
  ls ← persist key_queue (encode_queue (heap w) (queue s))
         (first || bool_decide (queue_id s ≠ queue_id r)) (localStorage w);
  ls ← persist key_current (encode_current (heap w) (currentSong s))
         (first || bool_decide (currentSong s ≠ currentSong r)) ls;
  ls ← persist key_mode (encode_mode (playMode s))
         (first || bool_decide (playMode s ≠ playMode r)) ls;
  Ok (with_rendered s (with_localStorage ls w)).

(** A render after an event, followed by its effects. *)
Definition commit (w : World) : Res World := run_effects false w.

(** The lazy initialisers of [useState], in the order of the source. *)
Definition hydrate (cur q m : JSON) : option (Session * list Song.t) :=
  cur ← as_current cur;
  q ← as_queue q;
  m ← as_mode m;
  let h := option_list cur ++ q in
  Some (mkSession (const 0 <$> cur) false false 0%Q (Some 0%Q) 1%Q
          (seq (length (option_list cur)) (length q)) 0 m, h).

(** First render and its effects: the persistence effects, then the creation
    of the audio element.  [Ok None]: a stored record parsed to a value
    outside its declared type. *)
Definition startup (ls : Storage) (href : string) (tape : list Q) : Res (option World) :=
  cur ← getLocal key_current JNull ls;
  q ← getLocal key_queue (JArr []) ls;
  m ← getLocal key_mode (JStr "sequence") ls;
  match hydrate cur q m with
  | Some (s, h) =>
      w ← run_effects true (mkWorld s s s h None [] ls ∅ 0 tape href);
      Ok (Some (with_audio (Some Audio.fresh) [] w))
  | None => Ok None
  end.

(** ** Events *)

Inductive Event :=
| EPlaySong (song : Song.t)
| ETogglePlay
| ESeek (time : Q)
| EPlayNext (force : bool)
| EPlayPrev
| EAddToQueue (song : Song.t)
| ERemoveFromQueue (songId : SongId)
| EClearQueue
| ETogglePlayMode
| ESettle (k : nat) (r : Settlement)    (* a promise settles *)
| ETimeUpdate (position : Q)            (* the device reports its progress *)
| ELoadedMetadata (d : option Q)
| EEnded
| EError
| EWaiting
| ECanPlay.

Definition resume (cont : Cont) (r : Settlement) (w : World) : World :=
  match cont with
  | AwaitUrl song fullSong => playSong_resume song fullSong r w
  | AwaitInfo song fullSong => info_arrived song fullSong r w
  | AwaitPlay fullSong => play_settled fullSong r w
  end.

Definition settle (k : nat) (r : Settlement) (w : World) : World :=
  match pending w !! k with
  | Some cont => resume cont r (with_pending (delete k (pending w)) (next_task w) w)
  | None => w
  end.

Definition device_progress (p : Q) (w : World) : World :=
  match audioRef w with
  | Some a => with_audio (Some (Audio.mk (Audio.src a) p (Audio.duration a))) (calls w) w
  | None => w
  end.

Definition device_metadata (d : option Q) (w : World) : World :=
  match audioRef w with
  | Some a => with_audio (Some (Audio.metadata d a)) (calls w) w
  | None => w
  end.

(** Handlers given to the UI and to the media session belong to the last
    render; the audio element's listeners to the first. *)
Definition handle (e : Event) (w : World) : Res World :=
  let c := rendered w in
  match e with
  | EPlaySong song => Ok (playSong c song w)
  | ETogglePlay => Ok (togglePlay c w)
  | ESeek time => Ok (seek time w)
  | EPlayNext force => playNext c force w
  | EPlayPrev => playPrev c w
  | EAddToQueue song => let '(r, w) := alloc song w in Ok (addToQueue r w)
  | ERemoveFromQueue songId => Ok (removeFromQueue songId w)
  | EClearQueue => Ok (clearQueue w)
  | ETogglePlayMode => Ok (togglePlayMode w)
  | ESettle k r => Ok (settle k r w)
  | ETimeUpdate p => Ok (handleTimeUpdate (device_progress p w))
  | ELoadedMetadata d => Ok (handleLoadedMetadata (device_metadata d w))
  | EEnded => handleEnded w
  | EError => Ok (handleError w)
  | EWaiting => Ok (handleWaiting w)
  | ECanPlay => Ok (handleCanPlay w)
  end.

Definition step (e : Event) (w : World) : Res World :=
  w ← handle e w; commit w.

Fixpoint run (es : list Event) (w : World) : Res World :=
  match es with
  | [] => Ok w
  | e :: es' => w ← step e w; run es' w
  end.

(** ** The full-screen player: lyrics and the clock

    JavaScript strings are sequences of UTF-16 code units; the lyrics are
    kept as such, since [trim] looks at code units outside ASCII.  Times are
    the exact rationals that the source's doubles round. *)

Module FullPlayer.

Record ParsedLyric := mkLyric { time : Q; text : list N }.

(** [\d] *)
Definition isDigit (c : N) : bool := (48 <=? c)%N && (c <=? 57)%N.

(** [parseInt] of a string of digits. *)
Definition parseInt (ds : list N) : N :=
  fold_left (fun acc d => (10 * acc + (d - 48))%N) ds 0%N.

(** [timeExp], [/\[(\d{2}):(\d{2})\.(\d{2,3})\]/], matched at the head of
    [l]: the three groups and what follows the match.  The last group is
    greedy: three digits when a third digit is there, which then must be
    followed by the bracket. *)
Definition match_here (l : list N) : option (list N * list N * list N * list N) :=
  match l with
  | o :: m1 :: m2 :: c :: s1 :: s2 :: d :: f1 :: f2 :: rest =>
      if (o =? 91)%N && isDigit m1 && isDigit m2 && (c =? 58)%N
         && isDigit s1 && isDigit s2 && (d =? 46)%N && isDigit f1 && isDigit f2
      then
        match rest with
        | x :: rest' =>
            if (x =? 93)%N then Some ([m1; m2], [s1; s2], [f1; f2], rest')
            else if isDigit x then
              match rest' with
              | y :: rest'' =>
                  if (y =? 93)%N then Some ([m1; m2], [s1; s2], [f1; f2; x], rest'')
                  else None
              | [] => None
              end
            else None
        | [] => None
        end
      else None
  | _ => None
  end.

(** [timeExp.exec(line)]: the leftmost match, with what precedes and what
    follows it. *)
Fixpoint exec (line : list N)
    : option (list N * (list N * list N * list N) * list N) :=
  match match_here line with
  | Some (m, s, f, rest) => Some ([], (m, s, f), rest)
  | None =>
      match line with
      | [] => None
      | x :: line' =>
          match exec line' with
          | Some (pre, g, suf) => Some (x :: pre, g, suf)
          | None => None
          end
      end
  end.

(** The code units [trim] strips: white space and line terminators. *)
Definition isSpace (c : N) : bool :=
  bool_decide (c ∈ [9; 10; 11; 12; 13; 32; 160; 5760; 8232; 8233; 8239; 8287;
                    12288; 65279]%N)
  || (8192 <=? c)%N && (c <=? 8202)%N.

Fixpoint trimStart (l : list N) : list N :=
  match l with
  | c :: l' => if isSpace c then trimStart l' else l
  | [] => []
  end.

Definition trim (l : list N) : list N := reverse (trimStart (reverse (trimStart l))).

(** [lrc.split('\n')] *)
Fixpoint split_lines (l : list N) : list (list N) :=
  match l with
  | [] => [[]]
  | c :: l' =>
      if (c =? 10)%N then [] :: split_lines l'
      else
        match split_lines l' with
        | cur :: rest => (c :: cur) :: rest
        | [] => [[c]]
        end
  end.

(** The body of the loop of [parseLrc]. *)
Definition parse_line (line : list N) : option ParsedLyric :=
  match exec line with
  | Some (pre, (m, s, f), suf) =>
      let time := (inject_Z (Z.of_N (parseInt m * 60 + parseInt s))
                   + (Z.of_N (parseInt f) # 1000))%Q in
      let text := trim (pre ++ suf) in          (* line.replace(timeExp, '').trim() *)
      if bool_decide (text ≠ []) then Some (mkLyric time text) else None
  | None => None
  end.

Definition parseLrc (lrc : list N) : list ParsedLyric :=
  if bool_decide (lrc = []) then [] else omap parse_line (split_lines lrc).

(** The callback of [getLyrics(...).then]: the placeholder line when there
    are no lyrics. *)
Definition lyrics_of (rawLrc : option (list N)) : list ParsedLyric :=
  match rawLrc with
  | Some (c :: l) => parseLrc (c :: l)
  | _ => [mkLyric 0%Q [26242; 26080; 27468; 35789]%N]
  end.

(** [l.findIndex((x, i) => p(x, i))] *)
Fixpoint findIndex_at {A} (p : A → nat → bool) (l : list A) (i : nat) : Z :=
  match l with
  | [] => (-1)%Z
  | x :: l' => if p x i then Z.of_nat i else findIndex_at p l' (S i)
  end.

(** The line to highlight: the first one that has started and whose
    successor, if any, has not. *)
Definition active_index (lyrics : list ParsedLyric) (currentTime : Q) : Z :=
  findIndex_at
    (fun line i =>
       let nextLine := lyrics !! (i + 1) in
       Qle_bool (time line) currentTime
       && match nextLine with
          | None => true
          | Some n => negb (Qle_bool (time n) currentTime)
          end)
    lyrics 0.

(** The highlight effect: the new value of [activeLyricIndex]. *)
Definition sync_highlight (lyrics : list ParsedLyric) (currentTime : Q)
    (activeLyricIndex : Z) : Z :=
  if bool_decide (length lyrics = 0) then activeLyricIndex
  else
    let index := active_index lyrics currentTime in
    if bool_decide (index ≠ (-1)%Z) && bool_decide (index ≠ activeLyricIndex)
    then index else activeLyricIndex.

(** [x % m] on numbers: the remainder has the sign of [x]. *)
Definition js_rem (x : Q) (m : Z) : Q :=
  (x - inject_Z (m * Z.quot (Qnum (x / inject_Z m)) (Zpos (Qden (x / inject_Z m)))))%Q.

(** [n.toString()] of an integer. *)
Definition toString (n : Z) : string := NilZero.string_of_int (Z.to_int n).

Fixpoint zeros (n : nat) : string :=
  match n with
  | 0 => EmptyString
  | S n' => String (Ascii.ascii_of_nat 48) (zeros n')
  end.

(** [s.padStart(n, '0')] *)
Definition padStart (n : nat) (s : string) : string :=
  (zeros (n - String.length s) ++ s)%string.

(** [formatTime(seconds)]; [None] is [NaN].  The floor of the quotient is
    that of the exact quotient for every double below 2^53 in absolute
    value. *)
Definition formatTime (seconds : option Q) : string :=
  match seconds with
  | None => "0:00"
  | Some secs_in =>
      let mins := Qfloor (secs_in / 60) in
      let secs := Qfloor (js_rem secs_in 60) in
      (toString mins ++ ":" ++ padStart 2 (toString secs))%string
  end.

End FullPlayer.

(** ** The earlier revision of the provider

    [src/contexts/PlayerContext.tsx] is the provider before persistence and
    the media session were added.  Navigation, the queue operations, [seek]
    and the device listeners other than [loadedmetadata] read as above; what
    differs is embedded here. *)

Module Legacy.

(** [togglePlay] has no source test, and is not memoised. *)
Definition togglePlay (c : Session) (w : World) : World :=
  match audioRef w, currentSong c with
  | Some _, Some _ =>
      if isPlaying c then setIsPlaying false (audio_do id CPause w)
      else setIsPlaying true (audio_do id CPlay w)
  | _, _ => w
  end.

(** [playSong] toggles whenever the identifier is the current track's. *)
Definition playSong (c : Session) (song : Song.t) (w : World) : World :=
  match audioRef w with
  | None => w
  | Some _ =>
      if is_current w c (Song.id song) then togglePlay c w
      else playSong_start song w
  end.

(** The rest of [playSong]: [setIsPlaying(true)] comes right after [load()],
    before [play()] is called. *)
Definition playSong_resume (song : Song.t) (fullSong : Ref) (r : Settlement)
    (w : World) : World :=
  match r with
  | FulfilledUrl url =>
      let w :=
        if negb (truthy (Song.pic song)) then spawn (AwaitInfo song fullSong) w
        else w in
      match url with
      | Some u =>
          if truthy url then
            let w := with_heap (<[fullSong := Song.with_url u (deref w fullSong)]> (heap w)) w in
            match audioRef w with
            | Some _ =>
                let w := audio_do (Audio.set_src u) (CSetSrc u) w in
                let w := audio_do Audio.load CLoad w in
                let w := setIsPlaying true w in
                let w := audio_do id CPlay w in
                spawn (AwaitPlay fullSong) w
            | None => setIsLoading false w
            end
          else setIsLoading false w
      | None => setIsLoading false w
      end
  | Rejected => setIsLoading false w
  | _ => w
  end.

(** [playPromise.catch]: only a rejection is handled. *)
Definition play_settled (r : Settlement) (w : World) : World :=
  match r with
  | Rejected => setIsPlaying false w
  | _ => w
  end.

Definition resume (cont : Cont) (r : Settlement) (w : World) : World :=
  match cont with
  | AwaitUrl song fullSong => playSong_resume song fullSong r w
  | AwaitInfo song fullSong => info_arrived song fullSong r w
  | AwaitPlay _ => play_settled r w
  end.

Definition settle (k : nat) (r : Settlement) (w : World) : World :=
  match pending w !! k with
  | Some cont => resume cont r (with_pending (delete k (pending w)) (next_task w) w)
  | None => w
  end.

(** The [loadedmetadata] listener, registered by the effect of the first
    render, reads that render's [isPlaying].  The rejection callback of its
    [play()] does not read the reference [AwaitPlay] carries. *)
Definition handleLoadedMetadata (w : World) : World :=
  match audioRef w with
  | Some a =>
      let w := setIsLoading false (setDuration (Audio.duration a) w) in
      if isPlaying (mounted w) then spawn (AwaitPlay 0) (audio_do id CPlay w)
      else w
  | None => w
  end.

(** The first render: every [useState] starts from its literal. *)
Definition initial : Session :=
  mkSession None false false 0%Q (Some 0%Q) 1%Q [] 0 sequence.

End Legacy.

(** ** Vocabulary of the properties and sample data *)

Definition track (n : Z) (p : option string) : Song.t :=
  Song.mk (IdNum n) "title" "artist" None p None "netease".

(** A running player on empty storage: what [startup] returns there. *)
Definition idle_session : Session :=
  mkSession None false false 0%Q (Some 0%Q) 1%Q [] 0 sequence.

Definition blank_storage : Storage :=
  Items (<[key_mode := JSON_stringify (JStr "sequence")]>
         (<[key_current := JSON_stringify JNull]>
          (<[key_queue := JSON_stringify (JArr [])]> ∅))).

Definition idle_world : World :=
  mkWorld idle_session idle_session idle_session [] (Some Audio.fresh) []
    blank_storage ∅ 0 [] "https://tunefree.app/".

Definition ids (h : list Song.t) (q : list Ref) : list SongId :=
  (fun s => Song.id (h !!! s)) <$> q.

(** The queue invariant of the data model: unique by identifier. *)
Definition unique_ids (h : list Song.t) (q : list Ref) : Prop := NoDup (ids h q).

Definition entries_with (h : list Song.t) (i : SongId) (q : list Ref) : nat :=
  length (filter (fun s => Song.id (h !!! s) = i) q).

(** No dangling reference: every object the session names is on the heap. *)
Definition refs_ok (h : list Song.t) (s : Session) : Prop :=
  Forall (fun r => r < length h) (queue s) ∧
  (∀ r, currentSong s = Some r → r < length h).

(** A current track that has left the queue: track 2 was played, removed
    from the queue, and track 1 was added. *)
Definition orphan_events : list Event :=
  [EPlaySong (track 2 None); ERemoveFromQueue (IdNum 2); EAddToQueue (track 1 None)].

Definition orphan_session : Session :=
  mkSession (Some 0) false true 0%Q (Some 0%Q) 1%Q [1] 3 sequence.

Definition orphan_world : World :=
  mkWorld orphan_session orphan_session idle_session
    [track 2 None; track 1 None] (Some Audio.fresh) []
    (Items (<[key_queue := JSON_stringify (JArr [encode_song (track 1 None)])]>
            (<[key_current := JSON_stringify (encode_song (track 2 None))]>
             (<[key_mode := JSON_stringify (JStr "sequence")]> ∅))))
    {[0 := AwaitUrl (track 2 None) 0]} 1 [] "https://tunefree.app/".

(** Track 1 playing from a loaded source of duration 200, 30 seconds in. *)
Definition playing_session : Session :=
  mkSession (Some 0) true false 30%Q (Some 200%Q) 1%Q [0] 1 sequence.

Definition playing_world : World :=
  mkWorld playing_session playing_session idle_session
    [Song.with_url "https://cdn.example/1.mp3" (track 1 (Some "https://cdn.example/1.jpg"))]
    (Some (Audio.mk "https://cdn.example/1.mp3" 30%Q (Some 200%Q)))
    [CPlay; CLoad; CSetSrc "https://cdn.example/1.mp3"]
    blank_storage ∅ 2 [] "https://tunefree.app/".

(** A session restored from storage: track 1 is current, nothing is loaded
    on the device yet. *)
Definition restored_session : Session :=
  mkSession (Some 0) false false 0%Q (Some 0%Q) 1%Q [1] 0 loop.

Definition restored_world : World :=
  mkWorld restored_session restored_session restored_session
    [track 1 None; track 1 None] (Some Audio.fresh) []
    (Items (<[key_mode := JSON_stringify (JStr "loop")]>
            (<[key_current := JSON_stringify (encode_song (track 1 None))]>
             (<[key_queue := JSON_stringify (JArr [encode_song (track 1 None)])]> ∅))))
    ∅ 0 [] "https://tunefree.app/".

(** The index of the current track in the queue, as [playNext] computes it. *)
Definition index_of_current (w : World) : Z :=
  match currentSong (st w) with
  | Some cur => current_index w (st w) cur
  | None => (-1)%Z
  end.

(** The identifier of the current track. *)
Definition current_id (w : World) : option SongId :=
  Song.id ∘ deref w <$> currentSong (st w).

(** The user presses "next" [times] times; each press is handled by the
    closures of a render of the latest state. *)
Fixpoint press_next (times : nat) (w : World) : Res World :=
  match times with
  | 0 => Ok w
  | S t => w' ← playNext (st w) true w; press_next t w'
  end.

(** A mounted player in a mode other than shuffle, on a queue of more than
    one track unique by identifier, whose current track is found at index
    [k]. *)
Definition navigable (w : World) (k : nat) : Prop :=
  is_Some (audioRef w) ∧
  refs_ok (heap w) (st w) ∧
  unique_ids (heap w) (queue (st w)) ∧
  1 < length (queue (st w)) ∧
  index_of_current w = Z.of_nat k.

(** Queue [[T1, T2, T3]] with T2 current, in sequence mode. *)
Definition trio_session : Session :=
  mkSession (Some 1) true false 0%Q (Some 200%Q) 1%Q [0; 1; 2] 3 sequence.

Definition trio_world : World :=
  mkWorld trio_session trio_session idle_session
    [track 1 None; track 2 None; track 3 None]
    (Some (Audio.mk "https://cdn.example/2.mp3" 0%Q (Some 200%Q))) []
    blank_storage ∅ 0 [] "https://tunefree.app/".

(** [Math.random()] returns a number in [[0, 1)]. *)
Definition unit_draw (r : Q) : Prop := (0 <= r)%Q ∧ (r < 1)%Q.

(** The draw that lands on index [j] of [n]. *)
Definition grid (n j : nat) : Q := (Z.of_nat j # Pos.of_nat n)%Q.

(** Every sequence of [L] indices below [n]. *)
Fixpoint all_draws (n L : nat) : list (list nat) :=
  match L with
  | 0 => [[]]
  | S L' => j ← seq 0 n; cons j <$> all_draws n L'
  end.

(** The retry loop ends on index [i] when fed the draws landing on [js]. *)
Definition lands (n : nat) (k i : Z) (js : list nat) : bool :=
  match shuffle_draw n k (grid n <$> js) with
  | Ok (i', _) => bool_decide (i' = i)
  | _ => false
  end.

(** The number of index sequences of length [L] on which the loop ends on
    index [i]. *)
Definition picks (n : nat) (k i : Z) (L : nat) : nat :=
  sum_list_with (fun js => if lands n k i js then 1 else 0) (all_draws n L).

(** Queue [[T1, T2, T3]] with T2 current, in shuffle mode; the first draw
    lands on T2 again, the second on T3. *)
Definition shuffle_world : World :=
  with_random [(1 # 2)%Q; (9 # 10)%Q] (setPlayMode shuffle trio_world).

(** A single-entry queue in shuffle mode. *)
Definition solo_session : Session :=
  mkSession (Some 0) true false 0%Q (Some 200%Q) 1%Q [0] 1 shuffle.

(** Track A is requested, then track B while A's URL is still being
    resolved; B's URL arrives, then A's. *)
Definition track_A : Song.t := track 1 (Some "https://img.example/a.jpg").
Definition track_B : Song.t := track 2 (Some "https://img.example/b.jpg").

Definition superseded_events : list Event :=
  [EPlaySong track_A; EPlaySong track_B;
   ESettle 1 (FulfilledUrl (Some "https://cdn.example/b.mp3"));
   ESettle 0 (FulfilledUrl (Some "https://cdn.example/a.mp3"));
   ESettle 3 FulfilledPlay].




(** A record that cannot be read back: storage access throws, the key is
    absent, or the stored string is empty or is not JSON. *)
Definition unreadable (key : string) (ls : Storage) : Prop :=
  match ls with
  | Denied => True
  | Items m =>
      m !! key = None ∨ m !! key = Some TEmpty ∨ ∃ raw, m !! key = Some (TGarbage raw)
  end.

(** What an event handler leaves alone: the closures of past renders and
    the storage, which only effects write; and what it owes the queue
    effect: a queue that differs is a new array. *)
Definition tracked (w w1 : World) : Prop :=
  rendered w1 = rendered w ∧ mounted w1 = mounted w ∧
  localStorage w1 = localStorage w ∧ location_href w1 = location_href w ∧
  queue_id (st w) ≤ queue_id (st w1) ∧
  (queue_id (st w1) = queue_id (st w) → queue (st w1) = queue (st w)).

(** Storage whose queue record was cut short. *)
Definition damaged_storage : Storage :=
  Items {[key_queue := TGarbage "[{id:1,"]}.

(** A saved snapshot: track 2 current, track 1 queued, sequence mode. *)
Definition snapshot_items : gmap string Text :=
  <[key_queue := JSON_stringify (JArr [encode_song (track 1 None)])]>
    (<[key_current := JSON_stringify (encode_song (track 2 None))]>
       (<[key_mode := JSON_stringify (JStr "sequence")]> ∅)).

(** A song with its URL forgotten: the part of an object that never
    changes once it is on the heap. *)
Definition erase_url (s : Song.t) : Song.t :=
  Song.mk (Song.id s) (Song.name s) (Song.artist s) (Song.album s) (Song.pic s)
    None (Song.source s).

(** [h'] holds every object of [h], each one unchanged but for its URL. *)
Definition grows (h h' : list Song.t) : Prop :=
  length h ≤ length h' ∧
  ∀ r, r < length h → erase_url (h' !!! r) = erase_url (h !!! r).

(** A continuation names a live copy of the song it was issued for. *)
Definition cont_ok (h : list Song.t) (k : Cont) : Prop :=
  match k with
  | AwaitUrl song f | AwaitInfo song f =>
      f < length h ∧ Song.id (h !!! f) = Song.id song
  | AwaitPlay f => f < length h
  end.

Definition wf_core (h : list Song.t) (cur : option Ref) (q : list Ref)
    (p : gmap nat Cont) (rd mt : Session) : Prop :=
  (Forall (fun r => r < length h) q ∧ ∀ r, cur = Some r → r < length h) ∧
  refs_ok h rd ∧ refs_ok h mt ∧
  unique_ids h q ∧
  ∀ k cont, p !! k = Some cont → cont_ok h cont.

(** No dangling reference in the state, in the closures or in the
    continuations, and a queue unique by identifier. *)
Definition well_formed (w : World) : Prop :=
  wf_core (heap w) (currentSong (st w)) (queue (st w)) (pending w)
    (rendered w) (mounted w).

(** What every handler keeps: the heap only grows, and a well-formed world
    stays well formed. *)
Definition keeps (w w' : World) : Prop :=
  grows (heap w) (heap w') ∧ (well_formed w → well_formed w').

(** Two heaps hold the same objects under [refs], URLs apart. *)
Definition agree (h1 h2 : list Song.t) (refs : list Ref) : Prop :=
  Forall (fun r => erase_url (h1 !!! r) = erase_url (h2 !!! r)) refs.

(** Storage holds the queue, the current track and the mode of the session,
    as they were when last written: the same tracks, URLs apart. *)
Definition synced (w : World) : Prop :=
  ∃ m hq hc,
    localStorage w = Items m ∧
    m !! key_queue = Some (JSON_stringify (encode_queue hq (queue (st w)))) ∧
    agree hq (heap w) (queue (st w)) ∧
    m !! key_current = Some (JSON_stringify (encode_current hc (currentSong (st w)))) ∧
    agree hc (heap w) (option_list (currentSong (st w))) ∧
    m !! key_mode = Some (JSON_stringify (encode_mode (playMode (st w)))).

(** Between two events every render has run its effects. *)
Definition at_rest (w : World) : Prop := rendered w = st w.

(** [playNext] and [playPrev] are memoised on the current track, the queue
    and the mode: the closure of the handler a press reaches agrees with the
    last render on these three, while the play flag it reads, through
    [playSong] and [togglePlay], may be that of an earlier render. *)
Definition memo_of (r c : Session) : Prop :=
  currentSong c = currentSong r ∧ queue c = queue r ∧ playMode c = playMode r.

Definition navigation (e : Event) : bool :=
  match e with
  | EPlayNext _ | EPlayPrev => true
  | _ => false
  end.

(** An event is handled: a navigation press by a memoised closure, any other
    event as [handle] has it. *)
Inductive handles : Event → World → World → Prop :=
| handles_next c force w w' :
    memo_of (rendered w) c → playNext c force w = Ok w' →
    handles (EPlayNext force) w w'
| handles_prev c w w' :
    memo_of (rendered w) c → playPrev c w = Ok w' → handles EPlayPrev w w'
| handles_other e w w' :
    navigation e = false → handle e w = Ok w' → handles e w w'.

(** The worlds a player can get to: events handled one after the other, each
    followed by a render and its effects. *)
Inductive reaches : World → World → Prop :=
| reaches_refl w : reaches w w
| reaches_step e w w1 w2 w' :
    handles e w w1 → commit w1 = Ok w2 → reaches w2 w' → reaches w w'.

(** The events by which the device reports its own state. *)
Definition status_event (e : Event) : bool :=
  match e with
  | ETimeUpdate _ | ELoadedMetadata _ | EError | EWaiting | ECanPlay => true
  | _ => false
  end.

(** [getSongUrl] brought no URL: it was rejected, or fulfilled with [null]
    or with the empty string. *)
Definition url_failed (r : Settlement) : Prop :=
  r = Rejected ∨ r = FulfilledUrl None ∨ r = FulfilledUrl (Some EmptyString).

Definition fulfilled (r : Settlement) : bool :=
  match r with
  | Rejected => false
  | _ => true
  end.

(** The two characters of a number below one hundred. *)
Definition two_digits (r : Z) : string :=
  String (Ascii.ascii_of_nat (48 + Z.to_nat (r / 10)))
    (String (Ascii.ascii_of_nat (48 + Z.to_nat (r mod 10))) EmptyString).

(** Lyrics in the order of their times. *)
Definition by_time (lyrics : list FullPlayer.ParsedLyric) : Prop :=
  ∀ i j a b, i ≤ j → lyrics !! i = Some a → lyrics !! j = Some b →
             (FullPlayer.time a <= FullPlayer.time b)%Q.

(** The test [findIndex] applies to line [i] of [lyrics]. *)
Definition started (lyrics : list FullPlayer.ParsedLyric) (t : Q)
    (line : FullPlayer.ParsedLyric) (i : nat) : bool :=
  Qle_bool (FullPlayer.time line) t
  && match lyrics !! (i + 1) with
     | None => true
     | Some n => negb (Qle_bool (FullPlayer.time n) t)
     end.

(** The lines [[00:12.50] la ], [no tag] and [x[00:01.000]y[00:02.00]]. *)
Definition sample_lrc : list N :=
  [91; 48; 48; 58; 49; 50; 46; 53; 48; 93; 32; 108; 97; 32; 10;
   110; 111; 32; 116; 97; 103; 10;
   120; 91; 48; 48; 58; 48; 49; 46; 48; 48; 48; 93; 121;
   91; 48; 48; 58; 48; 50; 46; 48; 48; 93]%N.

(** A time tag [[mm:ss.ff]] or [[mm:ss.fff]] written with the given digits. *)
Definition tag (m1 m2 s1 s2 : N) (f : list N) : list N :=
  ([91; 48 + m1; 48 + m2; 58; 48 + s1; 48 + s2; 46] ++ ((fun d => 48 + d) <$> f)
   ++ [93])%N.

(** A track is started by [start], its URL arrives, the device starts it and
    reports its duration; the user then switches from sequence to loop mode
    and the track plays to its end. *)
Definition played_to_end_in_loop (start : Event) : list Event :=
  [start;
   ESettle 0 (FulfilledUrl (Some "https://cdn.example/a.mp3"));
   ESettle 1 FulfilledPlay;
   ELoadedMetadata (Some 200%Q);
   ETogglePlayMode;
   ETimeUpdate 200%Q].

(** A stored snapshot: queue [[A, B]], A current, sequence mode. *)
Definition pair_storage : Storage :=
  Items (<[key_queue := JSON_stringify (JArr [encode_song track_A; encode_song track_B])]>
           (<[key_current := JSON_stringify (encode_song track_A)]>
              (<[key_mode := JSON_stringify (JStr "sequence")]> ∅))).

(** Storage whose queue record holds [null]. *)
Definition null_queue_storage : Storage :=
  Items {[key_queue := JSON_stringify JNull]}.

(** Track A is requested on a fresh player and its URL arrives. *)
Definition url_arrival_events : list Event :=
  [EPlaySong track_A; ESettle 0 (FulfilledUrl (Some "https://cdn.example/a.mp3"))].

(** * Properties *)

(** Projections of updated worlds: [world] for shallow terms, [crunch] once
    the world has been destructed into its fields. *)
Ltac world :=
  cbn [setCurrentSong setIsPlaying setIsLoading setCurrentTime setDuration
       setQueue setPlayMode spawn alloc deref audio_do with_st with_rendered
       with_heap with_audio with_localStorage with_pending with_random
       st rendered mounted heap audioRef calls localStorage pending next_task
       random location_href currentSong isPlaying isLoading currentTime
       duration volume queue queue_id playMode fst snd] in *.

Ltac crunch :=
  cbv [setCurrentSong setIsPlaying setIsLoading setCurrentTime setDuration
       setQueue setPlayMode spawn alloc deref audio_do with_st with_rendered
       with_heap with_audio with_localStorage with_pending with_random
       st rendered mounted heap audioRef calls localStorage pending next_task
       random location_href currentSong isPlaying isLoading currentTime
       duration volume queue queue_id playMode fst snd] in *.

Ltac destruct_world w :=
  let cs := fresh "cs" in let ip := fresh "ip" in let il := fresh "il" in
  let ct := fresh "ct" in let du := fresh "du" in let vo := fresh "vo" in
  let q := fresh "q" in let qi := fresh "qi" in let pm := fresh "pm" in
  let rd := fresh "rd" in let mt := fresh "mt" in let h := fresh "h" in
  let au := fresh "au" in let cl := fresh "cl" in let ls := fresh "ls" in
  let pd := fresh "pd" in let nt := fresh "nt" in let tp := fresh "tp" in
  let href := fresh "href" in
  destruct w as [[cs ip il ct du vo q qi pm] rd mt h au cl ls pd nt tp href].

Ltac tracked_by_cases :=
  unfold tracked; repeat case_match; crunch; simplify_eq; crunch;
  repeat split; intros; (done || lia).

(** ** Queue facts *)

Lemma has_id_spec h i q : has_id h i q = true ↔ i ∈ ids h q.
Proof.
  unfold has_id, ids. rewrite existsb_exists, list_elem_of_fmap. split.
  - intros (s & Hin & Hs). apply bool_decide_eq_true in Hs.
    exists s. split; [done | by apply list_elem_of_In].
  - intros (s & -> & Hin). exists s. split; [by apply list_elem_of_In |].
    by apply bool_decide_eq_true.
Qed.

Lemma has_id_false h i q : has_id h i q = false ↔ i ∉ ids h q.
Proof.
  rewrite <- has_id_spec. destruct (has_id h i q); split; try done.
Qed.

Lemma entries_with_app h i q1 q2 :
  entries_with h i (q1 ++ q2) = entries_with h i q1 + entries_with h i q2.
Proof. unfold entries_with. by rewrite filter_app, length_app. Qed.

Lemma entries_with_absent h i q : i ∉ ids h q → entries_with h i q = 0.
Proof.
  unfold entries_with, ids. induction q as [|s q IH]; [done |].
  intros Hni. rewrite fmap_cons, not_elem_of_cons in Hni. destruct Hni as [Hne Hni].
  rewrite filter_cons. destruct (decide _) as [Heq|_]; [by destruct Hne | auto].
Qed.

Lemma entries_with_unique h i q :
  unique_ids h q → i ∈ ids h q → entries_with h i q = 1.
Proof.
  unfold unique_ids, entries_with, ids. induction q as [|s q IH]; intros Hnd Hin.
  - by apply elem_of_nil in Hin.
  - rewrite fmap_cons in Hnd, Hin. apply NoDup_cons in Hnd as [Hni Hnd].
    rewrite filter_cons. destruct (decide _) as [Heq|Hne].
    + simpl. f_equal. apply (entries_with_absent h i q). by rewrite <- Heq.
    + apply elem_of_cons in Hin as [Heq|Hin]; [by destruct Hne | auto].
Qed.

(** ** Adding to the queue *)

(** C8. [addToQueue] appends the track at the end when no entry has its
    identifier and leaves the world unchanged otherwise; so after the same
    identifier is added twice in succession, a queue that was unique by
    identifier holds exactly one entry with it. *)
Theorem addToQueue_idempotent (w : World) (song : Ref) :
  let i := Song.id (deref w song) in
  (i ∉ ids (heap w) (queue (st w)) →
     addToQueue song w = setQueue (queue (st w) ++ [song]) w ∧
     queue (st (addToQueue song w)) = queue (st w) ++ [song]) ∧
  (i ∈ ids (heap w) (queue (st w)) → addToQueue song w = w) ∧
  (unique_ids (heap w) (queue (st w)) →
     ∀ again, Song.id (deref w again) = i →
       entries_with (heap w) i (queue (st (addToQueue again (addToQueue song w)))) = 1).
Proof.
  intros i. assert (Hi : Song.id (heap w !!! song) = i) by done.
  clearbody i. unfold addToQueue, deref. rewrite Hi. split; [|split].
  - intros Hni. apply has_id_false in Hni. by rewrite Hni.
  - intros Hin. apply has_id_spec in Hin. by rewrite Hin.
  - intros Hnd again Hid.
    destruct (has_id (heap w) i (queue (st w))) eqn:Hq.
    + rewrite Hid, Hq. apply entries_with_unique; [done | by apply has_id_spec].
    + world. rewrite Hid.
      assert (Hin : has_id (heap w) i (queue (st w) ++ [song]) = true).
      { apply has_id_spec. unfold ids. rewrite fmap_app. apply elem_of_app. right.
        apply list_elem_of_singleton. done. }
      rewrite Hin. world.
      rewrite entries_with_app, entries_with_absent by (by apply has_id_false).
      unfold entries_with. rewrite filter_cons, decide_True by done. done.
Qed.

Lemma addToQueue_idempotent_witness :
  let w := addToQueue 0 (with_heap [track 7 None] idle_world) in
  unique_ids (heap w) (queue (st w)) ∧
  entries_with (heap w) (IdNum 7) (queue (st (addToQueue 0 (addToQueue 0 w)))) = 1.
Proof.
  intros w.
  assert (Hu : unique_ids (heap w) (queue (st w))).
  { vm_compute. apply NoDup_singleton. }
  split; [exact Hu |].
  exact (proj2 (proj2 (addToQueue_idempotent w 0)) Hu 0 eq_refl).
Defined.

(** ** Navigation without a queue or without a current track *)

(** C3, amended.  [playNext] and [playPrev] return at once, leaving the whole
    world (session, device, calls issued, promises) as it was, when the
    queue is empty or there is no current track. *)
Theorem next_prev_noop (c : Session) (w : World) (force : bool) :
  queue c = [] ∨ currentSong c = None →
  playNext c force w = Ok w ∧ playPrev c w = Ok w.
Proof.
  unfold playNext, playPrev.
  intros [Hq | Hc]; [rewrite Hq | rewrite Hc]; [| done].
  destruct (currentSong c); done.
Qed.

Lemma next_prev_noop_witness :
  playNext idle_session true idle_world = Ok idle_world ∧
  playPrev idle_session idle_world = Ok idle_world.
Proof. apply (next_prev_noop idle_session idle_world true). left. reflexivity. Defined.

Lemma orphan_world_reached : run orphan_events idle_world = Ok orphan_world.
Proof. vm_compute. reflexivity. Qed.

(** C3 as stated fails: the current track (id 2) is not found in the queue
    [[track 1]], yet [playNext] makes track 1 current and marks the session
    loading, and so does [playPrev]. *)
Lemma next_not_found_advances :
  (Song.id (deref orphan_world 0) ∉ ids (heap orphan_world) (queue (st orphan_world))) ∧
  current_index orphan_world (st orphan_world) 0 = (-1)%Z ∧
  (∃ w, playNext (st orphan_world) true orphan_world = Ok w ∧
        (Song.id ∘ deref w <$> currentSong (st w)) = Some (IdNum 1) ∧
        isLoading (st w) = true ∧ w ≠ orphan_world) ∧
  (∃ w, playPrev (st orphan_world) orphan_world = Ok w ∧
        (Song.id ∘ deref w <$> currentSong (st w)) = Some (IdNum 1) ∧
        w ≠ orphan_world).
Proof.
  split; [| split; [| split]].
  - vm_compute. intros H. apply list_elem_of_singleton in H. discriminate.
  - reflexivity.
  - eexists. split; [vm_compute; reflexivity |]. split; [reflexivity |].
    split; [reflexivity | discriminate].
  - eexists. split; [vm_compute; reflexivity |]. split; [reflexivity | discriminate].
Qed.

(** ** Seeking *)

Lemma clamp_range (d t : Q) : (0 <= d)%Q → (0 <= Audio.clamp d t <= d)%Q.
Proof.
  intros Hd. unfold Audio.clamp.
  destruct (Qlt_le_dec d t) as [Hdt | Htd].
  - destruct (Qlt_le_dec d 0) as [Hd0 | _].
    + split; [apply Qle_refl | done].
    + split; [done | apply Qle_refl].
  - destruct (Qlt_le_dec t 0) as [Ht0 | Ht0].
    + split; [apply Qle_refl | done].
    + split; done.
Qed.

Lemma clamp_below (d t : Q) : (0 <= d)%Q → (t < 0)%Q → Audio.clamp d t = 0%Q.
Proof.
  intros Hd Ht. unfold Audio.clamp.
  destruct (Qlt_le_dec d t) as [Hdt | _].
  - exfalso. apply (Qlt_irrefl d). apply Qlt_le_trans with 0%Q; [| done].
    by apply Qlt_trans with t.
  - destruct (Qlt_le_dec t 0) as [_ | Ht0]; [done |].
    exfalso. apply (Qlt_irrefl t). by apply Qlt_le_trans with 0%Q.
Qed.

Lemma clamp_above (d t : Q) : (0 <= d)%Q → (d < t)%Q → Audio.clamp d t = d.
Proof.
  intros Hd Ht. unfold Audio.clamp.
  destruct (Qlt_le_dec d t) as [_ | Htd].
  - destruct (Qlt_le_dec d 0) as [Hd0 | _]; [| done].
    exfalso. apply (Qlt_irrefl d). by apply Qlt_le_trans with 0%Q.
  - exfalso. apply (Qlt_irrefl d). by apply Qlt_le_trans with t.
Qed.

Lemma clamp_inside (d t : Q) : (0 <= t)%Q → (t <= d)%Q → Audio.clamp d t = t.
Proof.
  intros Ht Htd. unfold Audio.clamp.
  destruct (Qlt_le_dec d t) as [Hdt | _].
  - exfalso. apply (Qlt_irrefl d). by apply Qlt_le_trans with t.
  - destruct (Qlt_le_dec t 0) as [Ht0 | _]; [| done].
    exfalso. apply (Qlt_irrefl t). by apply Qlt_le_trans with 0%Q.
Qed.

Lemma clamp_zero (d : Q) : Audio.clamp d 0 = 0%Q.
Proof.
  unfold Audio.clamp.
  destruct (Qlt_le_dec d 0) as [Hd | Hd]; cbv zeta.
  - destruct (Qlt_le_dec d 0) as [_ | Hd']; [done |].
    exfalso. apply (Qlt_irrefl d). by apply Qlt_le_trans with 0%Q.
  - by destruct (Qlt_le_dec 0 0).
Qed.

(** C4, amended.  [seek(time)] hands [time] to the device, whose own position
    is what the adapter clamps into [[0, d]], and sets the session's elapsed
    time to [time] itself; the session's elapsed time takes the clamped
    device position at the next progress event. *)
Theorem seek_is_optimistic (time : Q) (w : World) (a : Audio.t) :
  audioRef w = Some a →
  currentTime (st (seek time w)) = time ∧
  audioRef (seek time w) = Some (Audio.set_currentTime time a) ∧
  calls (seek time w) = CSetTime time :: calls w ∧
  (∀ d, Audio.duration a = Some d → (0 <= d)%Q →
     let p := Audio.currentTime (Audio.set_currentTime time a) in
     (0 <= p <= d)%Q ∧
     ((time < 0)%Q → p = 0%Q) ∧
     ((d < time)%Q → p = d) ∧
     ((0 <= time)%Q → (time <= d)%Q → p = time) ∧
     currentTime (st (handleTimeUpdate (seek time w))) = p).
Proof.
  intros Ha. unfold seek, handleTimeUpdate, audio_do. rewrite Ha. world.
  repeat split; try done.
  all: unfold Audio.set_currentTime; rewrite H; cbn [Audio.currentTime].
  - by apply clamp_range.
  - by apply clamp_range.
  - by apply clamp_below.
  - by apply clamp_above.
  - by apply clamp_inside.
Qed.

Lemma seek_is_optimistic_witness :
  currentTime (st (seek 500 playing_world)) = 500%Q ∧
  Audio.currentTime <$> audioRef (seek 500 playing_world) = Some 200%Q ∧
  currentTime (st (handleTimeUpdate (seek 500 playing_world))) = 200%Q.
Proof.
  pose proof (seek_is_optimistic 500 playing_world _ eq_refl) as (Ht & Ha & _ & Hd).
  destruct (Hd 200%Q eq_refl ltac:(done)) as (_ & _ & Hp & _ & Hu).
  rewrite Ht, Ha, Hu. cbn [fmap option_fmap option_map]. rewrite Hp; done.
Defined.

(** C4 as stated fails: on a track of duration 200, [seek(-5)] leaves the
    session's elapsed time at -5, not 0, and [seek(500)] at 500, not 200. *)
Lemma seek_does_not_clamp_session :
  Audio.duration <$> audioRef playing_world = Some (Some 200%Q) ∧
  currentTime (st (seek (-5) playing_world)) = (-5)%Q ∧
  ¬ (0 <= currentTime (st (seek (-5) playing_world)))%Q ∧
  currentTime (st (seek 500 playing_world)) = 500%Q ∧
  ¬ (currentTime (st (seek 500 playing_world)) <= 200)%Q.
Proof.
  split; [reflexivity |]. split; [reflexivity |]. split; [| split; [reflexivity |]].
  - intros H. vm_compute in H. by apply H.
  - intros H. vm_compute in H. by apply H.
Qed.

(** ** Playing the current track again *)

(** The call [playSong(currentSong)] that [togglePlay] makes when the device
    has no source is the start of a fresh play: [playSong]'s own toggle test
    fails on the same missing source. *)
Lemma togglePlay_calls_playSong (c : Session) (w : World) (a : Audio.t) (cur : Ref) :
  audioRef w = Some a → currentSong c = Some cur →
  has_src (location_href w) a = false →
  togglePlay c w = playSong c (deref w cur) w.
Proof.
  intros Ha Hc Hs. unfold togglePlay, playSong.
  by rewrite Ha, Hc, Hs, andb_false_r.
Qed.

(** C5.  [playSong] with the identifier of the current track is
    [togglePlay()] when the device has a source: the play flag flips, the
    device gets one pause or play call, nothing is reloaded.  When the device
    has no source it is a fresh play: the session is marked loading, the URL
    is resolved again, and its arrival loads the device and starts it. *)
Theorem playSong_same_id (c : Session) (song : Song.t) (w : World) (a : Audio.t) :
  audioRef w = Some a →
  is_current w c (Song.id song) = true →
  (has_src (location_href w) a = true →
     let w' := playSong c song w in
     w' = togglePlay c w ∧
     st w' = st (setIsPlaying (negb (isPlaying c)) w) ∧
     audioRef w' = Some a ∧
     calls w' = (if isPlaying c then CPause else CPlay) :: calls w ∧
     heap w' = heap w ∧ pending w' = pending w) ∧
  (has_src (location_href w) a = false →
     let w' := playSong c song w in
     let fullSong := length (heap w) in
     w' = playSong_start song w ∧
     isLoading (st w') = true ∧
     currentSong (st w') = Some fullSong ∧
     deref w' fullSong = song ∧
     pending w' !! next_task w = Some (AwaitUrl song fullSong) ∧
     ∀ u, u ≠ EmptyString →
       let w'' := settle (next_task w) (FulfilledUrl (Some u)) w' in
       audioRef w'' = Some (Audio.load (Audio.set_src u a)) ∧
       calls w'' = CPlay :: CLoad :: CSetSrc u :: calls w ∧
       Song.url (deref w'' fullSong) = Some u).
Proof.
  intros Ha Hcur. unfold playSong. rewrite Ha, Hcur.
  split; intros Hs; rewrite Hs; cbn [andb].
  - unfold is_current in Hcur. destruct (currentSong c) as [cur|] eqn:Hc; [| done].
    unfold togglePlay. rewrite Ha, Hc, Hs. cbn [negb].
    destruct (isPlaying c); destruct w; crunch; by subst.
  - cbv zeta. split; [done |].
    assert (Hderef : (heap w ++ [song]) !!! length (heap w) = song).
    { by rewrite list_lookup_total_middle. }
    destruct w as [s r m h au cs ls p n t href]; crunch; subst au.
    unfold playSong_start. crunch.
    destruct (has_id _ _ _); crunch.
    all: repeat split; try done; try apply lookup_insert_eq.
    all: unfold settle; crunch; rewrite lookup_insert_eq.
    all: assert (Ht : truthy (Some u) = true) by (by apply bool_decide_eq_true).
    all: unfold resume, playSong_resume; rewrite Ht.
    all: destruct (negb (truthy (Song.pic song))); crunch; try done.
    all: rewrite list_lookup_total_insert_eq by (rewrite length_app; simpl; lia).
    all: done.
Qed.

Lemma playSong_same_id_witness :
  playSong playing_session (track 1 None) playing_world
    = togglePlay playing_session playing_world ∧
  playSong restored_session (track 1 None) restored_world
    = playSong_start (track 1 None) restored_world.
Proof.
  split.
  - exact (proj1 (proj1 (playSong_same_id playing_session (track 1 None)
                           playing_world _ eq_refl eq_refl) eq_refl)).
  - exact (proj1 (proj2 (playSong_same_id restored_session (track 1 None)
                           restored_world _ eq_refl eq_refl) eq_refl)).
Defined.

(** ** Single repeat *)

(** [playNext(false)] by a closure that is in loop mode touches no state
    variable: queue, current track and its place in the queue stay as they
    are.  It sets the device position to 0 and calls [play] on the source
    already loaded, so that the next progress event reports an elapsed time
    of 0.  The [ended] listener reaches this call only through the closure
    of the first render. *)
Theorem loop_replays_same_track (c : Session) (w : World) (cur : Ref) (a : Audio.t) :
  playMode c = loop →
  currentSong c = Some cur →
  queue c ≠ [] →
  audioRef w = Some a →
  ∃ w', playNext c false w = Ok w' ∧
        st w' = st w ∧ heap w' = heap w ∧ pending w' = pending w ∧
        current_index w' c cur = current_index w c cur ∧
        (∃ a', audioRef w' = Some a' ∧
               Audio.src a' = Audio.src a ∧ Audio.currentTime a' = 0%Q) ∧
        calls w' = CPlay :: CSetTime 0 :: calls w ∧
        currentTime (st (handleTimeUpdate w')) = 0%Q.
Proof.
  intros Hm Hc Hq Ha. unfold playNext. rewrite Hc, Hm.
  rewrite bool_decide_eq_false_2 by (by destruct (queue c)).
  cbn [negb andb]. rewrite bool_decide_eq_true_2 by done.
  eexists. split; [reflexivity |].
  assert (Hz : Audio.currentTime (Audio.set_currentTime 0 a) = 0%Q).
  { unfold Audio.set_currentTime. destruct (Audio.duration a); [| done].
    apply clamp_zero. }
  unfold handleTimeUpdate, current_index.
  destruct w as [s r m h au cs ls p n t href]; world; subst au.
  repeat split; try done.
  exists (Audio.set_currentTime 0 a). repeat split; try done.
  unfold Audio.set_currentTime. by destruct (Audio.duration a).
Qed.

Lemma loop_replays_same_track_witness :
  ∃ w', playNext restored_session false playing_world = Ok w' ∧
        st w' = st playing_world ∧
        calls w' = CPlay :: CSetTime 0 :: calls playing_world.
Proof.
  destruct (loop_replays_same_track restored_session playing_world 0 _
              eq_refl eq_refl ltac:(discriminate) eq_refl)
    as (w' & Hn & Hs & _ & _ & _ & _ & Hc & _).
  exists w'. by repeat split.
Defined.

(** The listener of the device's [ended] event is the first render's: it
    replays only if the mode read from storage at startup was [loop], whatever
    the mode is now.  Here the track is playing in loop mode on a player
    started from empty storage: the track end does nothing. *)
Remark ended_uses_first_render :
  let w := with_st (mkSession (Some 0) true false 200%Q (Some 200%Q) 1%Q [0] 1 loop)
             playing_world in
  playMode (st w) = loop ∧ handleEnded w = Ok w.
Proof. split; reflexivity. Qed.

(** ** Finding the current track in the queue *)

Lemma findIndex_from_hit {A} (p : A → bool) (l : list A) (n : nat) (x : A) (i : Z) :
  l !! n = Some x → p x = true →
  (∀ j y, j < n → l !! j = Some y → p y = false) →
  findIndex_from p l i = (i + Z.of_nat n)%Z.
Proof.
  revert n i. induction l as [|y l IH]; intros n i Hn Hx Hbefore; [done |].
  destruct n as [|n]; cbn [findIndex_from].
  - injection Hn as ->. rewrite Hx. lia.
  - rewrite (Hbefore 0 y) by (done || lia).
    rewrite (IH n (i + 1)%Z); [lia | done | done |].
    intros j z Hj Hz. apply (Hbefore (S j) z); [lia | done].
Qed.

Lemma findIndex_from_miss {A} (p : A → bool) (l : list A) (i : Z) :
  (∀ x, x ∈ l → p x = false) → findIndex_from p l i = (-1)%Z.
Proof.
  revert i. induction l as [|y l IH]; intros i Hall; [done |].
  cbn [findIndex_from]. rewrite (Hall y) by apply list_elem_of_here.
  apply IH. intros x Hx. apply Hall. by apply list_elem_of_further.
Qed.

Lemma findIndex_from_inv {A} (p : A → bool) (l : list A) (i : Z) :
  findIndex_from p l i = (-1)%Z ∨
  ∃ n x, findIndex_from p l i = (i + Z.of_nat n)%Z ∧ l !! n = Some x ∧ p x = true.
Proof.
  revert i. induction l as [|y l IH]; intros i; [by left |].
  cbn [findIndex_from]. destruct (p y) eqn:Hy.
  - right. exists 0, y. split; [lia | done].
  - destruct (IH (i + 1)%Z) as [Hm | (n & x & Hr & Hn & Hx)]; [by left |].
    right. exists (S n), x. split; [lia | done].
Qed.

Lemma findIndex_found {A} (p : A → bool) (l : list A) (k : nat) :
  findIndex p l = Z.of_nat k → ∃ x, l !! k = Some x ∧ p x = true.
Proof.
  unfold findIndex. intros Hk.
  destruct (findIndex_from_inv p l 0) as [Hm | (n & x & Hr & Hn & Hx)]; [lia |].
  exists x. replace k with n by lia. done.
Qed.

Lemma ids_lookup h q n s : q !! n = Some s → ids h q !! n = Some (Song.id (h !!! s)).
Proof. intros Hn. unfold ids. by rewrite list_lookup_fmap, Hn. Qed.

(** In a queue unique by identifier, an identifier is found where it is. *)
Lemma findIndex_unique h q n s i :
  unique_ids h q → q !! n = Some s → Song.id (h !!! s) = i →
  findIndex (fun r => bool_decide (Song.id (h !!! r) = i)) q = Z.of_nat n.
Proof.
  intros Hnd Hn Hi. unfold findIndex.
  rewrite (findIndex_from_hit _ q n s); [lia | done | by apply bool_decide_eq_true |].
  intros j y Hj Hy. apply bool_decide_eq_false. intros Hyi.
  assert (j = n); [| lia].
  apply (NoDup_lookup (ids h q) j n i Hnd).
  - by rewrite (ids_lookup h q j y), Hyi.
  - by rewrite (ids_lookup h q n s), Hi.
Qed.

(** Allocation leaves the objects already on the heap alone. *)
Lemma lookup_total_alloc (h : list Song.t) (x : Song.t) (r : Ref) :
  r < length h → (h ++ [x]) !!! r = h !!! r.
Proof. intros Hr. by apply lookup_total_app_l. Qed.

Lemma ids_alloc h x q : Forall (fun r => r < length h) q → ids (h ++ [x]) q = ids h q.
Proof.
  unfold ids. intros Hq. apply list_fmap_ext. intros n r Hn.
  rewrite lookup_total_alloc; [done |].
  by apply (Forall_lookup_1 _ q n r Hq).
Qed.

(** ** Sequential navigation *)

Lemma navigable_lt w k : navigable w k → k < length (queue (st w)).
Proof.
  intros (_ & _ & _ & _ & Hk). unfold index_of_current in Hk.
  destruct (currentSong (st w)) as [cur|]; [| lia].
  apply findIndex_found in Hk as (x & Hx & _). by apply lookup_lt_Some in Hx.
Qed.

(** Playing a queue entry other than the current one, whatever is left of
    the random tape: the entry's copy becomes current and the queue is
    kept. *)
Lemma playSong_at_other_tape (w : World) (k n : nat) (s : Ref) (tape : list Q) :
  navigable w k → queue (st w) !! n = Some s → n ≠ k →
  let w' := playSong_at (st w) (Z.of_nat n) (with_random tape w) in
  w' = playSong_start (deref w s) (with_random tape w) ∧
  queue (st w') = queue (st w) ∧
  playMode (st w') = playMode (st w) ∧
  heap w' = heap w ++ [deref w s] ∧
  currentSong (st w') = Some (length (heap w)) ∧
  random w' = tape ∧
  current_id w' = Some (Song.id (deref w s)) ∧
  current_id w' ≠ current_id w ∧
  navigable w' n.
Proof.
  intros Hnav Hn Hne.
  destruct w as [[cs ip il ct du vo q qi pm] r m h au cl ls p nt t href].
  destruct Hnav as ([a Ha] & [Hrq Hrc] & Hnd & Hlen & Hk).
  unfold index_of_current, current_index in Hk. crunch. subst au.
  destruct cs as [cur|]; [| lia].
  apply findIndex_found in Hk as Hcur. destruct Hcur as (c' & Hk' & Hid).
  apply bool_decide_eq_true in Hid.
  assert (Hsr : s < length h) by (by apply (Forall_lookup_1 _ _ n s Hrq)).
  assert (Hdiff : Song.id (h !!! s) ≠ Song.id (h !!! cur)).
  { intros Heq. apply Hne.
    apply (NoDup_lookup (ids h q) n k (Song.id (h !!! s)) Hnd).
    - by apply ids_lookup.
    - rewrite (ids_lookup _ _ k c') by done. by rewrite Hid, Heq. }
  assert (Hhas : has_id (h ++ [h !!! s]) (Song.id (h !!! s)) q = true).
  { apply has_id_spec. rewrite ids_alloc by done.
    apply list_elem_of_lookup. exists n. by apply ids_lookup. }
  unfold playSong_at, queue_at. crunch.
  rewrite bool_decide_eq_false_2 by lia. rewrite Nat2Z.id, Hn.
  unfold playSong, is_current. crunch.
  rewrite bool_decide_eq_false_2 by done. cbn [andb].
  unfold playSong_start. crunch. rewrite Hhas.
  unfold navigable, refs_ok, index_of_current, current_index, current_id. crunch.
  cbn [fmap option_fmap option_map compose].
  rewrite list_lookup_total_middle by done.
  repeat split; try done.
  - intros [= Heq]. done.
  - eapply Forall_impl; [exact Hrq |]. intros x Hx. rewrite length_app. simpl in *. lia.
  - intros x [= <-]. rewrite length_app. simpl. lia.
  - unfold unique_ids. by rewrite ids_alloc.
  - apply findIndex_unique with s.
    + unfold unique_ids. by rewrite ids_alloc.
    + done.
    + by rewrite lookup_total_alloc.
Qed.

Lemma playSong_at_other (w : World) (k n : nat) (s : Ref) :
  navigable w k → queue (st w) !! n = Some s → n ≠ k →
  let w' := playSong_at (st w) (Z.of_nat n) w in
  queue (st w') = queue (st w) ∧
  playMode (st w') = playMode (st w) ∧
  navigable w' n.
Proof.
  intros Hnav Hn Hne.
  destruct (playSong_at_other_tape w k n s (random w) Hnav Hn Hne)
    as (_ & Hq & Hm & _ & _ & _ & _ & _ & Hnav').
  by destruct w.
Qed.

Lemma next_sequential (w : World) (k : nat) :
  navigable w k → playMode (st w) ≠ shuffle →
  let n := length (queue (st w)) in
  ∃ w', playNext (st w) true w = Ok w' ∧
        queue (st w') = queue (st w) ∧
        playMode (st w') = playMode (st w) ∧
        navigable w' ((k + 1) mod n).
Proof.
  intros Hnav Hmode n.
  pose proof (navigable_lt w k Hnav) as Hlt. fold n in Hlt.
  pose proof Hnav as (_ & _ & _ & Hlen & Hk). fold n in Hlen.
  unfold index_of_current in Hk. unfold playNext.
  destruct (currentSong (st w)) as [cur|] eqn:Hc; [| lia].
  rewrite bool_decide_eq_false_2 by (fold n; lia). cbn [negb andb].
  rewrite bool_decide_eq_false_2 by done. rewrite Hk. fold n.
  assert (Hrem : Z.rem (Z.of_nat k + 1) (Z.of_nat n) = Z.of_nat ((k + 1) mod n)).
  { rewrite Z.rem_mod_nonneg by lia. rewrite Nat2Z.inj_mod. f_equal. lia. }
  rewrite Hrem.
  assert (Hk' : (k + 1) mod n < n) by (apply Nat.mod_upper_bound; lia).
  destruct (lookup_lt_is_Some_2 (queue (st w)) _ Hk') as [s Hs].
  assert (Hne : (k + 1) mod n ≠ k).
  { destruct (decide (k + 1 = n)) as [Hkn | Hkn].
    - rewrite Hkn, Nat.Div0.mod_same. lia.
    - rewrite Nat.mod_small by lia. lia. }
  destruct (playSong_at_other w k _ s Hnav Hs Hne) as (Hq & Hm & Hnav').
  eexists. split; [reflexivity |]. done.
Qed.

Lemma press_next_sequential (m : nat) (w : World) (k : nat) :
  navigable w k → playMode (st w) ≠ shuffle →
  let n := length (queue (st w)) in
  ∃ w', press_next m w = Ok w' ∧
        queue (st w') = queue (st w) ∧
        playMode (st w') = playMode (st w) ∧
        navigable w' ((k + m) mod n).
Proof.
  revert w k. induction m as [|m IH]; intros w k Hnav Hmode n.
  - exists w. split; [done |]. split; [done |]. split; [done |].
    rewrite Nat.add_0_r, Nat.mod_small; [done |]. by apply navigable_lt.
  - destruct (next_sequential w k Hnav Hmode) as (w1 & Hstep & Hq1 & Hm1 & Hnav1).
    fold n in Hnav1.
    destruct (IH w1 _ Hnav1) as (w' & Hrun & Hq & Hm' & Hnav'); [congruence |].
    exists w'. cbn [press_next]. rewrite Hstep. cbn. 
    split; [exact Hrun |]. split; [congruence |]. split; [congruence |].
    rewrite Hq1 in Hnav'. fold n in Hnav'.
    replace ((k + S m) mod n) with (((k + 1) mod n + m) mod n); [done |].
    rewrite Nat.Div0.add_mod_idemp_l. f_equal. lia.
Qed.

(** C9.  In a mode other than shuffle, on a queue of [n > 1] tracks unique by
    identifier with the current track at index [k], [playNext(true)] makes
    the entry at index [(k + 1) mod n] current and keeps the queue; [n]
    presses bring the current track back to index [k]. *)
Theorem sequential_next_wraps (w : World) (k : nat) :
  navigable w k →
  playMode (st w) ≠ shuffle →
  let n := length (queue (st w)) in
  (∃ w', playNext (st w) true w = Ok w' ∧
         queue (st w') = queue (st w) ∧
         index_of_current w' = Z.of_nat ((k + 1) mod n)) ∧
  (∃ w', press_next n w = Ok w' ∧
         queue (st w') = queue (st w) ∧
         index_of_current w' = Z.of_nat k).
Proof.
  intros Hnav Hmode n. split.
  - destruct (next_sequential w k Hnav Hmode) as (w' & Hstep & Hq & _ & Hnav').
    exists w'. repeat split; try done. by destruct Hnav' as (_ & _ & _ & _ & Hk).
  - destruct (press_next_sequential n w k Hnav Hmode) as (w' & Hrun & Hq & _ & Hnav').
    exists w'. repeat split; try done. destruct Hnav' as (_ & _ & _ & _ & Hk).
    rewrite Hk. f_equal. fold n.
    replace (k + n) with (k + 1 * n) by lia.
    rewrite Nat.Div0.mod_add. apply Nat.mod_small. by apply navigable_lt.
Qed.

Lemma trio_navigable : navigable trio_world 1.
Proof.
  split; [by eexists |]. split; [| split; [| split; [| reflexivity]]].
  - split.
    + repeat constructor.
    + intros r [= <-]. cbn. lia.
  - unfold unique_ids. cbn.
    repeat (apply NoDup_cons_2;
            [rewrite ?elem_of_cons, elem_of_nil; intuition discriminate |]).
    apply NoDup_nil_2.
  - cbn. lia.
Qed.

Lemma sequential_next_wraps_witness :
  (∃ w', playNext (st trio_world) true trio_world = Ok w' ∧
         queue (st w') = [0; 1; 2] ∧ index_of_current w' = 2%Z) ∧
  (∃ w', press_next 3 trio_world = Ok w' ∧
         queue (st w') = [0; 1; 2] ∧ index_of_current w' = 1%Z).
Proof.
  exact (sequential_next_wraps trio_world 1 trio_navigable ltac:(discriminate)).
Defined.

(** The scenario of the specification: from T2, [next] yields T3, then T1. *)
Example next_T2_T3_T1 :
  ∃ w1 w2, playNext (st trio_world) true trio_world = Ok w1 ∧
           Song.id ∘ deref w1 <$> currentSong (st w1) = Some (IdNum 3) ∧
           playNext (st w1) true w1 = Ok w2 ∧
           Song.id ∘ deref w2 <$> currentSong (st w2) = Some (IdNum 1).
Proof. do 2 eexists. repeat split; vm_compute; reflexivity. Qed.

(** ** Shuffle *)

Lemma random_index_range (n : nat) (r : Q) :
  0 < n → unit_draw r → (0 ≤ random_index n r < Z.of_nat n)%Z.
Proof.
  intros Hn [H0 H1]. unfold random_index.
  set (m := inject_Z (Z.of_nat n)).
  assert (Hm : (0 < m)%Q) by (unfold m; rewrite <- (Zlt_Qlt 0); lia).
  split.
  - rewrite <- (Qfloor_Z 0). apply Qfloor_resp_le.
    apply Qmult_le_0_compat; [done | by apply Qlt_le_weak].
  - rewrite Zlt_Qlt. apply Qle_lt_trans with (r * m)%Q; [apply Qfloor_le |].
    fold m. rewrite <- (Qmult_1_l m) at 2. by apply Qmult_lt_compat_r.
Qed.

Lemma random_index_grid (n j : nat) : 0 < n → random_index n (grid n j) = Z.of_nat j.
Proof.
  intros Hn. unfold random_index, grid.
  transitivity (Qfloor (inject_Z (Z.of_nat j))); [| apply Qfloor_Z].
  apply Qfloor_comp. unfold Qeq, Qmult, inject_Z. cbn [Qnum Qden].
  rewrite Pos.mul_1_r, <- (positive_nat_Z (Pos.of_nat n)), Nat2Pos.id by lia. lia.
Qed.

(** What the loop returns: the first draw that does not land on the current
    index, the draws before it having collided. *)
Lemma shuffle_draw_first (len : nat) (cur : Z) (skipped : list Q) (r : Q) (rest : list Q) :
  1 < len →
  Forall (fun x => random_index len x = cur) skipped →
  random_index len r ≠ cur →
  shuffle_draw len cur (skipped ++ r :: rest) = Ok (random_index len r, rest).
Proof.
  intros Hlen Hsk Hr. induction Hsk as [|x skipped Hx _ IH]; cbn [app shuffle_draw].
  - by rewrite (bool_decide_eq_false_2 (_ = cur)), andb_false_r.
  - by rewrite bool_decide_eq_true_2, bool_decide_eq_true_2.
Qed.

Lemma shuffle_draw_inv (len : nat) (cur : Z) (tape : list Q) (i : Z) (rest : list Q) :
  shuffle_draw len cur tape = Ok (i, rest) →
  ∃ skipped r, tape = skipped ++ r :: rest ∧ i = random_index len r ∧
               (1 < len → i ≠ cur) ∧
               Forall (fun x => random_index len x = cur) skipped.
Proof.
  induction tape as [|x tape IH]; [done |]. cbn [shuffle_draw].
  destruct (bool_decide (1 < len)) eqn:Hlen; cbn [andb].
  - destruct (bool_decide (random_index len x = cur)) eqn:Hx.
    + intros H. destruct (IH H) as (skipped & r & -> & -> & Hne & Hsk).
      exists (x :: skipped), r. repeat split; try done.
      constructor; [by apply bool_decide_eq_true in Hx | done].
    + intros [= <- <-]. exists [], x. repeat split; try done.
      intros _. by apply bool_decide_eq_false in Hx.
  - intros [= <- <-]. exists [], x. repeat split; try done.
    intros H. apply bool_decide_eq_false in Hlen. done.
Qed.

Lemma shuffle_draw_starves (len : nat) (cur : Z) (tape : list Q) :
  1 < len → Forall (fun x => random_index len x = cur) tape →
  shuffle_draw len cur tape = Starve.
Proof.
  intros Hlen Hall. induction Hall as [|x tape Hx _ IH]; [done |].
  cbn [shuffle_draw]. by rewrite bool_decide_eq_true_2, bool_decide_eq_true_2.
Qed.

Lemma shuffle_draw_single (cur : Z) (r : Q) (rest : list Q) :
  unit_draw r → shuffle_draw 1 cur (r :: rest) = Ok (0%Z, rest).
Proof.
  intros Hr. cbn [shuffle_draw]. rewrite (bool_decide_eq_false_2 (1 < 1)) by lia.
  cbn [andb]. pose proof (random_index_range 1 r ltac:(lia) Hr). repeat f_equal. lia.
Qed.

Lemma sum_list_with_bind {A B} (f : B → nat) (g : A → list B) (l : list A) :
  sum_list_with f (l ≫= g) = sum_list_with (fun x => sum_list_with f (g x)) l.
Proof.
  induction l as [|x l IH]; [done |].
  rewrite bind_cons, sum_list_with_app. cbn [sum_list_with]. by rewrite IH.
Qed.

Lemma sum_list_with_fmap {A B} (f : B → nat) (g : A → B) (l : list A) :
  sum_list_with f (g <$> l) = sum_list_with (f ∘ g) l.
Proof. induction l as [|x l IH]; [done |]. cbn. by rewrite IH. Qed.

Lemma sum_list_with_ext_in {A} (f g : A → nat) (l : list A) :
  (∀ x, x ∈ l → f x = g x) → sum_list_with f l = sum_list_with g l.
Proof.
  induction l as [|x l IH]; intros Hfg; [done |]. cbn.
  rewrite (Hfg x) by apply list_elem_of_here.
  rewrite IH; [done |]. intros y Hy. apply Hfg. by apply list_elem_of_further.
Qed.

Lemma sum_list_with_const {A} (c : nat) (l : list A) :
  sum_list_with (fun _ => c) l = length l * c.
Proof. induction l as [|x l IH]; [done |]. cbn. rewrite IH. lia. Qed.

(** A sum over distinct indices of a function that is [a] on the indices
    hit by [hit], [b] at the index [i], and 0 elsewhere. *)
Lemma sum_two_points (hit : nat → bool) (i a b : nat) (l : list nat) :
  NoDup l → hit i = false →
  sum_list_with (fun j => if hit j then a else if bool_decide (j = i) then b else 0) l
  = length (filter (fun j => hit j = true) l) * a + (if bool_decide (i ∈ l) then b else 0).
Proof.
  intros Hnd Hi. induction Hnd as [|x l Hx Hnd IH]; [done |].
  cbn [sum_list_with]. rewrite IH, filter_cons.
  destruct (hit x) eqn:Hhx.
  - rewrite decide_True by done. cbn [length].
    assert (Hxi : i ≠ x) by congruence.
    rewrite (bool_decide_ext (i ∈ x :: l) (i ∈ l)); [lia |].
    rewrite elem_of_cons. split; [by intros [? | ?] | by right].
  - rewrite decide_False by congruence.
    destruct (decide (x = i)) as [-> | Hne].
    + rewrite bool_decide_eq_true_2 by done.
      rewrite (bool_decide_eq_false_2 (i ∈ l)) by done.
      rewrite (bool_decide_eq_true_2 (i ∈ i :: l)) by apply list_elem_of_here. lia.
    + rewrite bool_decide_eq_false_2 by done.
      rewrite (bool_decide_ext (i ∈ x :: l) (i ∈ l)); [lia |].
      rewrite elem_of_cons. split; [intros [? | ?]; [by subst | done] | by right].
Qed.

Lemma length_bind {A B} (g : A → list B) (l : list A) :
  length (l ≫= g) = sum_list_with (fun x => length (g x)) l.
Proof.
  induction l as [|x l IH]; [done |].
  rewrite bind_cons, length_app. cbn [sum_list_with]. by rewrite IH.
Qed.

Lemma all_draws_length (n L : nat) : length (all_draws n L) = n ^ L.
Proof.
  induction L as [|L IH]; [done |]. cbn [all_draws Nat.pow].
  rewrite length_bind.
  rewrite (sum_list_with_ext_in _ (fun _ => n ^ L)).
  - by rewrite sum_list_with_const, length_seq.
  - intros j _. by rewrite length_fmap.
Qed.

(** One draw of the loop, on the grid. *)
Lemma lands_cons (n : nat) (k i : Z) (j : nat) (js : list nat) :
  1 < n →
  lands n k i (j :: js) =
    if bool_decide (Z.of_nat j = k) then lands n k i js else bool_decide (Z.of_nat j = i).
Proof.
  intros Hn. unfold lands. rewrite fmap_cons. cbn [shuffle_draw].
  rewrite random_index_grid by lia. rewrite bool_decide_eq_true_2 by done.
  cbn [andb]. by destruct (bool_decide (Z.of_nat j = k)).
Qed.

Lemma picks_step (n : nat) (k : Z) (i L : nat) :
  1 < n → i < n → Z.of_nat i ≠ k →
  picks n k (Z.of_nat i) (S L) =
    length (filter (fun j => bool_decide (Z.of_nat j = k) = true) (seq 0 n))
      * picks n k (Z.of_nat i) L + n ^ L.
Proof.
  intros Hn Hi Hik. unfold picks at 1. cbn [all_draws].
  rewrite sum_list_with_bind.
  rewrite (sum_list_with_ext_in _
    (fun j => if bool_decide (Z.of_nat j = k) then picks n k (Z.of_nat i) L
              else if bool_decide (j = i) then n ^ L else 0)).
  - rewrite sum_two_points; [| apply NoDup_seq | by apply bool_decide_eq_false].
    rewrite (bool_decide_eq_true_2 (i ∈ seq 0 n)); [done |].
    apply elem_of_seq. lia.
  - intros j _. rewrite sum_list_with_fmap.
    rewrite (sum_list_with_ext_in _
      (fun js => if bool_decide (Z.of_nat j = k)
                 then (if lands n k (Z.of_nat i) js then 1 else 0)
                 else if bool_decide (j = i) then 1 else 0)).
    + destruct (bool_decide (Z.of_nat j = k)); [done |].
      destruct (bool_decide (j = i)).
      * rewrite sum_list_with_const, all_draws_length. lia.
      * by rewrite sum_list_with_const, Nat.mul_0_r.
    + intros js _. cbn [compose]. rewrite lands_cons by done.
      destruct (bool_decide (Z.of_nat j = k)); [done |].
      by rewrite (bool_decide_ext (Z.of_nat j = Z.of_nat i) (j = i)) by lia.
Qed.

(** Every remaining entry is the outcome of the same number of draw
    sequences, and of at least one. *)
Lemma picks_uniform (n : nat) (k : Z) (L i j : nat) :
  1 < n → i < n → j < n → Z.of_nat i ≠ k → Z.of_nat j ≠ k →
  picks n k (Z.of_nat i) L = picks n k (Z.of_nat j) L ∧
  0 < picks n k (Z.of_nat i) (S L).
Proof.
  intros Hn Hi Hj Hik Hjk. split.
  - induction L as [|L IH]; [done |]. rewrite !picks_step by done. by rewrite IH.
  - rewrite picks_step by done.
    assert (0 < n ^ L); [| lia]. apply Nat.neq_0_lt_0, Nat.pow_nonzero. lia.
Qed.

Lemma playNext_shuffle (w : World) (k : nat) (force : bool) :
  navigable w k → playMode (st w) = shuffle →
  playNext (st w) force w =
    '(i, tape) ← shuffle_draw (length (queue (st w))) (Z.of_nat k) (random w);
    Ok (playSong_at (st w) i (with_random tape w)).
Proof.
  intros (_ & _ & _ & Hlen & Hk) Hmode. unfold index_of_current in Hk.
  unfold playNext. destruct (currentSong (st w)) as [cur|]; [| lia].
  rewrite bool_decide_eq_false_2 by lia. rewrite Hmode, Hk.
  rewrite (bool_decide_eq_false_2 (shuffle = loop)) by done.
  by rewrite andb_false_r, bool_decide_eq_true_2.
Qed.

(** A draw in [[0, 1)] that does not land on the current index lands on
    another entry of the queue. *)
Lemma draw_lands_on_entry (w : World) (k : nat) (r : Q) :
  navigable w k → unit_draw r →
  random_index (length (queue (st w))) r ≠ Z.of_nat k →
  ∃ i s, random_index (length (queue (st w))) r = Z.of_nat i ∧ i ≠ k ∧
         queue (st w) !! i = Some s.
Proof.
  intros (_ & _ & _ & Hlen & _) Hr Hne.
  assert (Hpos : 0 < length (queue (st w))) by lia.
  pose proof (random_index_range _ r Hpos Hr) as Hrange.
  set (z := random_index _ r) in *.
  assert (Hi : Z.to_nat z < length (queue (st w))) by lia.
  destruct (lookup_lt_is_Some_2 _ _ Hi) as [s Hs].
  exists (Z.to_nat z), s. repeat split; [lia | lia | done].
Qed.

(** C2.  In shuffle mode on a queue of [n > 1] tracks unique by identifier
    that holds the current track at index [k]:
    - whenever [playNext] returns, the track it made current is a copy of a
      queue entry at an index other than [k], with another identifier;
    - it returns as soon as one draw of the tape does not land on [k], and
      the entry chosen is the one that draw lands on; it does not return
      while every draw lands on [k];
    - every entry other than the current one is chosen by the same number of
      equally likely draw sequences of any length, and by at least one: the
      choice is uniform among the remaining entries.
    On a single-entry queue the first draw lands on index 0 and [playNext]
    hands that entry to [playSong]. *)
Theorem shuffle_next_avoids_current :
  (∀ (w : World) (k : nat) (force : bool),
     navigable w k → playMode (st w) = shuffle → Forall unit_draw (random w) →
     let n := length (queue (st w)) in
     (∀ w', playNext (st w) force w = Ok w' →
        ∃ i s, i ≠ k ∧ queue (st w) !! i = Some s ∧
               w' = playSong_start (deref w s) (with_random (random w') w) ∧
               index_of_current w' = Z.of_nat i ∧
               queue (st w') = queue (st w) ∧
               current_id w' = Some (Song.id (deref w s)) ∧
               current_id w' ≠ current_id w) ∧
     (∀ skipped r rest,
        random w = skipped ++ r :: rest →
        Forall (fun x => random_index n x = Z.of_nat k) skipped →
        random_index n r ≠ Z.of_nat k →
        ∃ w', playNext (st w) force w = Ok w' ∧
              index_of_current w' = random_index n r ∧ random w' = rest) ∧
     (Forall (fun x => random_index n x = Z.of_nat k) (random w) →
        playNext (st w) force w = Starve)) ∧
  (∀ (n k L i j : nat),
     1 < n → i < n → j < n → i ≠ k → j ≠ k →
     picks n (Z.of_nat k) (Z.of_nat i) L = picks n (Z.of_nat k) (Z.of_nat j) L ∧
     0 < picks n (Z.of_nat k) (Z.of_nat i) (S L)) ∧
  (∀ (c : Session) (w : World) (force : bool) (cur s : Ref) (r : Q) (rest : list Q),
     playMode c = shuffle → currentSong c = Some cur → queue c = [s] →
     random w = r :: rest → unit_draw r →
     playNext c force w = Ok (playSong c (deref w s) (with_random rest w))).
Proof.
  split; [| split].
  - intros w k force Hnav Hmode Hunit n.
    pose proof Hnav as (_ & _ & _ & Hlen & _). fold n in Hlen.
    rewrite (playNext_shuffle w k force Hnav Hmode). fold n.
    split; [| split].
    + intros w' Hw'.
      destruct (shuffle_draw n (Z.of_nat k) (random w)) as [[z rest] | |] eqn:Hdraw;
        [| done | done].
      cbn [mbind res_bind] in Hw'. injection Hw' as <-.
      apply shuffle_draw_inv in Hdraw as (skipped & r & Htape & -> & Hne & _).
      assert (Hr : unit_draw r).
      { rewrite Forall_forall in Hunit. apply Hunit. rewrite Htape.
        apply elem_of_app. right. apply list_elem_of_here. }
      destruct (draw_lands_on_entry w k r Hnav Hr (Hne Hlen)) as (i & s & Hi & Hik & Hs).
      fold n in Hi. rewrite Hi.
      destruct (playSong_at_other_tape w k i s rest Hnav Hs Hik)
        as (Hstart & Hq & _ & _ & _ & Hrest & Hid & Hdiff & Hnav').
      exists i, s. split; [done |]. split; [done |]. split; [by rewrite Hrest |].
      split; [by destruct Hnav' as (_ & _ & _ & _ & ?) |]. done.
    + intros skipped r rest Htape Hsk Hr.
      rewrite Htape, shuffle_draw_first by done. cbn [mbind res_bind].
      assert (Hur : unit_draw r).
      { rewrite Forall_forall in Hunit. apply Hunit. rewrite Htape.
        apply elem_of_app. right. apply list_elem_of_here. }
      destruct (draw_lands_on_entry w k r Hnav Hur Hr) as (i & s & Hi & Hik & Hs).
      fold n in Hi.
      destruct (playSong_at_other_tape w k i s rest Hnav Hs Hik)
        as (_ & _ & _ & _ & _ & Hrest & _ & _ & Hnav').
      eexists. split; [reflexivity |]. rewrite Hi. split; [| done].
      by destruct Hnav' as (_ & _ & _ & _ & ?).
    + intros Hall. by rewrite shuffle_draw_starves.
  - intros n k L i j Hn Hi Hj Hik Hjk. apply picks_uniform; lia.
  - intros c w force cur s r rest Hmode Hc Hq Htape Hr.
    unfold playNext. rewrite Hc, Hq, Hmode, Htape. cbn [length].
    rewrite bool_decide_eq_false_2 by done.
    rewrite (bool_decide_eq_false_2 (shuffle = loop)) by done.
    rewrite andb_false_r, bool_decide_eq_true_2 by done.
    rewrite shuffle_draw_single by done. cbn [mbind res_bind].
    unfold playSong_at. by rewrite Hq.
Qed.

Lemma shuffle_world_navigable : navigable shuffle_world 1.
Proof.
  split; [by eexists |]. split; [| split; [| split; [| reflexivity]]].
  - split.
    + repeat constructor.
    + intros r [= <-]. cbn. lia.
  - unfold unique_ids. cbn.
    repeat (apply NoDup_cons_2;
            [rewrite ?elem_of_cons, elem_of_nil; intuition discriminate |]).
    apply NoDup_nil_2.
  - cbn. lia.
Qed.

Lemma shuffle_next_avoids_current_witness :
  (∃ w', playNext (st shuffle_world) true shuffle_world = Ok w' ∧
         index_of_current w' = 2%Z ∧ random w' = []) ∧
  picks 3 1 0 2 = picks 3 1 2 2 ∧
  playNext solo_session true (with_random [(1 # 2)%Q] playing_world)
    = Ok (playSong solo_session (deref playing_world 0) (with_random [] playing_world)).
Proof.
  destruct shuffle_next_avoids_current as (Hmany & Huniform & Hsolo).
  split; [| split].
  - assert (Hunit : Forall unit_draw (random shuffle_world)).
    { repeat constructor; by vm_compute. }
    destruct (Hmany shuffle_world 1 true shuffle_world_navigable eq_refl Hunit)
      as (_ & Hfirst & _).
    apply (Hfirst [(1 # 2)%Q] (9 # 10)%Q []); [done | | by vm_compute].
    repeat constructor.
  - apply (Huniform 3 1 2 0 2); lia.
  - assert (Hr : unit_draw (1 # 2)) by (split; by vm_compute).
    exact (Hsolo solo_session (with_random [(1 # 2)%Q] playing_world) true 0 0
             (1 # 2)%Q [] eq_refl eq_refl eq_refl eq_refl Hr).
Defined.

(** ** Late arrivals *)

(** What the arrival of a URL never does: change which track is current,
    or the queue. *)
Lemma url_arrival_keeps_current (song : Song.t) (fullSong : Ref) (r : Settlement) (w : World) :
  currentSong (st (playSong_resume song fullSong r w)) = currentSong (st w) ∧
  queue (st (playSong_resume song fullSong r w)) = queue (st w) ∧
  queue_id (st (playSong_resume song fullSong r w)) = queue_id (st w).
Proof.
  destruct w as [[cs ip il ct du vo q qi pm] rd m h au cl ls p nt t href].
  unfold playSong_resume.
  destruct r as [[u|] | | |]; destruct (negb (truthy (Song.pic song)));
    try destruct (truthy (Some u)); destruct au; by crunch.
Qed.

(** C1, at the failing input.  The late URL of A leaves B the current
    track, but it is not discarded: it is written into A's queue entry,
    loaded into the device in place of B's source and played, and the play
    flag is raised, while the session shows B. *)
Theorem stale_url_is_loaded :
  ∃ w, run superseded_events idle_world = Ok w ∧
       current_id w = Some (Song.id track_B) ∧
       Audio.src <$> audioRef w = Some "https://cdn.example/a.mp3" ∧
       calls w = [CPlay; CLoad; CSetSrc "https://cdn.example/a.mp3";
                  CPlay; CLoad; CSetSrc "https://cdn.example/b.mp3"] ∧
       isPlaying (st w) = true ∧
       deref w <$> queue (st w) =
         [Song.with_url "https://cdn.example/a.mp3" track_A;
          Song.with_url "https://cdn.example/b.mp3" track_B].
Proof. eexists. split; [vm_compute; reflexivity |]. repeat split. Qed.

(** ** Metadata enrichment *)



(** ** Persistence *)

Lemma as_song_encode (s : Song.t) : as_song (encode_song s) = Some s.
Proof.
  destruct s as [i n a al p u src].
  destruct i, al, p, u; reflexivity.
Qed.

Lemma as_current_encode (h : list Song.t) (c : option Ref) :
  as_current (encode_current h c) = Some ((h !!!.) <$> c).
Proof.
  destruct c as [r|]; [| done]. cbn [encode_current fmap option_fmap option_map].
  change (as_current (encode_song (h !!! r)))
    with (Some <$> as_song (encode_song (h !!! r))).
  by rewrite as_song_encode.
Qed.

Lemma as_queue_encode (h : list Song.t) (q : list Ref) :
  as_queue (encode_queue h q) = Some ((h !!!.) <$> q).
Proof.
  unfold encode_queue, as_queue. induction q as [|r q IH]; [done |].
  rewrite !fmap_cons. cbn [mapM]. rewrite as_song_encode, IH. done.
Qed.

Lemma as_mode_encode (m : PlayMode) : as_mode (encode_mode m) = Some m.
Proof. by destruct m. Qed.

(** The references [hydrate] hands out name the songs read, in order. *)
Lemma lookup_total_seq_app (pre l : list Song.t) :
  ((pre ++ l) !!!.) <$> seq (length pre) (length l) = l.
Proof.
  apply list_eq. intros i. rewrite list_lookup_fmap.
  destruct (decide (i < length l)) as [Hi | Hi].
  - rewrite lookup_seq_lt by done. cbn [fmap option_fmap option_map].
    rewrite lookup_total_app_r by lia.
    replace (length pre + i - length pre) with i by lia.
    destruct (lookup_lt_is_Some_2 l i Hi) as [x Hx].
    rewrite Hx. f_equal. by apply list_lookup_total_correct.
  - rewrite lookup_seq_ge by lia. symmetry. apply lookup_ge_None. lia.
Qed.

Lemma getLocal_total (key : string) (def : JSON) (ls : Storage) :
  ∃ v, getLocal key def ls = Ok v.
Proof.
  unfold getLocal, getItem. destruct ls as [| m]; [by eexists |].
  cbn. destruct (m !! key) as [[| raw | v] |]; by eexists.
Qed.

Lemma getLocal_unreadable (key : string) (def : JSON) (ls : Storage) :
  unreadable key ls → getLocal key def ls = Ok def.
Proof.
  unfold getLocal, getItem, unreadable. destruct ls as [| m]; [done |].
  cbn. intros [-> | [-> | [raw ->]]]; done.
Qed.

Lemma getLocal_stored (key : string) (def v : JSON) (m : gmap string Text) :
  m !! key = Some (JSON_stringify v) → getLocal key def (Items m) = Ok v.
Proof. unfold getLocal, getItem. cbn. by intros ->. Qed.

Lemma tracked_refl w : tracked w w.
Proof. by repeat split. Qed.

Lemma tracked_trans w1 w2 w3 : tracked w1 w2 → tracked w2 w3 → tracked w1 w3.
Proof.
  intros (Hr & Hm & Hl & Hh & Hle & Hq) (Hr' & Hm' & Hl' & Hh' & Hle' & Hq').
  repeat split; try congruence; [lia |].
  intros Heq. rewrite Hq', Hq; [done | lia | lia].
Qed.

Lemma playSong_start_tracked song w : tracked w (playSong_start song w).
Proof.
  destruct_world w. unfold playSong_start, alloc. cbv beta iota zeta.
  destruct (has_id _ _ _); unfold tracked; crunch; repeat split; intros; (done || lia).
Qed.

Lemma togglePlay_tracked c w : tracked w (togglePlay c w).
Proof.
  unfold togglePlay. destruct (audioRef w) eqn:Ha; [| apply tracked_refl].
  destruct (currentSong c); [| apply tracked_refl].
  destruct (negb _); [apply playSong_start_tracked |].
  destruct_world w. cbn in Ha. subst. tracked_by_cases.
Qed.

Lemma playSong_tracked c song w : tracked w (playSong c song w).
Proof.
  unfold playSong. destruct (audioRef w); [| apply tracked_refl].
  destruct (_ && _); [apply togglePlay_tracked | apply playSong_start_tracked].
Qed.

Lemma playSong_at_tracked c i w : tracked w (playSong_at c i w).
Proof.
  unfold playSong_at. destruct (queue_at _ _); [apply playSong_tracked | apply tracked_refl].
Qed.

Lemma with_random_tracked t w : tracked w (with_random t w).
Proof. by repeat split. Qed.

Lemma audio_do_tracked f c w : tracked w (audio_do f c w).
Proof. unfold audio_do. destruct (audioRef w); by repeat split. Qed.

Lemma playNext_tracked c force w w1 : playNext c force w = Ok w1 → tracked w w1.
Proof.
  unfold playNext. destruct (currentSong c); [| intros [= <-]; apply tracked_refl].
  destruct (bool_decide (length (queue c) = 0)); [intros [= <-]; apply tracked_refl |].
  destruct (negb force && _).
  { intros [= <-]. eapply tracked_trans; apply audio_do_tracked. }
  destruct (bool_decide (playMode c = shuffle)).
  - destruct (shuffle_draw _ _ _) as [[i tape] | |]; [| done | done].
    intros [= <-]. eapply tracked_trans; [apply with_random_tracked |].
    apply playSong_at_tracked.
  - intros [= <-]. apply playSong_at_tracked.
Qed.

Lemma playPrev_tracked c w w1 : playPrev c w = Ok w1 → tracked w w1.
Proof.
  unfold playPrev. destruct (currentSong c); [| intros [= <-]; apply tracked_refl].
  destruct (bool_decide (length (queue c) = 0)); [intros [= <-]; apply tracked_refl |].
  destruct (bool_decide (playMode c = shuffle)).
  - destruct (random w) as [| x tape] eqn:Ht; [done |].
    intros [= <-]. eapply tracked_trans; [apply with_random_tracked |].
    apply playSong_at_tracked.
  - intros [= <-]. apply playSong_at_tracked.
Qed.

Lemma setIsLoading_tracked b w : tracked w (setIsLoading b w).
Proof. by repeat split. Qed.

Lemma setIsPlaying_tracked b w : tracked w (setIsPlaying b w).
Proof. by repeat split. Qed.

Lemma spawn_tracked k w : tracked w (spawn k w).
Proof. by repeat split. Qed.

Lemma with_heap_tracked h w : tracked w (with_heap h w).
Proof. by repeat split. Qed.

Lemma playSong_resume_tracked song fullSong r w :
  tracked w (playSong_resume song fullSong r w).
Proof.
  unfold playSong_resume.
  destruct r as [[u|] | | |]; try apply tracked_refl; try apply setIsLoading_tracked.
  - set (w1 := if negb _ then _ else w).
    assert (H1 : tracked w w1).
    { unfold w1. destruct (negb _); [apply spawn_tracked | apply tracked_refl]. }
    eapply tracked_trans; [exact H1 |].
    destruct (truthy (Some u)); [| apply setIsLoading_tracked].
    set (w2 := with_heap _ w1).
    assert (H2 : tracked w1 w2) by apply with_heap_tracked.
    eapply tracked_trans; [exact H2 |].
    destruct (audioRef w2); [| apply setIsLoading_tracked].
    eapply tracked_trans; [| apply spawn_tracked].
    eapply tracked_trans; [| apply audio_do_tracked].
    eapply tracked_trans; [| apply audio_do_tracked].
    apply audio_do_tracked.
  - set (w1 := if negb _ then _ else w).
    assert (H1 : tracked w w1).
    { unfold w1. destruct (negb _); [apply spawn_tracked | apply tracked_refl]. }
    eapply tracked_trans; [exact H1 |]. apply setIsLoading_tracked.
Qed.

Lemma info_arrived_tracked song fullSong r w :
  tracked w (info_arrived song fullSong r w).
Proof.
  unfold info_arrived.
  destruct r as [| [info|] | |]; try apply tracked_refl.
  destruct (info_pic info) as [p|]; [| apply tracked_refl].
  destruct (truthy (Some p)); [| apply tracked_refl].
  destruct_world w. crunch. unfold tracked. crunch. repeat split; intros; (done || lia).
Qed.

Lemma resume_tracked cont r w : tracked w (resume cont r w).
Proof.
  destruct cont as [song f | song f | f]; cbn [resume].
  - apply playSong_resume_tracked.
  - apply info_arrived_tracked.
  - unfold play_settled. destruct r; try apply tracked_refl; apply setIsPlaying_tracked.
Qed.

Lemma settle_tracked k r w : tracked w (settle k r w).
Proof.
  unfold settle. destruct (pending w !! k); [| apply tracked_refl].
  eapply tracked_trans; [| apply resume_tracked]. by repeat split.
Qed.

Lemma handle_tracked (e : Event) (w w1 : World) : handle e w = Ok w1 → tracked w w1.
Proof.
  destruct e; cbn [handle].
  - intros [= <-]. apply playSong_tracked.
  - intros [= <-]. apply togglePlay_tracked.
  - intros [= <-]. unfold seek. destruct (audioRef w) eqn:Ha; [| apply tracked_refl].
    destruct_world w. cbn in Ha. subst. tracked_by_cases.
  - apply playNext_tracked.
  - apply playPrev_tracked.
  - intros [= <-]. destruct_world w. unfold addToQueue, alloc. cbv beta iota zeta.
    destruct (has_id _ _ _); unfold tracked; crunch; repeat split; intros; (done || lia).
  - intros [= <-]. destruct_world w. unfold removeFromQueue, tracked. crunch.
    repeat split; intros; (done || lia).
  - intros [= <-]. destruct_world w. unfold clearQueue, tracked. crunch.
    repeat split; intros; (done || lia).
  - intros [= <-]. by repeat split.
  - intros [= <-]. apply settle_tracked.
  - intros [= <-]. destruct_world w. unfold handleTimeUpdate, device_progress, tracked.
    destruct au; crunch; by repeat split.
  - intros [= <-]. destruct_world w. unfold handleLoadedMetadata, device_metadata, tracked.
    destruct au; crunch; by repeat split.
  - apply playNext_tracked.
  - intros [= <-]. by repeat split.
  - intros [= <-]. by repeat split.
  - intros [= <-]. by repeat split.
Qed.

Lemma keys_distinct :
  key_queue ≠ key_current ∧ key_queue ≠ key_mode ∧ key_current ≠ key_mode.
Proof. by repeat split. Qed.

(** The render that follows an event runs the effect of every state
    variable that differs from the previous render's. *)
Lemma commit_writes (w : World) (m : gmap string Text) :
  localStorage w = Items m →
  ∃ m', commit w = Ok (with_rendered (st w) (with_localStorage (Items m') w)) ∧
        (queue_id (st w) ≠ queue_id (rendered w) →
           m' !! key_queue
             = Some (JSON_stringify (encode_queue (heap w) (queue (st w))))) ∧
        (currentSong (st w) ≠ currentSong (rendered w) →
           m' !! key_current
             = Some (JSON_stringify (encode_current (heap w) (currentSong (st w))))) ∧
        (playMode (st w) ≠ playMode (rendered w) →
           m' !! key_mode = Some (JSON_stringify (encode_mode (playMode (st w))))).
Proof.
  intros Hls. destruct keys_distinct as (Hqc & Hqm & Hcm).
  unfold commit, run_effects, persist. rewrite Hls. cbn [orb].
  destruct (bool_decide (queue_id _ ≠ _)) eqn:Hq;
    destruct (bool_decide (currentSong _ ≠ _)) eqn:Hc;
    destruct (bool_decide (playMode _ ≠ _)) eqn:Hm;
    cbn [setItem mbind res_bind]; eexists; (split; [reflexivity |]);
    try apply bool_decide_eq_false in Hq; try apply bool_decide_eq_false in Hc;
    try apply bool_decide_eq_false in Hm;
    repeat split; intros; try done;
    rewrite ?lookup_insert_ne by done; by rewrite lookup_insert_eq.
Qed.

(** What a render's effects leave in storage, key by key. *)
Lemma commit_storage (w : World) (m : gmap string Text) :
  localStorage w = Items m →
  ∃ m', commit w = Ok (with_rendered (st w) (with_localStorage (Items m') w)) ∧
        m' !! key_queue =
          (if decide (queue_id (st w) = queue_id (rendered w)) then m !! key_queue
           else Some (JSON_stringify (encode_queue (heap w) (queue (st w))))) ∧
        m' !! key_current =
          (if decide (currentSong (st w) = currentSong (rendered w)) then m !! key_current
           else Some (JSON_stringify (encode_current (heap w) (currentSong (st w))))) ∧
        m' !! key_mode =
          (if decide (playMode (st w) = playMode (rendered w)) then m !! key_mode
           else Some (JSON_stringify (encode_mode (playMode (st w))))).
Proof.
  intros Hls. destruct keys_distinct as (Hqc & Hqm & Hcm).
  unfold commit, run_effects, persist. rewrite Hls. cbn [orb].
  destruct (decide (queue_id (st w) = queue_id (rendered w))) as [Hq | Hq];
    destruct (decide (currentSong (st w) = currentSong (rendered w))) as [Hc | Hc];
    destruct (decide (playMode (st w) = playMode (rendered w))) as [Hm | Hm].
  all: rewrite ?(bool_decide_eq_false_2 (queue_id _ ≠ _)) by (by intros ?);
       rewrite ?(bool_decide_eq_true_2 (queue_id _ ≠ _)) by done;
       rewrite ?(bool_decide_eq_false_2 (currentSong _ ≠ _)) by (by intros ?);
       rewrite ?(bool_decide_eq_true_2 (currentSong _ ≠ _)) by done;
       rewrite ?(bool_decide_eq_false_2 (playMode _ ≠ _)) by (by intros ?);
       rewrite ?(bool_decide_eq_true_2 (playMode _ ≠ _)) by done.
  all: cbn [setItem mbind res_bind]; eexists; (split; [reflexivity |]).
  all: repeat split; rewrite ?lookup_insert_ne by done; by rewrite ?lookup_insert_eq.
Qed.

(** C10, amended.  At startup the queue, the current track and the mode are
    what the stored snapshot holds, with playback stopped and nothing
    loaded, when each record holds a value of its declared shape.
    [getLocal] never raises; it returns the default for a record that is
    absent, empty, not JSON, or out of reach, and it returns a record that
    parses as it was parsed, whatever its shape.  After startup, when an
    event changes the queue, the current track or the mode, the render that
    follows writes the new value under its key; a record whose state
    variable is the same array, the same object or the same mode as before
    is left as it was, whatever has been written into the objects. *)
Theorem session_is_persisted :
  (∀ (m : gmap string Text) (h : list Song.t) (cur : option Ref) (q : list Ref)
     (mode : PlayMode) (href : string) (tape : list Q),
     m !! key_current = Some (JSON_stringify (encode_current h cur)) →
     m !! key_queue = Some (JSON_stringify (encode_queue h q)) →
     m !! key_mode = Some (JSON_stringify (encode_mode mode)) →
     ∃ w, startup (Items m) href tape = Ok (Some w) ∧
          deref w <$> currentSong (st w) = (h !!!.) <$> cur ∧
          deref w <$> queue (st w) = (h !!!.) <$> q ∧
          playMode (st w) = mode ∧
          isPlaying (st w) = false ∧ isLoading (st w) = false ∧
          audioRef w = Some Audio.fresh ∧ calls w = [] ∧ rendered w = st w) ∧
  (∀ (key : string) (def : JSON) (ls : Storage),
     (∃ v, getLocal key def ls = Ok v) ∧
     (unreadable key ls → getLocal key def ls = Ok def)) ∧
  (∀ (m : gmap string Text) (href : string) (tape : list Q),
     unreadable key_current (Items m) → unreadable key_queue (Items m) →
     unreadable key_mode (Items m) →
     ∃ w, startup (Items m) href tape = Ok (Some w) ∧
          currentSong (st w) = None ∧ queue (st w) = [] ∧
          playMode (st w) = sequence) ∧
  (∀ (e : Event) (w w' : World) (m : gmap string Text),
     rendered w = st w → localStorage w = Items m → step e w = Ok w' →
     ∃ m', localStorage w' = Items m' ∧ rendered w' = st w' ∧
           (queue (st w') ≠ queue (st w) →
              m' !! key_queue
                = Some (JSON_stringify (encode_queue (heap w') (queue (st w'))))) ∧
           (currentSong (st w') ≠ currentSong (st w) →
              m' !! key_current
                = Some (JSON_stringify (encode_current (heap w') (currentSong (st w'))))) ∧
           (playMode (st w') ≠ playMode (st w) →
              m' !! key_mode = Some (JSON_stringify (encode_mode (playMode (st w')))))) ∧
  (∀ (key : string) (def v : JSON) (m : gmap string Text),
     m !! key = Some (JSON_stringify v) → getLocal key def (Items m) = Ok v) ∧
  (∀ (e : Event) (w w' : World) (m : gmap string Text),
     rendered w = st w → localStorage w = Items m → step e w = Ok w' →
     ∃ m', localStorage w' = Items m' ∧
           (queue_id (st w') = queue_id (st w) → m' !! key_queue = m !! key_queue) ∧
           (currentSong (st w') = currentSong (st w) →
              m' !! key_current = m !! key_current) ∧
           (playMode (st w') = playMode (st w) → m' !! key_mode = m !! key_mode)).
Proof.
  split; [| split; [| split; [| split; [| split]]]].
  - intros m h cur q mode href tape Hc Hq Hm. unfold startup.
    rewrite (getLocal_stored _ _ _ _ Hc), (getLocal_stored _ _ _ _ Hq),
      (getLocal_stored _ _ _ _ Hm).
    cbn [mbind res_bind]. unfold hydrate.
    rewrite as_current_encode, as_queue_encode, as_mode_encode.
    cbn [mbind option_bind]. unfold run_effects, persist. cbn [orb setItem mbind res_bind].
    eexists. split; [reflexivity |]. unfold deref. crunch.
    repeat split; try done.
    + by destruct cur.
    + rewrite length_fmap. rewrite <- (length_fmap (h !!!.) q) at 1.
      apply lookup_total_seq_app.
  - intros key def ls. split; [apply getLocal_total | apply getLocal_unreadable].
  - intros m href tape Hc Hq Hm. unfold startup.
    rewrite (getLocal_unreadable _ _ _ Hc), (getLocal_unreadable _ _ _ Hq),
      (getLocal_unreadable _ _ _ Hm).
    cbn. eexists. by split.
  - intros e w w' m Hrest Hls Hstep. unfold step in Hstep.
    destruct (handle e w) as [w1 | |] eqn:Hh; [| done | done].
    cbn [mbind res_bind] in Hstep.
    apply handle_tracked in Hh as (Hr & _ & Hl & _ & _ & Hq).
    rewrite Hls in Hl.
    destruct (commit_writes w1 m Hl) as (m' & Hcommit & Hwq & Hwc & Hwm).
    rewrite Hcommit in Hstep. injection Hstep as <-.
    rewrite Hr, Hrest in Hwq, Hwc, Hwm.
    exists m'. crunch. repeat split; try done.
    intros Hne. apply Hwq. intros Heq. by apply Hne, Hq.
  - intros key def v m Hv. by apply getLocal_stored.
  - intros e w w' m Hrest Hls Hstep. unfold step in Hstep.
    destruct (handle e w) as [w1 | |] eqn:Hh; [| done | done].
    cbn [mbind res_bind] in Hstep.
    apply handle_tracked in Hh as (Hr & _ & Hl & _ & _ & _).
    rewrite Hls in Hl.
    destruct (commit_storage w1 m Hl) as (m' & Hcommit & Hwq & Hwc & Hwm).
    rewrite Hcommit in Hstep. injection Hstep as <-.
    rewrite Hr, Hrest in Hwq, Hwc, Hwm.
    exists m'. cbn [localStorage with_rendered with_localStorage st].
    split; [done |]. split; [| split].
    + intros Heq. rewrite Hwq. by rewrite decide_True.
    + intros Heq. rewrite Hwc. by rewrite decide_True.
    + intros Heq. rewrite Hwm. by rewrite decide_True.
Qed.

Lemma session_is_persisted_witness :
  (∃ w, startup (Items snapshot_items) "https://tunefree.app/" [] = Ok (Some w) ∧
        deref w <$> currentSong (st w) = Some (track 2 None) ∧
        deref w <$> queue (st w) = [track 1 None] ∧
        playMode (st w) = sequence) ∧
  getLocal key_queue (JArr []) damaged_storage = Ok (JArr []) ∧
  (∃ w, startup damaged_storage "https://tunefree.app/" [] = Ok (Some w) ∧
        queue (st w) = []) ∧
  (∃ w' m', step ETogglePlayMode idle_world = Ok w' ∧
            localStorage w' = Items m' ∧
            m' !! key_mode = Some (JSON_stringify (JStr "loop"))).
Proof.
  destruct session_is_persisted as (Hload & Hread & Hdefault & Hwrite & _ & _).
  assert (Hq : unreadable key_queue damaged_storage).
  { right. right. by eexists. }
  split; [| split; [| split]].
  - destruct (Hload snapshot_items [track 2 None; track 1 None] (Some 0) [1] sequence
                "https://tunefree.app/" [] eq_refl eq_refl eq_refl)
      as (w & Hw & Hc & Hqu & Hm & _).
    exists w. by repeat split.
  - exact (proj2 (Hread key_queue (JArr []) damaged_storage) Hq).
  - assert (Hc : unreadable key_current damaged_storage) by (by left).
    assert (Hm : unreadable key_mode damaged_storage) by (by left).
    destruct (Hdefault {[key_queue := TGarbage "[{id:1,"]} "https://tunefree.app/"
                [] Hc Hq Hm) as (w & Hw & _ & Hqu & _).
    by exists w.
  - destruct (step ETogglePlayMode idle_world) as [w' | |] eqn:Hstep; [| done | done].
    destruct (Hwrite ETogglePlayMode idle_world w'
                (<[key_mode := JSON_stringify (JStr "sequence")]>
                   (<[key_current := JSON_stringify JNull]>
                      (<[key_queue := JSON_stringify (JArr [])]> ∅)))
                eq_refl eq_refl Hstep)
      as (m' & Hls & _ & _ & _ & Hmode).
    exists w', m'. split; [done |]. split; [done |].
    injection Hstep as <-. by apply Hmode.
Defined.

(** ** Invariants of the state machine *)

Lemma grows_refl h : grows h h.
Proof. by split. Qed.

Lemma grows_trans h1 h2 h3 : grows h1 h2 → grows h2 h3 → grows h1 h3.
Proof.
  intros [Hl1 H1] [Hl2 H2]. split; [lia |].
  intros r Hr. rewrite H2 by lia. by apply H1.
Qed.

Lemma grows_alloc h s : grows h (h ++ [s]).
Proof.
  split; [rewrite length_app; lia |].
  intros r Hr. by rewrite lookup_total_app_l.
Qed.

Lemma grows_fill_url h f u : grows h (<[f := Song.with_url u (h !!! f)]> h).
Proof.
  split; [by rewrite length_insert |].
  intros r Hr. destruct (decide (r = f)) as [-> | Hne].
  - by rewrite list_lookup_total_insert_eq.
  - by rewrite list_lookup_total_insert_ne.
Qed.

Lemma grows_id h h' r : grows h h' → r < length h → Song.id (h' !!! r) = Song.id (h !!! r).
Proof.
  intros [_ H] Hr. pose proof (H r Hr) as E.
  apply (f_equal Song.id) in E. exact E.
Qed.

Lemma grows_ids h h' q :
  grows h h' → Forall (fun r => r < length h) q → ids h' q = ids h q.
Proof.
  intros Hg Hq. unfold ids. apply list_fmap_ext. intros i r Hr.
  apply grows_id; [done |]. by apply (Forall_lookup_1 _ q i r Hq).
Qed.

Lemma grows_refs_ok h h' c : grows h h' → refs_ok h c → refs_ok h' c.
Proof.
  intros [Hl _] [Hq Hc]. split.
  - eapply Forall_impl; [exact Hq |]. cbn. intros; lia.
  - intros r Hr. specialize (Hc r Hr). lia.
Qed.

Lemma grows_cont_ok h h' k : grows h h' → cont_ok h k → cont_ok h' k.
Proof.
  intros Hg. pose proof Hg as [Hl _].
  destruct k as [song f | song f | f]; cbn [cont_ok]; [| | lia].
  all: intros [Hf Hid]; split; [lia |]; rewrite <- Hid; by apply grows_id.
Qed.

Lemma wf_core_grows h h' cur q p rd mt :
  grows h h' → wf_core h cur q p rd mt → wf_core h' cur q p rd mt.
Proof.
  intros Hg ([Hq Hc] & Hrd & Hmt & Hu & Hp). pose proof Hg as [Hl _].
  split; [| split; [| split; [| split]]].
  - split.
    + eapply Forall_impl; [exact Hq |]. cbn. intros; lia.
    + intros r Hr. specialize (Hc r Hr). lia.
  - by apply (grows_refs_ok h).
  - by apply (grows_refs_ok h).
  - unfold unique_ids. by rewrite (grows_ids h h').
  - intros k cont Hk. apply (grows_cont_ok h); [done |]. by apply (Hp k).
Qed.

Lemma wf_core_current h cur cur' q p rd mt :
  (∀ r, cur' = Some r → r < length h) →
  wf_core h cur q p rd mt → wf_core h cur' q p rd mt.
Proof. intros Hc' ([Hq _] & Hrest). by split. Qed.

Lemma wf_core_queue h cur q q' p rd mt :
  Forall (fun r => r < length h) q' → unique_ids h q' →
  wf_core h cur q p rd mt → wf_core h cur q' p rd mt.
Proof.
  intros Hq' Hu' ([_ Hc] & Hrd & Hmt & _ & Hp).
  split; [by split |]. split; [done |]. split; [done |]. by split.
Qed.

Lemma wf_core_spawn h cur q p rd mt n k :
  cont_ok h k → wf_core h cur q p rd mt → wf_core h cur q (<[n := k]> p) rd mt.
Proof.
  intros Hk (Hs & Hrd & Hmt & Hu & Hp).
  split; [done |]. split; [done |]. split; [done |]. split; [done |].
  intros j cont. destruct (decide (n = j)) as [-> | Hne].
  - rewrite lookup_insert_eq. by intros [= <-].
  - rewrite lookup_insert_ne by done. apply Hp.
Qed.

Lemma wf_core_delete h cur q p rd mt n :
  wf_core h cur q p rd mt → wf_core h cur q (delete n p) rd mt.
Proof.
  intros (Hs & Hrd & Hmt & Hu & Hp).
  split; [done |]. split; [done |]. split; [done |]. split; [done |].
  intros j cont Hj. apply (Hp j). by apply lookup_delete_Some in Hj as [_ Hj].
Qed.

(** Appending an object whose identifier the queue does not hold. *)
Lemma unique_ids_snoc h s q :
  Forall (fun r => r < length h) q → unique_ids h q →
  has_id (h ++ [s]) (Song.id s) q = false →
  Forall (fun r => r < length (h ++ [s])) (q ++ [length h]) ∧
  unique_ids (h ++ [s]) (q ++ [length h]).
Proof.
  intros Hq Hu Hno. split.
  - apply Forall_app. split.
    + eapply Forall_impl; [exact Hq |]. cbn. intros. rewrite length_app. lia.
    + constructor; [| done]. rewrite length_app. simpl. lia.
  - apply has_id_false in Hno. unfold unique_ids in *.
    replace (ids (h ++ [s]) (q ++ [length h]))
      with (ids (h ++ [s]) q ++ [Song.id s]).
    + apply NoDup_app. split; [by rewrite ids_alloc | split].
      * intros i Hi Hi'. apply list_elem_of_singleton in Hi'. by subst.
      * apply NoDup_singleton.
    + unfold ids. rewrite fmap_app. cbn. by rewrite list_lookup_total_middle.
Qed.

Lemma keeps_refl w : keeps w w.
Proof. split; [apply grows_refl | done]. Qed.

Lemma keeps_trans w1 w2 w3 : keeps w1 w2 → keeps w2 w3 → keeps w1 w3.
Proof.
  intros [Hg1 Hw1] [Hg2 Hw2]. split; [by apply (grows_trans _ (heap w2)) | auto].
Qed.

(** An update that touches neither the heap, nor the queue, the current
    track, the continuations or the closures. *)
Lemma keeps_same w w' :
  heap w' = heap w → currentSong (st w') = currentSong (st w) →
  queue (st w') = queue (st w) → pending w' = pending w →
  rendered w' = rendered w → mounted w' = mounted w →
  keeps w w'.
Proof.
  intros Hh Hc Hq Hp Hr Hm. unfold keeps, well_formed.
  rewrite Hh, Hc, Hq, Hp, Hr, Hm. split; [apply grows_refl | done].
Qed.

Lemma audio_do_keeps f c w : keeps w (audio_do f c w).
Proof. unfold audio_do. destruct (audioRef w); by apply keeps_same. Qed.

Lemma playSong_start_keeps song w : keeps w (playSong_start song w).
Proof.
  destruct_world w. unfold playSong_start, alloc. cbv beta iota zeta.
  destruct (has_id _ _ _) eqn:Hhas; unfold keeps, well_formed; crunch.
  all: split; [apply grows_alloc |]; intros Hwf.
  all: pose proof Hwf as ([Hq _] & _ & _ & Hu & _).
  all: apply wf_core_spawn;
    [split; [rewrite length_app; simpl; lia | by rewrite list_lookup_total_middle] |].
  - apply (wf_core_current _ cs); [intros r [= <-]; rewrite length_app; simpl; lia |].
    apply (wf_core_grows h); [apply grows_alloc | done].
  - destruct (unique_ids_snoc h song q Hq Hu Hhas) as [Hq' Hu'].
    apply (wf_core_queue _ _ q); [done | done |].
    apply (wf_core_current _ cs); [intros r [= <-]; rewrite length_app; simpl; lia |].
    apply (wf_core_grows h); [apply grows_alloc | done].
Qed.

Lemma togglePlay_keeps c w : keeps w (togglePlay c w).
Proof.
  unfold togglePlay. destruct (audioRef w) eqn:Ha; [| apply keeps_refl].
  destruct (currentSong c); [| apply keeps_refl].
  destruct (negb _); [apply playSong_start_keeps |].
  destruct (isPlaying c).
  all: eapply keeps_trans; [apply audio_do_keeps | by apply keeps_same].
Qed.

Lemma playSong_keeps c song w : keeps w (playSong c song w).
Proof.
  unfold playSong. destruct (audioRef w); [| apply keeps_refl].
  destruct (_ && _); [apply togglePlay_keeps | apply playSong_start_keeps].
Qed.

Lemma playSong_at_keeps c i w : keeps w (playSong_at c i w).
Proof.
  unfold playSong_at. destruct (queue_at _ _); [apply playSong_keeps | apply keeps_refl].
Qed.

Lemma with_random_keeps t w : keeps w (with_random t w).
Proof. by apply keeps_same. Qed.

Lemma playNext_keeps c force w w1 : playNext c force w = Ok w1 → keeps w w1.
Proof.
  unfold playNext. destruct (currentSong c); [| intros [= <-]; apply keeps_refl].
  destruct (bool_decide (length (queue c) = 0)); [intros [= <-]; apply keeps_refl |].
  destruct (negb force && _).
  { intros [= <-]. eapply keeps_trans; apply audio_do_keeps. }
  destruct (bool_decide (playMode c = shuffle)).
  - destruct (shuffle_draw _ _ _) as [[i tape] | |]; [| done | done].
    intros [= <-]. eapply keeps_trans; [apply with_random_keeps |].
    apply playSong_at_keeps.
  - intros [= <-]. apply playSong_at_keeps.
Qed.

Lemma playPrev_keeps c w w1 : playPrev c w = Ok w1 → keeps w w1.
Proof.
  unfold playPrev. destruct (currentSong c); [| intros [= <-]; apply keeps_refl].
  destruct (bool_decide (length (queue c) = 0)); [intros [= <-]; apply keeps_refl |].
  destruct (bool_decide (playMode c = shuffle)).
  - destruct (random w) as [| x tape] eqn:Ht; [done |].
    intros [= <-]. eapply keeps_trans; [apply with_random_keeps |].
    apply playSong_at_keeps.
  - intros [= <-]. apply playSong_at_keeps.
Qed.

Lemma spawn_keeps k w : (well_formed w → cont_ok (heap w) k) → keeps w (spawn k w).
Proof.
  intros Hk. split; [apply grows_refl |]. intros Hwf.
  unfold well_formed, spawn. cbn. apply wf_core_spawn; [by apply Hk | done].
Qed.

Lemma fill_url_keeps f u w :
  keeps w (with_heap (<[f := Song.with_url u (deref w f)]> (heap w)) w).
Proof.
  split; [apply grows_fill_url |]. intros Hwf. unfold well_formed. cbn.
  apply (wf_core_grows (heap w)); [apply grows_fill_url | done].
Qed.

Lemma heap_audio_do f c w : heap (audio_do f c w) = heap w.
Proof. unfold audio_do. by destruct (audioRef w). Qed.

Lemma cont_ok_play h song f : cont_ok h (AwaitUrl song f) → cont_ok h (AwaitPlay f).
Proof. by intros [Hf _]. Qed.

Lemma cont_ok_info h song f : cont_ok h (AwaitUrl song f) → cont_ok h (AwaitInfo song f).
Proof. done. Qed.

Lemma playSong_resume_keeps song f r w :
  cont_ok (heap w) (AwaitUrl song f) → keeps w (playSong_resume song f r w).
Proof.
  intros Hk. unfold playSong_resume.
  destruct r as [[u|] | | |]; try apply keeps_refl; try (by apply keeps_same).
  - set (w1 := if negb _ then _ else w).
    assert (H1 : keeps w w1 ∧ heap w1 = heap w).
    { unfold w1. destruct (negb _); [| split; [apply keeps_refl | done]].
      split; [by apply spawn_keeps | done]. }
    destruct H1 as [H1 Hh1].
    eapply keeps_trans; [exact H1 |].
    destruct (truthy (Some u)); [| by apply keeps_same].
    eapply keeps_trans; [apply (fill_url_keeps f u w1) |].
    set (w2 := with_heap _ w1).
    assert (Hk2 : cont_ok (heap w2) (AwaitPlay f)).
    { apply (grows_cont_ok (heap w1)); [apply grows_fill_url |].
      rewrite Hh1. by apply (cont_ok_play _ song). }
    destruct (audioRef w2) eqn:Ha; [| by apply keeps_same].
    eapply keeps_trans; [apply audio_do_keeps |].
    eapply keeps_trans; [apply audio_do_keeps |].
    eapply keeps_trans; [apply audio_do_keeps |].
    apply spawn_keeps. intros _. by rewrite !heap_audio_do.
  - set (w1 := if negb _ then _ else w).
    assert (H1 : keeps w w1).
    { unfold w1. destruct (negb _); [by apply spawn_keeps | apply keeps_refl]. }
    eapply keeps_trans; [exact H1 |]. by apply keeps_same.
Qed.

(** Replacing the entries that carry an identifier by an object with the
    same identifier changes no identifier of the queue. *)
Lemma ids_replace h (i : SongId) (x : Song.t) (q : list Ref) :
  Song.id x = i → Forall (fun r => r < length h) q →
  ids (h ++ [x])
      ((fun s => if bool_decide (Song.id ((h ++ [x]) !!! s) = i) then length h else s) <$> q)
  = ids h q.
Proof.
  intros Hx Hq. unfold ids. rewrite <- list_fmap_compose.
  apply list_fmap_ext. intros n r Hr. cbn.
  assert (Hlt : r < length h) by (by apply (Forall_lookup_1 _ q n r Hq)).
  case_bool_decide as Hid.
  - rewrite list_lookup_total_middle by done.
    rewrite Hx, <- Hid. f_equal. by apply lookup_total_app_l.
  - f_equal. by apply lookup_total_app_l.
Qed.

Lemma info_arrived_keeps song f r w :
  cont_ok (heap w) (AwaitInfo song f) → keeps w (info_arrived song f r w).
Proof.
  intros [Hf Hid]. unfold info_arrived.
  destruct r as [| [info|] | |]; try apply keeps_refl.
  destruct (info_pic info) as [p|]; [| apply keeps_refl].
  destruct (truthy (Some p)); [| apply keeps_refl].
  destruct_world w. unfold keeps, well_formed. crunch.
  split; [apply grows_alloc |]. intros Hwf.
  pose proof Hwf as ([Hq Hc] & _ & _ & Hu & _).
  set (x := Song.with_pic p (h !!! f)).
  assert (Hx : Song.id x = Song.id song) by done.
  apply (wf_core_queue _ _ q).
  - apply Forall_fmap. eapply Forall_impl; [exact Hq |]. cbn. intros s Hs.
    rewrite length_app. simpl. case_bool_decide; lia.
  - unfold unique_ids.
    match goal with |- NoDup ?l => replace l with (ids h q) end; [done |].
    symmetry. exact (ids_replace h (Song.id song) x q Hx Hq).
  - apply (wf_core_current _ cs).
    + intros s Hs. rewrite length_app. simpl. destruct cs as [c0|]; [| done].
      specialize (Hc c0 eq_refl). case_bool_decide; injection Hs as <-; lia.
    + apply (wf_core_grows h); [apply grows_alloc | done].
Qed.

Lemma playSong_resume_grows song f r w :
  grows (heap w) (heap (playSong_resume song f r w)).
Proof.
  unfold playSong_resume.
  destruct r as [[u|] | | |]; try apply grows_refl.
  - set (w1 := if negb _ then _ else w).
    assert (Hh1 : heap w1 = heap w) by (unfold w1; by destruct (negb _)).
    destruct (truthy (Some u)); [| cbn; rewrite Hh1; apply grows_refl].
    destruct (audioRef _); cbn [spawn with_pending setIsLoading with_st heap];
      rewrite ?heap_audio_do; cbn [with_heap heap]; unfold deref;
      rewrite Hh1; apply grows_fill_url.
  - destruct (negb _); apply grows_refl.
Qed.

Lemma info_arrived_grows song f r w :
  grows (heap w) (heap (info_arrived song f r w)).
Proof.
  unfold info_arrived.
  destruct r as [| [info|] | |]; try apply grows_refl.
  destruct (info_pic info) as [p|]; [| apply grows_refl].
  destruct (truthy (Some p)); [| apply grows_refl]. cbn. apply grows_alloc.
Qed.

Lemma settle_keeps k r w : keeps w (settle k r w).
Proof.
  unfold settle. destruct (pending w !! k) as [cont|] eqn:Hk; [| apply keeps_refl].
  set (w1 := with_pending _ _ w).
  assert (H1 : well_formed w → well_formed w1).
  { intros Hwf. unfold well_formed. cbn. by apply wf_core_delete. }
  split; [| intros Hwf].
  - change (heap w) with (heap w1).
    destruct cont as [song f | song f | f]; cbn [resume].
    + apply playSong_resume_grows.
    + apply info_arrived_grows.
    + unfold play_settled. destruct r; apply grows_refl.
  - assert (Hcont : cont_ok (heap w1) cont).
    { destruct Hwf as (_ & _ & _ & _ & Hp). by apply (Hp k). }
    destruct cont as [song f | song f | f]; cbn [resume].
    + apply (playSong_resume_keeps song f r w1 Hcont). by apply H1.
    + apply (info_arrived_keeps song f r w1 Hcont). by apply H1.
    + unfold play_settled. destruct r; by apply H1.
Qed.

Lemma ids_filter_subseteq h (P : Ref → Prop) `{∀ s, Decision (P s)} (q : list Ref) i :
  i ∈ ids h (filter P q) → i ∈ ids h q.
Proof.
  unfold ids. rewrite !list_elem_of_fmap. intros (s & -> & Hs).
  exists s. split; [done |]. by apply list_elem_of_filter in Hs as [_ Hs].
Qed.

Lemma unique_ids_filter h (P : Ref → Prop) `{∀ s, Decision (P s)} (q : list Ref) :
  unique_ids h q → unique_ids h (filter P q).
Proof.
  unfold unique_ids. induction q as [|s q IH]; [done |].
  unfold ids in *. rewrite fmap_cons. intros Hnd.
  apply NoDup_cons in Hnd as [Hni Hnd]. rewrite filter_cons.
  destruct (decide (P s)); [| by apply IH].
  rewrite fmap_cons. apply NoDup_cons. split; [| by apply IH].
  intros Hin. apply Hni. by apply (ids_filter_subseteq h P).
Qed.

Lemma addToQueue_keeps song w :
  keeps w (let '(r, w1) := alloc song w in addToQueue r w1).
Proof.
  destruct_world w. unfold addToQueue, alloc, deref. cbn [heap with_heap st queue].
  rewrite list_lookup_total_middle by done.
  destruct (has_id _ _ _) eqn:Hhas; unfold keeps, well_formed; crunch.
  all: split; [apply grows_alloc |]; intros Hwf.
  - apply (wf_core_grows h); [apply grows_alloc | done].
  - pose proof Hwf as ([Hq _] & _ & _ & Hu & _).
    destruct (unique_ids_snoc h song q Hq Hu Hhas) as [Hq' Hu'].
    apply (wf_core_queue _ _ q); [done | done |].
    apply (wf_core_grows h); [apply grows_alloc | done].
Qed.

Lemma removeFromQueue_keeps songId w : keeps w (removeFromQueue songId w).
Proof.
  split; [apply grows_refl |]. intros Hwf. unfold well_formed, removeFromQueue. cbn.
  pose proof Hwf as ([Hq _] & _ & _ & Hu & _).
  apply (wf_core_queue _ _ (queue (st w))); [| | done].
  - rewrite Forall_forall in Hq. apply Forall_forall. intros s Hs.
    apply Hq. by apply list_elem_of_filter in Hs as [_ Hs].
  - by apply unique_ids_filter.
Qed.

Lemma clearQueue_keeps w : keeps w (clearQueue w).
Proof.
  split; [apply grows_refl |]. intros Hwf. unfold well_formed, clearQueue. cbn.
  apply (wf_core_queue _ _ (queue (st w))); [done | apply NoDup_nil_2 | done].
Qed.

Lemma handle_keeps (e : Event) (w w1 : World) : handle e w = Ok w1 → keeps w w1.
Proof.
  destruct e; cbn [handle].
  - intros [= <-]. apply playSong_keeps.
  - intros [= <-]. apply togglePlay_keeps.
  - intros [= <-]. unfold seek. destruct (audioRef w) eqn:Ha; [| apply keeps_refl].
    eapply keeps_trans; [apply audio_do_keeps | by apply keeps_same].
  - apply playNext_keeps.
  - apply playPrev_keeps.
  - intros Hw. pose proof (addToQueue_keeps song w) as Hk.
    destruct (alloc song w) as [r w0]. by injection Hw as <-.
  - intros [= <-]. apply removeFromQueue_keeps.
  - intros [= <-]. apply clearQueue_keeps.
  - intros [= <-]. by apply keeps_same.
  - intros [= <-]. apply settle_keeps.
  - intros [= <-]. unfold handleTimeUpdate, device_progress.
    destruct (audioRef w) eqn:Ha; cbn; rewrite ?Ha; by apply keeps_same.
  - intros [= <-]. unfold handleLoadedMetadata, device_metadata.
    destruct (audioRef w) eqn:Ha; cbn; rewrite ?Ha; by apply keeps_same.
  - apply playNext_keeps.
  - intros [= <-]. by apply keeps_same.
  - intros [= <-]. by apply keeps_same.
  - intros [= <-]. by apply keeps_same.
Qed.

Lemma commit_keeps (w w1 : World) : commit w = Ok w1 → keeps w w1 ∧ st w1 = st w.
Proof.
  unfold commit, run_effects.
  destruct (persist key_queue _ _ _) as [l1 | |]; [| done | done]. cbn [mbind res_bind].
  destruct (persist key_current _ _ _) as [l2 | |]; [| done | done]. cbn [mbind res_bind].
  destruct (persist key_mode _ _ _) as [l3 | |]; [| done | done]. cbn [mbind res_bind].
  intros [= <-]. split; [| done]. split; [apply grows_refl |].
  unfold well_formed. cbn. intros (Hs & Hrd & Hmt & Hu & Hp).
  split; [done |]. split; [exact Hs |]. by split.
Qed.

Lemma handles_keeps (e : Event) (w w1 : World) : handles e w w1 → keeps w w1.
Proof.
  intros [c force w0 w0' _ H | c w0 w0' _ H | e0 w0 w0' _ H].
  - by apply (playNext_keeps c force).
  - by apply (playPrev_keeps c).
  - by apply (handle_keeps e0).
Qed.

Lemma handles_tracked (e : Event) (w w1 : World) : handles e w w1 → tracked w w1.
Proof.
  intros [c force w0 w0' _ H | c w0 w0' _ H | e0 w0 w0' _ H].
  - by apply (playNext_tracked c force).
  - by apply (playPrev_tracked c).
  - by apply (handle_tracked e0).
Qed.

Lemma memo_of_refl (r : Session) : memo_of r r.
Proof. by repeat split. Qed.

Lemma handle_handles (e : Event) (w w1 : World) : handle e w = Ok w1 → handles e w w1.
Proof.
  intros H. destruct (navigation e) eqn:Hn; [| by apply handles_other].
  destruct e; try done; cbn [handle] in H.
  - eapply handles_next; [apply memo_of_refl | done].
  - eapply handles_prev; [apply memo_of_refl | done].
Qed.

(** A run of [run] is one of the ways of [reaches]: that in which every
    navigation press finds the closure of the last render. *)
Lemma run_reaches (es : list Event) (w w1 : World) : run es w = Ok w1 → reaches w w1.
Proof.
  revert w. induction es as [|e es IH]; intros w; cbn [run].
  - intros [= <-]. apply reaches_refl.
  - unfold step. destruct (handle e w) as [w0 | |] eqn:Hh; [| done | done].
    cbn [mbind res_bind]. destruct (commit w0) as [w2 | |] eqn:Hc; [| done | done].
    cbn [mbind res_bind]. intros Hr.
    eapply reaches_step; [by apply handle_handles | done | by apply IH].
Qed.

Lemma reaches_keeps (w w1 : World) : reaches w w1 → keeps w w1.
Proof.
  induction 1 as [w | e w w1 w2 w' Hh Hc _ IH]; [apply keeps_refl |].
  apply commit_keeps in Hc as [Hc _].
  eapply keeps_trans; [by apply (handles_keeps e) |].
  eapply keeps_trans; [exact Hc | exact IH].
Qed.

Lemma idle_world_well_formed : well_formed idle_world.
Proof.
  unfold well_formed, wf_core, refs_ok, idle_world, idle_session. cbn.
  repeat split; try done; try apply Forall_nil_2; try apply NoDup_nil_2.
Qed.

(** The queue never holds two entries with one identifier, and the session
    never names an object that is not on the heap: both hold after every
    sequence of calls, promise settlements and device events. *)
Theorem queue_stays_unique (w w' : World) :
  well_formed w → reaches w w' →
  unique_ids (heap w') (queue (st w')) ∧ refs_ok (heap w') (st w') ∧ well_formed w'.
Proof.
  intros Hwf Hrun. apply reaches_keeps in Hrun as [_ Hk].
  specialize (Hk Hwf). pose proof Hk as (Hs & _ & _ & Hu & _).
  split; [exact Hu |]. split; [exact Hs | exact Hk].
Qed.

Lemma queue_stays_unique_witness :
  ∃ w, run superseded_events idle_world = Ok w ∧
       unique_ids (heap w) (queue (st w)) ∧ ids (heap w) (queue (st w)) = [IdNum 1; IdNum 2].
Proof.
  destruct (run superseded_events idle_world) as [w | |] eqn:Hrun;
    [| by vm_compute in Hrun | by vm_compute in Hrun].
  exists w. split; [done |].
  split; [exact (proj1 (queue_stays_unique _ _ idle_world_well_formed
                          (run_reaches _ _ _ Hrun))) |].
  vm_compute in Hrun. injection Hrun as <-. reflexivity.
Defined.

(** An object, once on the heap, never changes but for its URL, and the
    heap never shrinks. *)
Theorem objects_only_gain_url (w w' : World) (r : Ref) :
  reaches w w' → r < length (heap w) →
  r < length (heap w') ∧ erase_url (deref w' r) = erase_url (deref w r).
Proof.
  intros Hrun Hr. apply reaches_keeps in Hrun as [[Hl Hg] _].
  split; [lia | by apply Hg].
Qed.

Lemma objects_only_gain_url_witness :
  ∃ w, run [ESettle 0 (FulfilledUrl (Some "https://cdn.example/2.mp3"))] orphan_world
         = Ok w ∧
       Song.url (deref w 0) = Some "https://cdn.example/2.mp3" ∧
       erase_url (deref w 0) = erase_url (deref orphan_world 0).
Proof.
  destruct (run [ESettle 0 (FulfilledUrl (Some "https://cdn.example/2.mp3"))]
              orphan_world) as [w | |] eqn:Hrun;
    [| by vm_compute in Hrun | by vm_compute in Hrun].
  exists w. split; [done |].
  split; [| exact (proj2 (objects_only_gain_url _ _ 0 (run_reaches _ _ _ Hrun)
                            ltac:(cbn; lia)))].
  vm_compute in Hrun. injection Hrun as <-. reflexivity.
Defined.

(** ** The stored snapshot follows the session *)

Lemma agree_refl h refs : agree h h refs.
Proof. unfold agree. by apply Forall_true. Qed.

Lemma agree_grows h0 h h' refs :
  agree h0 h refs → grows h h' → Forall (fun r => r < length h) refs → agree h0 h' refs.
Proof.
  unfold agree. intros Ha [_ Hg] Hv. rewrite Forall_forall in *.
  intros r Hr. rewrite (Ha r Hr). symmetry. by apply Hg, Hv.
Qed.

Lemma step_synced (e : Event) (w w1 w' : World) :
  at_rest w → well_formed w → synced w → handles e w w1 → commit w1 = Ok w' →
  at_rest w' ∧ synced w'.
Proof.
  intros Hrest Hwf (m & hq & hc & Hls & Hmq & Haq & Hmc & Hac & Hmm) Hh Hstep.
  pose proof (handles_tracked e w w1 Hh) as (Hr & _ & Hl & _ & _ & Hq).
  pose proof (handles_keeps e w w1 Hh) as [Hg _].
  rewrite Hls in Hl. unfold at_rest in Hrest.
  destruct (commit_storage w1 m Hl) as (m' & Hcommit & Hwq & Hwc & Hwm).
  rewrite Hcommit in Hstep. injection Hstep as <-.
  rewrite Hr, Hrest in Hwq, Hwc, Hwm.
  destruct Hwf as ([Hvq Hvc] & _).
  split; [done |].
  exists m'.
  exists (if decide (queue_id (st w1) = queue_id (st w)) then hq else heap w1).
  exists (if decide (currentSong (st w1) = currentSong (st w)) then hc else heap w1).
  cbn [localStorage with_rendered with_localStorage st heap].
  split; [done |]. split; [| split; [| split; [| split]]].
  - rewrite Hwq.
    destruct (decide (queue_id (st w1) = queue_id (st w))) as [Heq | _]; [| done].
    by rewrite (Hq Heq).
  - destruct (decide (queue_id (st w1) = queue_id (st w))) as [Heq | _];
      [| apply agree_refl].
    rewrite (Hq Heq). by apply (agree_grows hq (heap w)).
  - rewrite Hwc.
    destruct (decide (currentSong (st w1) = currentSong (st w))) as [Heq | _]; [| done].
    by rewrite Heq.
  - destruct (decide (currentSong (st w1) = currentSong (st w))) as [Heq | _];
      [| apply agree_refl].
    rewrite Heq. apply (agree_grows hc (heap w)); [done | done |].
    destruct (currentSong (st w)) as [c0|]; [| apply Forall_nil_2].
    apply Forall_singleton. by apply Hvc.
  - rewrite Hwm.
    destruct (decide (playMode (st w1) = playMode (st w))) as [Heq | _]; [| done].
    by rewrite Heq.
Qed.

Lemma reaches_synced (w w' : World) :
  reaches w w' → at_rest w → well_formed w → synced w → at_rest w' ∧ synced w'.
Proof.
  induction 1 as [w | e w w1 w2 w' Hh Hc _ IH]; intros Hrest Hwf Hsy; [done |].
  destruct (step_synced e w w1 w2 Hrest Hwf Hsy Hh Hc) as [Hrest2 Hsy2].
  apply IH; [done | | done].
  apply commit_keeps in Hc as [[_ Hc] _]. apply Hc.
  by apply (handles_keeps e w w1 Hh).
Qed.

(** What [startup] makes of a stored snapshot. *)
Lemma startup_restores (m : gmap string Text) (hq hc : list Song.t)
    (cur : option Ref) (q : list Ref) (mode : PlayMode) (href : string) (tape : list Q) :
  m !! key_current = Some (JSON_stringify (encode_current hc cur)) →
  m !! key_queue = Some (JSON_stringify (encode_queue hq q)) →
  m !! key_mode = Some (JSON_stringify (encode_mode mode)) →
  ∃ w, startup (Items m) href tape = Ok (Some w) ∧
       deref w <$> currentSong (st w) = (hc !!!.) <$> cur ∧
       deref w <$> queue (st w) = (hq !!!.) <$> q ∧
       playMode (st w) = mode ∧ isPlaying (st w) = false ∧
       audioRef w = Some Audio.fresh.
Proof.
  intros Hc Hq Hm. unfold startup.
  rewrite (getLocal_stored _ _ _ _ Hc), (getLocal_stored _ _ _ _ Hq),
    (getLocal_stored _ _ _ _ Hm).
  cbn [mbind res_bind]. unfold hydrate.
  rewrite as_current_encode, as_queue_encode, as_mode_encode.
  cbn [mbind option_bind]. unfold run_effects, persist. cbn [orb setItem mbind res_bind].
  eexists. split; [reflexivity |]. unfold deref. crunch.
  repeat split; try done.
  - by destruct cur.
  - rewrite length_fmap. rewrite <- (length_fmap (hq !!!.) q) at 1.
    apply lookup_total_seq_app.
Qed.

Lemma agree_fmap h1 h2 refs :
  agree h1 h2 refs → erase_url <$> ((h1 !!!.) <$> refs) = erase_url <$> ((h2 !!!.) <$> refs).
Proof.
  unfold agree. intros Ha. rewrite <- !list_fmap_compose.
  apply list_fmap_ext. intros i r Hr. cbn. by apply (Forall_lookup_1 _ refs i r Ha).
Qed.

(** Reloading the page after any sequence of events of a writable, synced
    player restores the session: the same queue, the same current track
    and the same mode, URLs apart, with playback stopped and nothing loaded
    on the device. *)
Theorem reload_restores_session (w0 w : World) (href : string) (tape : list Q) :
  at_rest w0 → well_formed w0 → synced w0 → reaches w0 w →
  ∃ wr, startup (localStorage w) href tape = Ok (Some wr) ∧
        erase_url <$> (deref wr <$> queue (st wr))
          = erase_url <$> (deref w <$> queue (st w)) ∧
        erase_url <$> (deref wr <$> currentSong (st wr))
          = erase_url <$> (deref w <$> currentSong (st w)) ∧
        playMode (st wr) = playMode (st w) ∧
        isPlaying (st wr) = false ∧ audioRef wr = Some Audio.fresh.
Proof.
  intros Hrest Hwf Hsy Hrun.
  destruct (reaches_synced w0 w Hrun Hrest Hwf Hsy)
    as (_ & m & hq & hc & Hls & Hmq & Haq & Hmc & Hac & Hmm).
  destruct (startup_restores m hq hc _ _ _ href tape Hmc Hmq Hmm)
    as (wr & Hstart & Hc & Hq & Hmode & Hplay & Haudio).
  exists wr. rewrite Hls. split; [done |].
  rewrite Hc, Hq. split; [| split; [| done]].
  - by apply agree_fmap.
  - unfold agree in Hac. destruct (currentSong (st w)) as [c0|]; [| done].
    change (option_list (Some c0)) with [c0] in Hac.
    rewrite Forall_singleton in Hac.
    cbn [fmap option_fmap option_map]. f_equal. exact Hac.
Qed.

Lemma idle_world_synced : synced idle_world.
Proof.
  exists (<[key_mode := JSON_stringify (JStr "sequence")]>
            (<[key_current := JSON_stringify JNull]>
               (<[key_queue := JSON_stringify (JArr [])]> ∅))), [], [].
  repeat split; try done; apply Forall_nil_2.
Qed.

Lemma reload_restores_session_witness :
  ∃ wr, startup (localStorage orphan_world) "https://tunefree.app/" [] = Ok (Some wr) ∧
        erase_url <$> (deref wr <$> queue (st wr)) = [track 1 None] ∧
        erase_url <$> (deref wr <$> currentSong (st wr)) = Some (track 2 None) ∧
        playMode (st wr) = sequence.
Proof.
  destruct (reload_restores_session idle_world orphan_world
              "https://tunefree.app/" [] eq_refl idle_world_well_formed
              idle_world_synced (run_reaches _ _ _ orphan_world_reached))
    as (wr & Hstart & Hq & Hc & Hm & _).
  exists wr. by repeat split.
Defined.

(** ** The listener of the device's [ended] event *)

Lemma commit_mounted (w w1 : World) : commit w = Ok w1 → mounted w1 = mounted w.
Proof.
  unfold commit, run_effects.
  destruct (persist key_queue _ _ _) as [l1 | |]; [| done | done]. cbn [mbind res_bind].
  destruct (persist key_current _ _ _) as [l2 | |]; [| done | done]. cbn [mbind res_bind].
  destruct (persist key_mode _ _ _) as [l3 | |]; [| done | done]. cbn [mbind res_bind].
  by intros [= <-].
Qed.

Lemma reaches_mounted (w w1 : World) : reaches w w1 → mounted w1 = mounted w.
Proof.
  induction 1 as [w | e w w1 w2 w' Hh Hc _ IH]; [done |].
  rewrite IH, (commit_mounted w1 w2 Hc).
  by apply handles_tracked in Hh as (_ & Hm & _).
Qed.

(** The [ended] listener is registered once and calls the [playNext] of the
    first render.  On a player whose first render saw an empty queue or no
    current track, a track end does nothing at all, whatever has been
    queued and played since and whatever the mode is now. *)
Theorem ended_does_nothing_after_empty_start (w0 w : World) :
  queue (mounted w0) = [] ∨ currentSong (mounted w0) = None →
  reaches w0 w → handleEnded w = Ok w.
Proof.
  intros Hempty Hrun. unfold handleEnded, playNext.
  rewrite (reaches_mounted w0 w Hrun).
  destruct Hempty as [Hq | Hc]; [rewrite Hq | by rewrite Hc].
  by destruct (currentSong (mounted w0)).
Qed.

Lemma ended_does_nothing_after_empty_start_witness :
  ∃ w, run [EPlaySong (track 1 None); EAddToQueue (track 2 None); ETogglePlayMode]
         idle_world = Ok w ∧
       length (queue (st w)) = 2 ∧ playMode (st w) = loop ∧ handleEnded w = Ok w.
Proof.
  destruct (run [EPlaySong (track 1 None); EAddToQueue (track 2 None); ETogglePlayMode]
              idle_world) as [w | |] eqn:Hrun;
    [| by vm_compute in Hrun | by vm_compute in Hrun].
  exists w. split; [done |].
  pose proof (ended_does_nothing_after_empty_start idle_world w (or_introl eq_refl)
                (run_reaches _ _ _ Hrun)) as Hend.
  vm_compute in Hrun. injection Hrun as <-. by repeat split.
Defined.

(** ** Device status events *)

(** Progress, metadata, error, waiting and can-play events only move the
    elapsed time, the duration and the two flags: they never change the
    current track, the queue, the mode, the heap or the promises in flight,
    and they never call the device. *)
Theorem status_events_keep_the_session (e : Event) (w : World) :
  status_event e = true →
  ∃ w', handle e w = Ok w' ∧
        currentSong (st w') = currentSong (st w) ∧
        queue (st w') = queue (st w) ∧ queue_id (st w') = queue_id (st w) ∧
        playMode (st w') = playMode (st w) ∧ volume (st w') = volume (st w) ∧
        heap w' = heap w ∧ pending w' = pending w ∧ calls w' = calls w ∧
        (e = EError → isPlaying (st w') = false ∧ isLoading (st w') = false) ∧
        (e = EWaiting → isLoading (st w') = true ∧ isPlaying (st w') = isPlaying (st w)) ∧
        (e = ECanPlay → isLoading (st w') = false ∧ isPlaying (st w') = isPlaying (st w)).
Proof.
  destruct_world w. destruct e; try done; intros _; cbn [handle];
    eexists; (split; [reflexivity |]).
  - unfold handleTimeUpdate, device_progress. destruct au; crunch; by repeat split.
  - unfold handleLoadedMetadata, device_metadata. destruct au; crunch; by repeat split.
  - by repeat split.
  - by repeat split.
  - by repeat split.
Qed.

Lemma status_events_keep_the_session_witness :
  ∃ w', handle EError playing_world = Ok w' ∧
        currentSong (st w') = Some 0 ∧ queue (st w') = [0] ∧
        isPlaying (st w') = false ∧ calls w' = calls playing_world.
Proof.
  destruct (status_events_keep_the_session EError playing_world eq_refl)
    as (w' & Hh & Hc & Hq & _ & _ & _ & _ & _ & Hcalls & Herr & _).
  exists w'. destruct (Herr eq_refl) as [Hp _]. by repeat split.
Defined.

(** ** Mode, removal, clearing *)

(** [togglePlayMode] walks the cycle sequence, loop, shuffle: it always
    changes the mode, touches nothing else, and three calls bring the world
    back. *)
Theorem togglePlayMode_cycles (w : World) :
  togglePlayMode (togglePlayMode (togglePlayMode w)) = w ∧
  playMode (st (togglePlayMode w)) ≠ playMode (st w) ∧
  playMode (st (togglePlayMode (togglePlayMode w))) ≠ playMode (st w) ∧
  (playMode (st w) = sequence → playMode (st (togglePlayMode w)) = loop) ∧
  (playMode (st w) = loop → playMode (st (togglePlayMode w)) = shuffle) ∧
  (playMode (st w) = shuffle → playMode (st (togglePlayMode w)) = sequence).
Proof.
  destruct_world w. unfold togglePlayMode. destruct pm; crunch; by repeat split.
Qed.

Lemma togglePlayMode_cycles_witness :
  playMode (st (togglePlayMode idle_world)) = loop ∧
  togglePlayMode (togglePlayMode (togglePlayMode idle_world)) = idle_world.
Proof.
  destruct (togglePlayMode_cycles idle_world) as (H3 & _ & _ & Hs & _).
  split; [by apply Hs | exact H3].
Defined.

(** [removeFromQueue] drops every entry with the identifier and keeps the
    others in their order; it leaves the current track, the play flag and
    the device alone, also when the track removed is the one playing. *)
Theorem removeFromQueue_keeps_playing (songId : SongId) (w : World) :
  let w' := removeFromQueue songId w in
  (songId ∉ ids (heap w') (queue (st w'))) ∧
  (∀ s, s ∈ queue (st w') ↔ s ∈ queue (st w) ∧ Song.id (deref w s) ≠ songId) ∧
  sublist (queue (st w')) (queue (st w)) ∧
  (songId ∉ ids (heap w) (queue (st w)) → queue (st w') = queue (st w)) ∧
  currentSong (st w') = currentSong (st w) ∧ isPlaying (st w') = isPlaying (st w) ∧
  audioRef w' = audioRef w ∧ calls w' = calls w ∧ heap w' = heap w.
Proof.
  unfold removeFromQueue. cbn.
  split; [| split; [| split; [| split]]]; try done.
  - unfold ids. rewrite list_elem_of_fmap. intros (s & Hs & Hin).
    apply list_elem_of_filter in Hin as [Hne _]. by apply Hne.
  - intros s. rewrite list_elem_of_filter. unfold deref. tauto.
  - apply sublist_filter.
  - intros Hni. induction (queue (st w)) as [|s q IH]; [done |].
    unfold ids in Hni. rewrite fmap_cons, not_elem_of_cons in Hni.
    destruct Hni as [Hne Hni]. rewrite filter_cons, decide_True by (by intros ?).
    f_equal. by apply IH.
Qed.

Lemma removeFromQueue_keeps_playing_witness :
  queue (st (removeFromQueue (IdNum 9) playing_world)) = queue (st playing_world) ∧
  queue (st (removeFromQueue (IdNum 1) playing_world)) = [] ∧
  currentSong (st (removeFromQueue (IdNum 1) playing_world)) = Some 0.
Proof.
  destruct (removeFromQueue_keeps_playing (IdNum 9) playing_world)
    as (_ & _ & _ & Hsame & _).
  split; [| by split]. apply Hsame. cbn.
  intros H. apply list_elem_of_singleton in H. discriminate.
Defined.

(** [clearQueue] empties the queue and nothing else; from then on, until a
    track is queued, next and previous do nothing. *)
Theorem clearQueue_stops_navigation (w : World) (force : bool) :
  let w' := clearQueue w in
  queue (st w') = [] ∧
  currentSong (st w') = currentSong (st w) ∧ isPlaying (st w') = isPlaying (st w) ∧
  audioRef w' = audioRef w ∧ calls w' = calls w ∧
  playNext (st w') force w' = Ok w' ∧ playPrev (st w') w' = Ok w'.
Proof.
  unfold clearQueue, playNext, playPrev. cbn.
  repeat split; by destruct (currentSong (st w)).
Qed.

(** ** Previous track *)

Lemma prev_sequential (w : World) (k : nat) :
  navigable w k → playMode (st w) ≠ shuffle →
  let n := length (queue (st w)) in
  ∃ w', playPrev (st w) w = Ok w' ∧
        queue (st w') = queue (st w) ∧
        playMode (st w') = playMode (st w) ∧
        navigable w' ((k + n - 1) mod n).
Proof.
  intros Hnav Hmode n.
  pose proof (navigable_lt w k Hnav) as Hlt. fold n in Hlt.
  pose proof Hnav as (_ & _ & _ & Hlen & Hk). fold n in Hlen.
  unfold index_of_current in Hk. unfold playPrev.
  destruct (currentSong (st w)) as [cur|] eqn:Hc; [| lia].
  rewrite bool_decide_eq_false_2 by (fold n; lia).
  rewrite bool_decide_eq_false_2 by done. rewrite Hk. fold n.
  assert (Hrem : Z.rem (Z.of_nat k - 1 + Z.of_nat n) (Z.of_nat n)
                 = Z.of_nat ((k + n - 1) mod n)).
  { rewrite Z.rem_mod_nonneg by lia. rewrite Nat2Z.inj_mod. f_equal. lia. }
  rewrite Hrem.
  assert (Hk' : (k + n - 1) mod n < n) by (apply Nat.mod_upper_bound; lia).
  destruct (lookup_lt_is_Some_2 (queue (st w)) _ Hk') as [s Hs].
  assert (Hne : (k + n - 1) mod n ≠ k).
  { destruct (decide (k = 0)) as [-> | Hk0].
    - rewrite Nat.mod_small by lia. lia.
    - replace (k + n - 1) with ((k - 1) + 1 * n) by lia.
      rewrite Nat.Div0.mod_add, Nat.mod_small by lia. lia. }
  destruct (playSong_at_other w k _ s Hnav Hs Hne) as (Hq & Hm & Hnav').
  eexists. split; [reflexivity |]. done.
Qed.

(** Outside shuffle mode, on a queue of [n > 1] tracks unique by identifier
    with the current track at index [k], previous plays the entry
    [(k - 1 + n) mod n], wrapping from the first entry to the last, and
    leaves the queue and the mode as they are; previous after next, and next
    after previous, come back to index [k]. *)
Theorem prev_wraps_and_undoes_next (w : World) (k : nat) :
  navigable w k → playMode (st w) ≠ shuffle →
  let n := length (queue (st w)) in
  (∃ w', playPrev (st w) w = Ok w' ∧
         queue (st w') = queue (st w) ∧ playMode (st w') = playMode (st w) ∧
         index_of_current w' = Z.of_nat ((k + n - 1) mod n) ∧
         (k = 0 → index_of_current w' = Z.of_nat (n - 1))) ∧
  (∃ w1 w2, playNext (st w) true w = Ok w1 ∧ playPrev (st w1) w1 = Ok w2 ∧
            queue (st w2) = queue (st w) ∧ index_of_current w2 = Z.of_nat k) ∧
  (∃ w1 w2, playPrev (st w) w = Ok w1 ∧ playNext (st w1) true w1 = Ok w2 ∧
            queue (st w2) = queue (st w) ∧ index_of_current w2 = Z.of_nat k).
Proof.
  intros Hnav Hmode n.
  pose proof (navigable_lt w k Hnav) as Hlt. fold n in Hlt.
  pose proof Hnav as (_ & _ & _ & Hlen & _). fold n in Hlen.
  destruct (prev_sequential w k Hnav Hmode) as (wp & Hp & Hqp & Hmp & Hnp).
  destruct (next_sequential w k Hnav Hmode) as (wn & Hn & Hqn & Hmn & Hnn).
  fold n in Hnp, Hnn.
  split; [| split].
  - exists wp. split; [done |]. split; [done |]. split; [done |].
    destruct Hnp as (_ & _ & _ & _ & Hi). split; [done |].
    intros ->. rewrite Hi. by rewrite Nat.mod_small by lia.
  - destruct (prev_sequential wn _ Hnn) as (w2 & H2 & Hq2 & _ & Hn2); [congruence |].
    exists wn, w2. split; [done |]. split; [done |]. split; [congruence |].
    destruct Hn2 as (_ & _ & _ & _ & Hi). rewrite Hi, Hqn. fold n. f_equal.
    destruct (decide (k + 1 = n)) as [Hkn | Hkn].
    + rewrite Hkn, Nat.Div0.mod_same. rewrite Nat.mod_small by lia. lia.
    + rewrite (Nat.mod_small (k + 1)) by lia.
      replace (k + 1 + n - 1) with (k + 1 * n) by lia.
      rewrite Nat.Div0.mod_add. apply Nat.mod_small. lia.
  - destruct (next_sequential wp _ Hnp) as (w2 & H2 & Hq2 & _ & Hn2); [congruence |].
    exists wp, w2. split; [done |]. split; [done |]. split; [congruence |].
    destruct Hn2 as (_ & _ & _ & _ & Hi). rewrite Hi, Hqp. fold n. f_equal.
    destruct (decide (k = 0)) as [-> | Hk0].
    + rewrite (Nat.mod_small (0 + n - 1)) by lia.
      replace (0 + n - 1 + 1) with n by lia. apply Nat.Div0.mod_same.
    + replace (k + n - 1) with ((k - 1) + 1 * n) by lia.
      rewrite Nat.Div0.mod_add, (Nat.mod_small (k - 1)) by lia.
      replace (k - 1 + 1) with k by lia. apply Nat.mod_small. lia.
Qed.

Lemma prev_wraps_and_undoes_next_witness :
  (∃ w', playPrev (st trio_world) trio_world = Ok w' ∧
         index_of_current w' = 0%Z) ∧
  (∃ w1 w2, playNext (st trio_world) true trio_world = Ok w1 ∧
            playPrev (st w1) w1 = Ok w2 ∧ index_of_current w2 = 1%Z).
Proof.
  destruct (prev_wraps_and_undoes_next trio_world 1 trio_navigable)
    as ((w' & Hp & _ & _ & Hi & _) & (w1 & w2 & Hn & Hp2 & _ & Hi2) & _);
    [done |].
  split; [by exists w' | by exists w1, w2].
Defined.

(** ** Play and pause *)

(** [togglePlay] does nothing without a device or without a current track.
    On a device that has a source it flips the play flag and issues the one
    matching call, so that a second press, handled by the next render, gives
    the session back: the device has seen a pause and a play and still holds
    the same source and position. *)
Theorem togglePlay_twice (w : World) :
  (audioRef w = None ∨ currentSong (st w) = None → togglePlay (st w) w = w) ∧
  (∀ a cur, audioRef w = Some a → currentSong (st w) = Some cur →
     has_src (location_href w) a = true →
     let w1 := togglePlay (st w) w in
     let w2 := togglePlay (st w1) w1 in
     isPlaying (st w1) = negb (isPlaying (st w)) ∧
     st w2 = st w ∧ audioRef w2 = Some a ∧ heap w2 = heap w ∧
     pending w2 = pending w ∧
     calls w2 = (if isPlaying (st w) then [CPlay; CPause] else [CPause; CPlay])
                ++ calls w).
Proof.
  destruct_world w. split.
  - unfold togglePlay. crunch. intros [-> | ->]; [done | by destruct au].
  - intros a cur Ha Hc Hs. crunch. subst au cs.
    unfold togglePlay. crunch. rewrite Hs. cbn [negb].
    destruct ip; crunch; cbv [id]; rewrite Hs; by repeat split.
Qed.

Lemma togglePlay_twice_witness :
  let w1 := togglePlay (st playing_world) playing_world in
  let w2 := togglePlay (st w1) w1 in
  isPlaying (st w1) = false ∧ st w2 = st playing_world ∧
  calls w2 = [CPlay; CPause] ++ calls playing_world.
Proof.
  destruct (togglePlay_twice playing_world) as [_ H].
  destruct (H _ 0 eq_refl eq_refl eq_refl) as (H1 & H2 & _ & _ & _ & H3).
  by repeat split.
Defined.

Lemma has_id_alloc (h : list Song.t) (x : Song.t) (i : SongId) (q : list Ref) :
  Forall (fun r => r < length h) q → has_id (h ++ [x]) i q = has_id h i q.
Proof.
  intros Hq. unfold has_id. induction Hq as [|s q Hs Hq IH]; [done |].
  cbn [existsb]. rewrite IH. f_equal. by rewrite lookup_total_app_l.
Qed.

(** With a current track but no source on the device, as after a reload,
    [togglePlay] starts the current track afresh: the session is marked
    loading, a copy of the current track becomes current, the URL is
    requested for it, the play flag and the device are not touched, and the
    queue grows by the copy only if it had lost the track. *)
Theorem togglePlay_without_source (w : World) (a : Audio.t) (cur : Ref) :
  audioRef w = Some a → currentSong (st w) = Some cur →
  has_src (location_href w) a = false →
  refs_ok (heap w) (st w) →
  let w' := togglePlay (st w) w in
  let fullSong := length (heap w) in
  isLoading (st w') = true ∧ isPlaying (st w') = isPlaying (st w) ∧
  currentSong (st w') = Some fullSong ∧
  heap w' = heap w ++ [deref w cur] ∧
  pending w' = <[next_task w := AwaitUrl (deref w cur) fullSong]> (pending w) ∧
  audioRef w' = Some a ∧ calls w' = calls w ∧
  queue (st w') =
    (if has_id (heap w) (Song.id (deref w cur)) (queue (st w)) then queue (st w)
     else queue (st w) ++ [fullSong]).
Proof.
  destruct_world w. crunch. intros -> -> Hs [Hq _]. crunch.
  unfold togglePlay. crunch. rewrite Hs. cbn [negb].
  unfold playSong_start. crunch. rewrite has_id_alloc by done.
  destruct (has_id h (Song.id (h !!! cur)) q); crunch; by repeat split.
Qed.

Lemma togglePlay_without_source_witness :
  let w' := togglePlay (st restored_world) restored_world in
  isLoading (st w') = true ∧ isPlaying (st w') = false ∧
  currentSong (st w') = Some 2 ∧ queue (st w') = [1] ∧ calls w' = [].
Proof.
  assert (Hrefs : refs_ok (heap restored_world) (st restored_world)).
  { split; [repeat constructor | intros r [= <-]; cbn; lia]. }
  destruct (togglePlay_without_source restored_world _ 0 eq_refl eq_refl eq_refl Hrefs)
    as (H1 & H2 & H3 & _ & _ & _ & H4 & H5).
  by repeat split.
Defined.

(** ** Settlement of the URL and play promises *)

(** When the URL of a requested track cannot be obtained, the loading flag
    is cleared and that is all the session sees: the track stays current
    and queued, the play flag keeps its value, the heap and the device are
    not touched.  The artwork lookup is still issued when the promise
    fulfilled and the track has no picture; a rejection issues nothing. *)
Theorem url_failure_clears_loading (k : nat) (song : Song.t) (f : Ref)
    (r : Settlement) (w : World) :
  pending w !! k = Some (AwaitUrl song f) → url_failed r →
  let w' := settle k r w in
  isLoading (st w') = false ∧ isPlaying (st w') = isPlaying (st w) ∧
  currentSong (st w') = currentSong (st w) ∧ queue (st w') = queue (st w) ∧
  heap w' = heap w ∧ audioRef w' = audioRef w ∧ calls w' = calls w ∧
  pending w' =
    (if fulfilled r && negb (truthy (Song.pic song))
     then <[next_task w := AwaitInfo song f]> (delete k (pending w))
     else delete k (pending w)).
Proof.
  destruct_world w. crunch. intros Hk Hr. unfold settle. crunch. rewrite Hk.
  cbn [resume]. unfold playSong_resume.
  destruct Hr as [-> | [-> | ->]]; [by crunch | |]; cbn [fulfilled andb truthy];
    try (rewrite bool_decide_eq_false_2 by (by intros H; apply H));
    destruct (negb (truthy (Song.pic song))); by crunch.
Qed.

Lemma url_failure_clears_loading_witness :
  let w := playSong idle_session (track 1 None) idle_world in
  let w' := settle 0 (FulfilledUrl None) w in
  isLoading (st w) = true ∧ isLoading (st w') = false ∧
  currentSong (st w') = Some 0 ∧ queue (st w') = [0] ∧ calls w' = [] ∧
  pending w' !! 1 = Some (AwaitInfo (track 1 None) 0).
Proof.
  pose proof (url_failure_clears_loading 0 (track 1 None) 0 (FulfilledUrl None)
                (playSong idle_session (track 1 None) idle_world) eq_refl
                (or_intror (or_introl eq_refl)))
    as (H1 & _ & H3 & H4 & _ & _ & H7 & H8).
  cbn zeta. rewrite H8. by repeat split.
Defined.

(** The play flag follows the promise of [audio.play()]: raised when it
    fulfils, lowered when it rejects.  Neither callback touches the loading
    flag, the current track, the queue, the heap or the device. *)
Theorem play_promise_sets_flag (k : nat) (f : Ref) (r : Settlement) (w : World) :
  pending w !! k = Some (AwaitPlay f) →
  let w' := settle k r w in
  (r = FulfilledPlay → isPlaying (st w') = true) ∧
  (r = Rejected → isPlaying (st w') = false) ∧
  isLoading (st w') = isLoading (st w) ∧
  currentSong (st w') = currentSong (st w) ∧ queue (st w') = queue (st w) ∧
  queue_id (st w') = queue_id (st w) ∧
  heap w' = heap w ∧ audioRef w' = audioRef w ∧ calls w' = calls w ∧
  pending w' = delete k (pending w).
Proof.
  destruct_world w. crunch. intros Hk. unfold settle. crunch. rewrite Hk.
  cbn [resume]. unfold play_settled. destruct r; crunch; by repeat split.
Qed.

Lemma play_promise_sets_flag_witness :
  let w := settle 0 (FulfilledUrl (Some "https://cdn.example/1.mp3"))
             (playSong idle_session (track 1 (Some "p.jpg")) idle_world) in
  isPlaying (st w) = false ∧
  isPlaying (st (settle 1 FulfilledPlay w)) = true ∧
  isPlaying (st (settle 1 Rejected w)) = false ∧
  isLoading (st (settle 1 FulfilledPlay w)) = true.
Proof.
  cbn zeta.
  pose proof (play_promise_sets_flag 1 0 FulfilledPlay
                (settle 0 (FulfilledUrl (Some "https://cdn.example/1.mp3"))
                   (playSong idle_session (track 1 (Some "p.jpg")) idle_world))
                eq_refl) as (Hf & _ & Hl & _).
  pose proof (play_promise_sets_flag 1 0 Rejected
                (settle 0 (FulfilledUrl (Some "https://cdn.example/1.mp3"))
                   (playSong idle_session (track 1 (Some "p.jpg")) idle_world))
                eq_refl) as (_ & Hr & _).
  cbn zeta in *. split; [done |]. split; [by apply Hf |]. split; [by apply Hr |].
  by rewrite Hl.
Defined.

(** ** Which objects a URL reaches *)

(** A fresh play makes one copy of the track, and the URL that arrives is
    written into that copy.  When the track was not queued, the copy is
    also the queue's new last entry, so the queue entry carries the URL.
    When the track was queued already, the queue keeps its own object,
    which the URL does not reach. *)
Theorem url_reaches_the_copy (c : Session) (song : Song.t) (u : string)
    (w : World) (a : Audio.t) :
  audioRef w = Some a →
  is_current w c (Song.id song) = false ∨ has_src (location_href w) a = false →
  refs_ok (heap w) (st w) → u ≠ EmptyString →
  let f := length (heap w) in
  let w2 := settle (next_task w) (FulfilledUrl (Some u)) (playSong c song w) in
  currentSong (st w2) = Some f ∧ deref w2 f = Song.with_url u song ∧
  (∀ s, s ∈ queue (st w) → deref w2 s = deref w s) ∧
  (Song.id song ∉ ids (heap w) (queue (st w)) → queue (st w2) = queue (st w) ++ [f]) ∧
  (Song.id song ∈ ids (heap w) (queue (st w)) → queue (st w2) = queue (st w)).
Proof.
  destruct_world w. crunch. intros -> Hfresh [Hq _] Hu. crunch.
  assert (Hplay : playSong c song
                    (mkWorld (mkSession cs ip il ct du vo q qi pm) rd mt h (Some a)
                       cl ls pd nt tp href)
                  = playSong_start song
                      (mkWorld (mkSession cs ip il ct du vo q qi pm) rd mt h (Some a)
                         cl ls pd nt tp href)).
  { unfold playSong. crunch. destruct Hfresh as [-> | ->]; [done | by rewrite andb_false_r]. }
  rewrite Hplay. clear Hplay Hfresh.
  unfold playSong_start. crunch. rewrite has_id_alloc by done.
  assert (Hin : has_id h (Song.id song) q = true ↔ Song.id song ∈ ids h q)
    by apply has_id_spec.
  assert (Hold : ∀ s x, s ∈ q → <[length h := x]> (h ++ [song]) !!! s = h !!! s).
  { intros s x Hs. rewrite Forall_forall in Hq. specialize (Hq s Hs).
    rewrite list_lookup_total_insert_ne by lia. by apply lookup_total_app_l. }
  assert (Hnew : ∀ x, <[length h := x]> (h ++ [song]) !!! length h = x).
  { intros x. apply list_lookup_total_insert_eq. rewrite length_app. simpl. lia. }
  assert (Hself : (h ++ [song]) !!! length h = song) by (by apply list_lookup_total_middle).
  destruct (has_id h (Song.id song) q) eqn:Hhas; unfold settle; crunch;
    rewrite lookup_insert_eq; cbn [resume]; unfold playSong_resume;
    cbn [truthy]; rewrite (bool_decide_eq_true_2 (u ≠ EmptyString)) by done;
    destruct (negb (truthy (Song.pic song))); crunch;
    (split; [done |]);
    (split; [etrans; [apply Hnew | f_equal; apply Hself] |]);
    (split; [intros s Hs; by apply Hold |]);
    (split; [intros Hni | intros Hi]); try done.
  - destruct Hni. by apply Hin.
  - destruct Hni. by apply Hin.
  - apply Hin in Hi. done.
  - apply Hin in Hi. done.
Qed.

Lemma url_reaches_the_copy_witness :
  let w2 := settle 0 (FulfilledUrl (Some "https://cdn.example/1.mp3"))
              (playSong restored_session (track 1 None) restored_world) in
  currentSong (st w2) = Some 2 ∧ queue (st w2) = [1] ∧
  Song.url (deref w2 2) = Some "https://cdn.example/1.mp3" ∧
  Song.url (deref w2 1) = None.
Proof.
  assert (Hrefs : refs_ok (heap restored_world) (st restored_world)).
  { split; [repeat constructor | intros r [= <-]; cbn; lia]. }
  assert (Hin : Song.id (track 1 None) ∈ ids (heap restored_world) (queue (st restored_world))).
  { cbn. apply list_elem_of_here. }
  destruct (url_reaches_the_copy restored_session (track 1 None)
              "https://cdn.example/1.mp3" restored_world _ eq_refl
              (or_intror eq_refl) Hrefs ltac:(done))
    as (Hc & Hf & Hold & _ & Hq).
  cbn zeta. split; [exact Hc |]. split; [by apply Hq |].
  split; [exact (f_equal Song.url Hf) |].
  exact (f_equal Song.url (Hold 1 (list_elem_of_here 1 []))).
Defined.

(** ** The earlier revision *)

Lemma playSong_start_issues (song : Song.t) (w : World) :
  calls (playSong_start song w) = calls w ∧
  pending (playSong_start song w) !! next_task w
    = Some (AwaitUrl song (length (heap w))).
Proof.
  destruct_world w. unfold playSong_start. crunch.
  destruct (has_id _ _ _); crunch; by rewrite lookup_insert_eq.
Qed.

(** In the earlier revision, [playSong] with the identifier of the current
    track always toggles: the play flag flips and the device gets one pause
    or play call, nothing is requested.  The revisions agree when the device
    has a source; when it has none, as between the first request of a track
    and the arrival of its URL, the later revision starts afresh where the
    earlier one calls [play()] on a device that has nothing to play. *)
Theorem legacy_playSong_always_toggles (c : Session) (song : Song.t) (w : World)
    (a : Audio.t) :
  audioRef w = Some a → is_current w c (Song.id song) = true →
  let w' := Legacy.playSong c song w in
  isPlaying (st w') = negb (isPlaying c) ∧
  calls w' = (if isPlaying c then CPause else CPlay) :: calls w ∧
  audioRef w' = Some a ∧ heap w' = heap w ∧ pending w' = pending w ∧
  isLoading (st w') = isLoading (st w) ∧
  currentSong (st w') = currentSong (st w) ∧ queue (st w') = queue (st w) ∧
  (has_src (location_href w) a = true → playSong c song w = w') ∧
  (has_src (location_href w) a = false →
     playSong c song w = playSong_start song w ∧
     calls (playSong c song w) = calls w ∧
     pending (playSong c song w) !! next_task w
       = Some (AwaitUrl song (length (heap w)))).
Proof.
  intros Ha Hcur. destruct (playSong_start_issues song w) as [Hs1 Hs2].
  unfold Legacy.playSong, playSong. rewrite Ha, Hcur. cbn [andb].
  unfold is_current in Hcur. destruct (currentSong c) as [cur|] eqn:Hc; [| done].
  unfold Legacy.togglePlay, togglePlay. rewrite Ha, Hc.
  destruct (has_src (location_href w) a) eqn:Hs; cbn [negb];
    destruct (isPlaying c); unfold audio_do; rewrite Ha; world; by repeat split.
Qed.

Lemma legacy_playSong_always_toggles_witness :
  let w := playSong idle_session (track 1 None) idle_world in
  let w' := Legacy.playSong (st w) (track 1 None) w in
  isPlaying (st w') = true ∧ calls w' = [CPlay] ∧ pending w' = pending w ∧
  length (heap (playSong (st w) (track 1 None) w)) = 2.
Proof.
  cbn zeta.
  destruct (legacy_playSong_always_toggles
              (st (playSong idle_session (track 1 None) idle_world)) (track 1 None)
              (playSong idle_session (track 1 None) idle_world) _ eq_refl eq_refl)
    as (H1 & H2 & _ & _ & H3 & _ & _ & _ & _ & H4).
  destruct (H4 eq_refl) as (H5 & _).
  split; [exact H1 |]. split; [exact H2 |]. split; [exact H3 |]. by rewrite H5.
Defined.

(** In the earlier revision the arrival of the URL raises the play flag at
    once, before the device has answered [play()]; only a rejection of that
    call takes it back, and a fulfilment changes nothing.  The later
    revision leaves the flag alone until the promise settles. *)
Theorem legacy_url_arrival_raises_flag (k : nat) (song : Song.t) (f : Ref)
    (u : string) (w : World) (a : Audio.t) :
  pending w !! k = Some (AwaitUrl song f) → audioRef w = Some a → u ≠ EmptyString →
  let w' := Legacy.settle k (FulfilledUrl (Some u)) w in
  let t := if negb (truthy (Song.pic song)) then S (next_task w) else next_task w in
  isPlaying (st w') = true ∧
  isPlaying (st (settle k (FulfilledUrl (Some u)) w)) = isPlaying (st w) ∧
  calls w' = [CPlay; CLoad; CSetSrc u] ++ calls w ∧
  calls (settle k (FulfilledUrl (Some u)) w) = calls w' ∧
  audioRef w' = Some (Audio.load (Audio.set_src u a)) ∧
  heap w' = <[f := Song.with_url u (deref w f)]> (heap w) ∧
  pending w' !! t = Some (AwaitPlay f) ∧
  isPlaying (st (Legacy.settle t Rejected w')) = false ∧
  st (Legacy.settle t FulfilledPlay w') = st w'.
Proof.
  destruct_world w. crunch. intros Hk -> Hu.
  unfold Legacy.settle, settle. crunch. rewrite Hk.
  cbn [Legacy.resume resume]. unfold Legacy.playSong_resume, playSong_resume.
  cbn [truthy]. rewrite (bool_decide_eq_true_2 (u ≠ EmptyString)) by done.
  destruct (negb (truthy (Song.pic song))); crunch; cbv [id];
    rewrite !lookup_insert_eq; cbn [Legacy.resume Legacy.play_settled]; crunch;
    by repeat split.
Qed.

Lemma legacy_url_arrival_raises_flag_witness :
  let w := Legacy.playSong idle_session track_A idle_world in
  let w' := Legacy.settle 0 (FulfilledUrl (Some "https://cdn.example/a.mp3")) w in
  isPlaying (st w) = false ∧ isPlaying (st w') = true ∧
  isPlaying (st (settle 0 (FulfilledUrl (Some "https://cdn.example/a.mp3")) w)) = false ∧
  isPlaying (st (Legacy.settle 1 Rejected w')) = false.
Proof.
  cbn zeta.
  destruct (legacy_url_arrival_raises_flag 0 track_A 0 "https://cdn.example/a.mp3"
              (Legacy.playSong idle_session track_A idle_world) _
              eq_refl eq_refl ltac:(done))
    as (H1 & H2 & _ & _ & _ & _ & _ & H3 & _).
  split; [done |]. split; [exact H1 |]. split; [by rewrite H2 | exact H3].
Defined.

(** The [loadedmetadata] listener of the earlier revision starts playback
    only if the first render was playing, which it never is: the play flag
    starts at [false].  The listener is then that of the later revision: it
    sets the duration, clears the loading flag and calls nothing. *)
Theorem legacy_metadata_never_autoplays (w : World) :
  isPlaying Legacy.initial = false ∧
  (isPlaying (mounted w) = false →
     Legacy.handleLoadedMetadata w = handleLoadedMetadata w ∧
     calls (Legacy.handleLoadedMetadata w) = calls w ∧
     pending (Legacy.handleLoadedMetadata w) = pending w ∧
     isPlaying (st (Legacy.handleLoadedMetadata w)) = isPlaying (st w)).
Proof.
  split; [done |]. destruct_world w. crunch. intros Hm.
  unfold Legacy.handleLoadedMetadata, handleLoadedMetadata. crunch.
  destruct au; crunch; [rewrite Hm |]; by repeat split.
Qed.

Lemma legacy_metadata_never_autoplays_witness :
  Legacy.handleLoadedMetadata playing_world = handleLoadedMetadata playing_world ∧
  calls (Legacy.handleLoadedMetadata playing_world) = calls playing_world.
Proof.
  destruct (legacy_metadata_never_autoplays playing_world) as [_ H].
  destruct (H eq_refl) as (H1 & H2 & _). by split.
Defined.

(** ** Navigation on a queue of one track *)

(** Outside shuffle mode, on a queue that holds the current track and
    nothing else, with a source on the device, next and previous both come
    down to [togglePlay] of the handler's closure: nothing is reloaded, and
    the play flag becomes the negation of the flag that closure holds.
    Since the handlers are memoised on the track, the queue and the mode, a
    press made while the track plays, by a closure taken before playback
    was confirmed, calls [play()] again and leaves the flag raised. *)
Theorem navigation_on_one_track_toggles (c : Session) (w : World) (a : Audio.t)
    (cur s : Ref) :
  audioRef w = Some a → has_src (location_href w) a = true →
  currentSong c = Some cur → queue c = [s] →
  Song.id (deref w s) = Song.id (deref w cur) → playMode c ≠ shuffle →
  let w' := togglePlay c w in
  playNext c true w = Ok w' ∧ playPrev c w = Ok w' ∧
  isPlaying (st w') = negb (isPlaying c) ∧
  calls w' = (if isPlaying c then CPause else CPlay) :: calls w ∧
  audioRef w' = Some a ∧ heap w' = heap w ∧ pending w' = pending w ∧
  currentSong (st w') = currentSong (st w) ∧ queue (st w') = queue (st w).
Proof.
  intros Ha Hs Hc Hq Hid Hm.
  assert (Hnext : playNext c true w = Ok (togglePlay c w)).
  { unfold playNext. rewrite Hc, Hq. cbn [negb andb].
    rewrite bool_decide_eq_false_2 by done. rewrite bool_decide_eq_false_2 by done.
    unfold current_index, findIndex. rewrite Hq. cbn [findIndex_from].
    rewrite bool_decide_eq_true_2 by done.
    change (Z.rem (0 + 1) (Z.of_nat (length [s]))) with 0%Z.
    unfold playSong_at, queue_at. rewrite Hq.
    rewrite bool_decide_eq_false_2 by lia. change ([s] !! Z.to_nat 0) with (Some s).
    unfold playSong, is_current. rewrite Ha, Hc, Hs.
    by rewrite bool_decide_eq_true_2 by done. }
  assert (Hprev : playPrev c w = Ok (togglePlay c w)).
  { unfold playPrev. rewrite Hc, Hq.
    rewrite bool_decide_eq_false_2 by done. rewrite bool_decide_eq_false_2 by done.
    unfold current_index, findIndex. rewrite Hq. cbn [findIndex_from].
    rewrite bool_decide_eq_true_2 by done.
    change (Z.rem (0 - 1 + Z.of_nat (length [s])) (Z.of_nat (length [s]))) with 0%Z.
    unfold playSong_at, queue_at. rewrite Hq.
    rewrite bool_decide_eq_false_2 by lia. change ([s] !! Z.to_nat 0) with (Some s).
    unfold playSong, is_current. rewrite Ha, Hc, Hs.
    by rewrite bool_decide_eq_true_2 by done. }
  split; [done |]. split; [done |].
  unfold togglePlay. rewrite Ha, Hc, Hs. cbn [negb].
  destruct (isPlaying c); unfold audio_do; rewrite Ha; world; by repeat split.
Qed.

Lemma navigation_on_one_track_toggles_witness :
  ∃ w', playNext (mkSession (Some 0) false true 0%Q (Some 0%Q) 1%Q [0] 1 sequence)
          true playing_world = Ok w' ∧
        isPlaying (st w') = true ∧ calls w' = CPlay :: calls playing_world.
Proof.
  destruct (navigation_on_one_track_toggles
              (mkSession (Some 0) false true 0%Q (Some 0%Q) 1%Q [0] 1 sequence)
              playing_world _ 0 0 eq_refl eq_refl eq_refl eq_refl eq_refl ltac:(done))
    as (Hn & _ & Hp & Hcalls & _).
  eexists. split; [exact Hn |]. split; [exact Hp | exact Hcalls].
Defined.

(** ** The clock of the full-screen player *)

Lemma padStart_two_digits (r : Z) :
  (0 <= r < 60)%Z → FullPlayer.padStart 2 (FullPlayer.toString r) = two_digits r.
Proof.
  intros Hr.
  assert (Hall : Forall (fun n => FullPlayer.padStart 2 (FullPlayer.toString (Z.of_nat n))
                                  = two_digits (Z.of_nat n)) (seq 0 60)).
  { vm_compute. repeat constructor. }
  rewrite Forall_forall in Hall. specialize (Hall (Z.to_nat r)).
  rewrite Z2Nat.id in Hall by lia. apply Hall. apply elem_of_seq. lia.
Qed.

Lemma Qfloor_minutes (s : Q) : Qfloor (s / 60) = (Qfloor s / 60)%Z.
Proof.
  destruct s as [n d]. cbn. rewrite Z.mul_1_r.
  rewrite Pos2Z.inj_mul. by rewrite Z.div_div by lia.
Qed.

Lemma Qfloor_seconds (s : Q) :
  (0 <= s)%Q → Qfloor (FullPlayer.js_rem s 60) = (Qfloor s mod 60)%Z.
Proof.
  destruct s as [n d]. unfold Qle. cbn. intros Hn.
  rewrite !Z.mul_1_r in *. rewrite Pos.mul_1_r.
  rewrite Z.quot_div_nonneg by lia. rewrite Pos2Z.inj_mul.
  rewrite <- Z.div_div by lia.
  set (k := (n / Z.pos d / 60)%Z).
  replace (n + - (60 * k) * Z.pos d)%Z with (n + (- (60 * k)) * Z.pos d)%Z by lia.
  rewrite Z.div_add by lia. unfold k. rewrite (Z.mod_eq (n / Z.pos d) 60) by lia. lia.
Qed.

(** [formatTime] shows a time that is not negative as minutes, a colon and
    two digits of seconds: the whole seconds elapsed are split by Euclidean
    division by sixty, fractions of a second are dropped, and minutes are
    not folded into hours.  [NaN] is shown as [0:00]. *)
Theorem formatTime_minutes_and_seconds (s : Q) :
  (0 <= s)%Q → (s < 9007199254740992)%Q →
  let whole := Qfloor s in
  FullPlayer.formatTime (Some s)
    = (FullPlayer.toString (whole / 60) ++ ":" ++ two_digits (whole mod 60))%string ∧
  (0 <= whole mod 60 < 60)%Z ∧
  (60 * (whole / 60) + whole mod 60 = whole)%Z ∧
  FullPlayer.formatTime None = "0:00".
Proof.
  intros Hs _ whole. unfold FullPlayer.formatTime.
  rewrite Qfloor_minutes, Qfloor_seconds by done. fold whole.
  assert (Hr : (0 <= whole mod 60 < 60)%Z) by (apply Z.mod_pos_bound; lia).
  rewrite padStart_two_digits by done.
  split; [done |]. split; [done |]. split; [| done].
  rewrite (Z.div_mod whole 60) at 3 by lia. lia.
Qed.

Lemma formatTime_minutes_and_seconds_witness :
  FullPlayer.formatTime (Some (1257 # 10)%Q) = "2:05" ∧
  FullPlayer.formatTime (Some 3600%Q) = "60:00".
Proof.
  split.
  - destruct (formatTime_minutes_and_seconds (1257 # 10)%Q) as (H & _); [done | done |].
    exact H.
  - destruct (formatTime_minutes_and_seconds 3600%Q) as (H & _); [done | done |].
    exact H.
Defined.

(** ** The highlighted lyric line *)

Lemma findIndex_at_none {A} (p : A → nat → bool) (l : list A) (i : nat) :
  (∀ x k, x ∈ l → p x k = false) → FullPlayer.findIndex_at p l i = (-1)%Z.
Proof.
  revert i. induction l as [|x l IH]; intros i Hp; [done |].
  cbn. rewrite Hp by apply list_elem_of_here.
  apply IH. intros y k Hy. apply Hp. by apply list_elem_of_further.
Qed.

Lemma findIndex_at_found {A} (p : A → nat → bool) (l : list A) (i : nat) (r : Z) :
  FullPlayer.findIndex_at p l i = r → r ≠ (-1)%Z →
  ∃ k x, r = Z.of_nat (i + k) ∧ l !! k = Some x ∧ p x (i + k) = true.
Proof.
  revert i. induction l as [|x l IH]; intros i; cbn; [by intros <- |].
  destruct (p x i) eqn:Hp.
  - intros <- _. exists 0, x. rewrite Nat.add_0_r. by repeat split.
  - intros Hr Hne. destruct (IH (S i) Hr Hne) as (k & y & -> & Hk & Hy).
    exists (S k), y. replace (i + S k) with (S i + k) by lia. by repeat split.
Qed.

Lemma active_from (t : Q) (suf pre : list FullPlayer.ParsedLyric)
    (x : FullPlayer.ParsedLyric) (rest : list FullPlayer.ParsedLyric) :
  by_time (pre ++ suf) → suf = x :: rest → (FullPlayer.time x <= t)%Q →
  ∃ i line,
    FullPlayer.findIndex_at (started (pre ++ suf) t) suf (length pre) = Z.of_nat i ∧
    (pre ++ suf) !! i = Some line ∧ (FullPlayer.time line <= t)%Q ∧
    ∀ j b, i < j → (pre ++ suf) !! j = Some b → (t < FullPlayer.time b)%Q.
Proof.
  revert pre x rest. induction suf as [|x0 suf IH]; intros pre x rest Hsorted Hsuf Hx;
    [done |].
  injection Hsuf as -> ->. cbn [FullPlayer.findIndex_at]. unfold started at 1.
  assert (Hle : Qle_bool (FullPlayer.time x) t = true) by (by apply Qle_bool_iff).
  rewrite Hle. cbn [andb].
  assert (Hx_at : (pre ++ x :: rest) !! length pre = Some x)
    by (by apply list_lookup_middle).
  assert (Hnext : (pre ++ x :: rest) !! (length pre + 1) = rest !! 0).
  { rewrite lookup_app_r by lia. by replace (length pre + 1 - length pre) with 1 by lia. }
  rewrite Hnext. destruct rest as [|y rest']; cbn [lookup list_lookup].
  - exists (length pre), x. split; [done |]. split; [done |]. split; [done |].
    intros j b Hj Hb. apply lookup_lt_Some in Hb. rewrite length_app in Hb.
    simpl in Hb. lia.
  - destruct (Qle_bool (FullPlayer.time y) t) eqn:Hy; cbn [negb].
    + apply Qle_bool_iff in Hy.
      assert (Heq : pre ++ x :: y :: rest' = (pre ++ [x]) ++ y :: rest')
        by (by rewrite <- app_assoc).
      rewrite Heq in Hsorted |- *.
      destruct (IH (pre ++ [x]) y rest' Hsorted eq_refl Hy) as (i & line & Hi & Hl & Ht & Hl').
      rewrite length_app in Hi. simpl in Hi.
      replace (length pre + 1) with (S (length pre)) in Hi by lia.
      exists i, line. by repeat split.
    + exists (length pre), x. split; [done |]. split; [done |]. split; [done |].
      intros j b Hj Hb.
      assert (Hy_at : (pre ++ x :: y :: rest') !! (length pre + 1) = Some y)
        by (by rewrite Hnext).
      assert (Hyb : (FullPlayer.time y <= FullPlayer.time b)%Q).
      { apply (Hsorted (length pre + 1) j); [lia | done | done]. }
      apply Qnot_le_lt. intros Hbt. apply not_true_iff_false in Hy. apply Hy.
      apply Qle_bool_iff. by apply (Qle_trans _ (FullPlayer.time b)).
Qed.

(** On lyrics in the order of their times, the line highlighted at time [t]
    is the last line that has started: it has started and no later line
    has.  Before the first line starts no line is found, and the highlight
    stays where it was. *)
Theorem highlight_is_last_started_line (lyrics : list FullPlayer.ParsedLyric)
    (first : FullPlayer.ParsedLyric) (t : Q) (active : Z) :
  by_time lyrics → head lyrics = Some first →
  ((FullPlayer.time first <= t)%Q →
     ∃ i line,
       FullPlayer.active_index lyrics t = Z.of_nat i ∧
       FullPlayer.sync_highlight lyrics t active = Z.of_nat i ∧
       lyrics !! i = Some line ∧ (FullPlayer.time line <= t)%Q ∧
       ∀ j b, i < j → lyrics !! j = Some b → (t < FullPlayer.time b)%Q) ∧
  ((t < FullPlayer.time first)%Q →
     FullPlayer.active_index lyrics t = (-1)%Z ∧
     FullPlayer.sync_highlight lyrics t active = active).
Proof.
  intros Hsorted Hfirst. destruct lyrics as [|x rest]; [done |].
  injection Hfirst as ->. split.
  - intros Ht.
    destruct (active_from t (first :: rest) [] first rest Hsorted eq_refl Ht)
      as (i & line & Hi & Hl & Hlt & Hlater).
    exists i, line. split; [exact Hi |]. split; [| by repeat split].
    unfold FullPlayer.sync_highlight. rewrite bool_decide_eq_false_2 by done.
    cbv zeta. unfold FullPlayer.active_index.
    change (FullPlayer.findIndex_at _ (first :: rest) 0)
      with (FullPlayer.findIndex_at (started ([] ++ first :: rest) t) (first :: rest)
              (length (@nil FullPlayer.ParsedLyric))).
    rewrite Hi. rewrite bool_decide_eq_true_2 by lia. cbn [andb].
    destruct (decide (Z.of_nat i = active)) as [<- | Hne].
    + by rewrite bool_decide_eq_false_2 by (by intros H; apply H).
    + by rewrite bool_decide_eq_true_2 by done.
  - intros Ht.
    assert (Hnone : FullPlayer.active_index (first :: rest) t = (-1)%Z).
    { unfold FullPlayer.active_index. apply findIndex_at_none.
      intros y k Hy. apply list_elem_of_lookup in Hy as [j Hj].
      assert (Hfy : (FullPlayer.time first <= FullPlayer.time y)%Q).
      { apply (Hsorted 0 j); [lia | done | done]. }
      apply andb_false_iff. left. apply not_true_iff_false. intros Hle.
      apply Qle_bool_iff in Hle. apply (Qlt_not_le _ _ Ht).
      by apply (Qle_trans _ (FullPlayer.time y)). }
    split; [exact Hnone |].
    unfold FullPlayer.sync_highlight. rewrite bool_decide_eq_false_2 by done.
    cbv zeta. rewrite Hnone. by rewrite bool_decide_eq_false_2 by (by intros H; apply H).
Qed.

Lemma highlight_is_last_started_line_witness :
  FullPlayer.sync_highlight
    [FullPlayer.mkLyric 1%Q [97%N]; FullPlayer.mkLyric 1%Q [98%N];
     FullPlayer.mkLyric 2%Q [99%N]] (3 # 2)%Q 0%Z = 1%Z.
Proof.
  assert (Hs : by_time [FullPlayer.mkLyric 1%Q [97%N]; FullPlayer.mkLyric 1%Q [98%N];
                        FullPlayer.mkLyric 2%Q [99%N]]).
  { intros i j a b Hij Hi Hj.
    destruct i as [|[|[|i]]]; destruct j as [|[|[|j]]]; try lia;
      cbn in Hi, Hj; simplify_eq; done. }
  destruct (highlight_is_last_started_line _ _ (3 # 2)%Q 0%Z Hs eq_refl) as [H _].
  destruct (H ltac:(done)) as (i & line & _ & Hi & _).
  rewrite Hi. vm_compute in Hi. exact (eq_sym Hi).
Defined.

(** Whatever the order of the lines, the highlight either stays where it
    was or moves to a line of the lyrics that has started. *)
Theorem highlight_stays_in_range (lyrics : list FullPlayer.ParsedLyric) (t : Q)
    (active : Z) :
  let r := FullPlayer.sync_highlight lyrics t active in
  r = active ∨
  ∃ i line, r = Z.of_nat i ∧ lyrics !! i = Some line ∧
            (FullPlayer.time line <= t)%Q ∧
            ∀ n, lyrics !! (i + 1) = Some n → (t < FullPlayer.time n)%Q.
Proof.
  unfold FullPlayer.sync_highlight.
  destruct (bool_decide (length lyrics = 0)); [by left |]. cbv zeta.
  destruct (bool_decide (FullPlayer.active_index lyrics t ≠ (-1)%Z)) eqn:Hfound;
    [| by left].
  destruct (bool_decide (FullPlayer.active_index lyrics t ≠ active)); [| by left].
  right. apply bool_decide_eq_true in Hfound.
  destruct (findIndex_at_found _ lyrics 0 _ eq_refl Hfound) as (k & x & Hr & Hk & Hp).
  exists k, x. cbn [andb]. split; [exact Hr |]. split; [exact Hk |].
  cbn [Nat.add] in Hp. apply andb_true_iff in Hp as [Hle Hnext].
  split; [by apply Qle_bool_iff |].
  intros n Hn. rewrite Hn in Hnext. apply negb_true_iff in Hnext.
  apply Qnot_le_lt. intros Hle'. apply Qle_bool_iff in Hle'. congruence.
Qed.

Lemma highlight_stays_in_range_witness :
  FullPlayer.sync_highlight
    [FullPlayer.mkLyric 1%Q [97%N]; FullPlayer.mkLyric 5%Q [98%N];
     FullPlayer.mkLyric 2%Q [99%N]] 3%Q 7%Z = 0%Z.
Proof.
  destruct (highlight_stays_in_range
              [FullPlayer.mkLyric 1%Q [97%N]; FullPlayer.mkLyric 5%Q [98%N];
               FullPlayer.mkLyric 2%Q [99%N]] 3%Q 7%Z) as [H | (i & line & H & _)];
    [by vm_compute in H | by vm_compute].
Defined.

(** ** Parsing lyrics *)

Lemma isDigit_spec (c : N) : FullPlayer.isDigit c = true ↔ (48 <= c <= 57)%N.
Proof.
  unfold FullPlayer.isDigit. rewrite andb_true_iff, !N.leb_le. tauto.
Qed.

Lemma match_here_groups (l m s f rest : list N) :
  FullPlayer.match_here l = Some (m, s, f, rest) →
  (FullPlayer.parseInt m <= 99)%N ∧ (FullPlayer.parseInt s <= 99)%N ∧
  (FullPlayer.parseInt f <= 999)%N.
Proof.
  unfold FullPlayer.match_here.
  destruct l as [|o [|m1 [|m2 [|c [|s1 [|s2 [|d [|f1 [|f2 r]]]]]]]]]; try done.
  destruct (_ && _) eqn:Hall; [| done].
  repeat (apply andb_true_iff in Hall as [Hall ?]).
  repeat match goal with
         | H : FullPlayer.isDigit _ = true |- _ => apply isDigit_spec in H
         end.
  destruct r as [|x r]; [done |].
  destruct (x =? 93)%N.
  { intros [= <- <- <- <-]. cbn. lia. }
  destruct (FullPlayer.isDigit x) eqn:Hx; [| done]. apply isDigit_spec in Hx.
  destruct r as [|y r]; [done |].
  destruct (y =? 93)%N; [| done].
  intros [= <- <- <- <-]. cbn. lia.
Qed.

Lemma exec_groups (line pre m s f suf : list N) :
  FullPlayer.exec line = Some (pre, (m, s, f), suf) →
  ∃ l, line = pre ++ l ∧ FullPlayer.match_here l = Some (m, s, f, suf).
Proof.
  revert pre. induction line as [|x line IH]; intros pre.
  - cbn. done.
  - cbn [FullPlayer.exec].
    destruct (FullPlayer.match_here (x :: line)) as [[[[m0 s0] f0] r0]|] eqn:Hm.
    + intros [= <- <- <- <- <-]. by exists (x :: line).
    + destruct (FullPlayer.exec line) as [[[pre0 g0] suf0]|]; [| done].
      intros [= <- -> <-]. destruct (IH pre0 eq_refl) as (l & -> & Hl).
      by exists l.
Qed.

Lemma trimStart_head (l : list N) (c : N) :
  head (FullPlayer.trimStart l) = Some c → FullPlayer.isSpace c = false.
Proof.
  induction l as [|x l IH]; [done |]. cbn [FullPlayer.trimStart].
  destruct (FullPlayer.isSpace x) eqn:Hx; [done |]. by intros [= <-].
Qed.

Lemma trimStart_suffix (l : list N) : ∃ k, l = k ++ FullPlayer.trimStart l.
Proof.
  induction l as [|x l [k Hk]]; [by exists [] |]. cbn [FullPlayer.trimStart].
  destruct (FullPlayer.isSpace x); [| by exists []].
  exists (x :: k). cbn. by f_equal.
Qed.

Lemma trim_ends (l : list N) (c : N) :
  head (FullPlayer.trim l) = Some c ∨ last (FullPlayer.trim l) = Some c →
  FullPlayer.isSpace c = false.
Proof.
  unfold FullPlayer.trim. rewrite head_reverse, last_reverse.
  set (a := FullPlayer.trimStart l).
  destruct (trimStart_suffix (reverse a)) as [k Hk].
  intros [Hlast | Hhead]; [| by apply (trimStart_head (reverse a))].
  apply (trimStart_head l). fold a.
  rewrite <- last_reverse, Hk, last_app, Hlast. done.
Qed.

Lemma omap_length_le {A B} (f : A → option B) (l : list A) :
  length (omap f l) ≤ length l.
Proof.
  induction l as [|x l IH]; [done |]. cbn. destruct (f x); cbn; lia.
Qed.

(** What [parseLrc] returns: nothing for the empty string, at most one
    entry per line, and in every entry a text that is not empty and
    neither starts nor ends with white space, and a time from zero to less
    than 6100 seconds, read off a line that holds a time tag. *)
Theorem parseLrc_entries (lrc : list N) :
  FullPlayer.parseLrc [] = [] ∧
  length (FullPlayer.parseLrc lrc) ≤ length (FullPlayer.split_lines lrc) ∧
  ∀ e, e ∈ FullPlayer.parseLrc lrc →
       FullPlayer.text e ≠ [] ∧
       (∀ c, head (FullPlayer.text e) = Some c → FullPlayer.isSpace c = false) ∧
       (∀ c, last (FullPlayer.text e) = Some c → FullPlayer.isSpace c = false) ∧
       (0 <= FullPlayer.time e)%Q ∧ (FullPlayer.time e < 6100)%Q ∧
       ∃ line, line ∈ FullPlayer.split_lines lrc ∧ FullPlayer.parse_line line = Some e.
Proof.
  split; [done |]. unfold FullPlayer.parseLrc.
  destruct (bool_decide (lrc = [])); [split; [cbn; lia | by intros e He; inversion He] |].
  split; [apply omap_length_le |].
  intros e He. apply list_elem_of_omap in He as (line & Hline & Hparse).
  assert (Hhere : ∃ line, line ∈ FullPlayer.split_lines lrc
                          ∧ FullPlayer.parse_line line = Some e) by (by exists line).
  unfold FullPlayer.parse_line in Hparse.
  destruct (FullPlayer.exec line) as [[[pre [[m s] f]] suf]|] eqn:Hexec; [| done].
  cbv zeta in Hparse.
  destruct (bool_decide (FullPlayer.trim (pre ++ suf) ≠ [])) eqn:Htext; [| done].
  apply bool_decide_eq_true in Htext. injection Hparse as <-.
  cbn [FullPlayer.text FullPlayer.time].
  destruct (exec_groups _ _ _ _ _ _ Hexec) as (l & _ & Hl).
  destruct (match_here_groups _ _ _ _ _ Hl) as (Hm & Hs & Hf).
  split; [done |].
  split; [intros c Hc; apply (trim_ends (pre ++ suf)); by left |].
  split; [intros c Hc; apply (trim_ends (pre ++ suf)); by right |].
  split; [| split; [| done]]; unfold Qle, Qlt; cbn; lia.
Qed.

Lemma parseLrc_entries_witness :
  FullPlayer.parseLrc sample_lrc
    = [FullPlayer.mkLyric (12 + (50 # 1000))%Q [108; 97]%N;
       FullPlayer.mkLyric (1 + (0 # 1000))%Q
         [120; 121; 91; 48; 48; 58; 48; 50; 46; 48; 48; 93]%N] ∧
  (FullPlayer.time (FullPlayer.mkLyric (12 + (50 # 1000))%Q [108; 97]%N) < 6100)%Q.
Proof.
  split; [by vm_compute |].
  destruct (parseLrc_entries sample_lrc) as (_ & _ & H).
  destruct (H (FullPlayer.mkLyric (12 + (50 # 1000))%Q [108; 97]%N)) as (_ & _ & _ & _ & Ht & _);
    [| exact Ht].
  vm_compute. apply list_elem_of_here.
Defined.

Lemma isDigit_add (d : N) : (d < 10)%N → FullPlayer.isDigit (48 + d) = true.
Proof. intros Hd. apply isDigit_spec. lia. Qed.

Lemma exec_here (l m s f rest : list N) :
  FullPlayer.match_here l = Some (m, s, f, rest) →
  FullPlayer.exec l = Some ([], (m, s, f), rest).
Proof. destruct l; [done |]. cbn [FullPlayer.exec]. by intros ->. Qed.

(** A line that opens with a time tag is read as minutes times sixty plus
    seconds plus the fraction counted in thousandths, whether the fraction
    has three digits or two: [[00:12.50]] is read as 12.050 seconds.  The
    text is the rest of the line, trimmed; a line whose text is empty gives
    no entry. *)
Theorem leading_tag_is_read (m1 m2 s1 s2 f1 f2 : N) (body : list N) :
  (m1 < 10)%N → (m2 < 10)%N → (s1 < 10)%N → (s2 < 10)%N → (f1 < 10)%N → (f2 < 10)%N →
  let whole := Z.of_N ((10 * m1 + m2) * 60 + (10 * s1 + s2)) in
  (FullPlayer.parse_line (tag m1 m2 s1 s2 [f1; f2] ++ body)
   = if bool_decide (FullPlayer.trim body ≠ [])
     then Some (FullPlayer.mkLyric
                  (inject_Z whole + (Z.of_N (10 * f1 + f2) # 1000))%Q
                  (FullPlayer.trim body))
     else None) ∧
  (∀ f3, (f3 < 10)%N →
     FullPlayer.parse_line (tag m1 m2 s1 s2 [f1; f2; f3] ++ body)
     = if bool_decide (FullPlayer.trim body ≠ [])
       then Some (FullPlayer.mkLyric
                    (inject_Z whole + (Z.of_N (100 * f1 + 10 * f2 + f3) # 1000))%Q
                    (FullPlayer.trim body))
       else None).
Proof.
  intros Hm1 Hm2 Hs1 Hs2 Hf1 Hf2 whole.
  assert (H2 : ∀ a b, (a < 10)%N → (b < 10)%N →
                      FullPlayer.parseInt [48 + a; 48 + b]%N = (10 * a + b)%N).
  { intros a b Ha Hb. cbn. lia. }
  assert (H3 : ∀ a b c, (a < 10)%N → (b < 10)%N → (c < 10)%N →
                 FullPlayer.parseInt [48 + a; 48 + b; 48 + c]%N = (100 * a + 10 * b + c)%N).
  { intros a b c Ha Hb Hc. cbn. lia. }
  split.
  - assert (Hm : FullPlayer.match_here (tag m1 m2 s1 s2 [f1; f2] ++ body)
                 = Some ([48 + m1; 48 + m2], [48 + s1; 48 + s2], [48 + f1; 48 + f2],
                         body)%N).
    { unfold tag. cbn [fmap list_fmap app]. unfold FullPlayer.match_here.
      rewrite !isDigit_add by done. done. }
    unfold FullPlayer.parse_line. rewrite (exec_here _ _ _ _ _ Hm).
    cbv zeta. cbn [app]. by rewrite !H2 by done.
  - intros f3 Hf3.
    assert (Hm : FullPlayer.match_here (tag m1 m2 s1 s2 [f1; f2; f3] ++ body)
                 = Some ([48 + m1; 48 + m2], [48 + s1; 48 + s2],
                         [48 + f1; 48 + f2; 48 + f3], body)%N).
    { unfold tag. cbn [fmap list_fmap app]. unfold FullPlayer.match_here.
      rewrite !isDigit_add by done.
      assert (Hne : (48 + f3 =? 93)%N = false) by (apply N.eqb_neq; lia).
      rewrite Hne. done. }
    unfold FullPlayer.parse_line. rewrite (exec_here _ _ _ _ _ Hm).
    cbv zeta. cbn [app]. by rewrite !H2, H3 by done.
Qed.

Lemma leading_tag_is_read_witness :
  FullPlayer.parse_line (tag 0 0 1 2 [5; 0]%N ++ [108; 97]%N)
    = Some (FullPlayer.mkLyric (inject_Z 12 + (50 # 1000))%Q [108; 97]%N) ∧
  FullPlayer.parse_line (tag 0 0 1 2 [5; 0]%N ++ [32]%N) = None.
Proof.
  split.
  - exact (proj1 (leading_tag_is_read 0 0 1 2 5 0 [108; 97]%N
                    ltac:(done) ltac:(done) ltac:(done) ltac:(done) ltac:(done)
                    ltac:(done))).
  - exact (proj1 (leading_tag_is_read 0 0 1 2 5 0 [32]%N
                    ltac:(done) ltac:(done) ltac:(done) ltac:(done) ltac:(done)
                    ltac:(done))).
Defined.

(** ** Previous in shuffle mode *)

(** In shuffle mode previous takes one draw and plays the entry it lands
    on, whichever it is: unlike next it does not draw again when it lands
    on the current track.  Every entry can be drawn, and when the draw
    lands on the current track on a device that has a source, previous only
    toggles between play and pause. *)
Theorem shuffle_prev_may_repeat (c : Session) (w : World) (a : Audio.t) (cur : Ref)
    (r : Q) (tape : list Q) :
  audioRef w = Some a → currentSong c = Some cur → queue c ≠ [] →
  playMode c = shuffle → random w = r :: tape → unit_draw r →
  (∃ j s, random_index (length (queue c)) r = Z.of_nat j ∧ queue c !! j = Some s ∧
          playPrev c w = Ok (playSong c (deref w s) (with_random tape w)) ∧
          (Song.id (deref w s) = Song.id (deref w cur) →
           has_src (location_href w) a = true →
           playPrev c w = Ok (togglePlay c (with_random tape w)))) ∧
  (∀ j s, queue c !! j = Some s →
          playPrev c (with_random (grid (length (queue c)) j :: tape) w)
          = Ok (playSong c (deref w s) (with_random tape w))).
Proof.
  intros Ha Hc Hq Hm Ht Hr.
  assert (Hlen : 0 < length (queue c)) by (destruct (queue c); [done | cbn; lia]).
  assert (Hprev : ∀ r0 j s, random_index (length (queue c)) r0 = Z.of_nat j →
                    queue c !! j = Some s →
                    playPrev c (with_random (r0 :: tape) w)
                    = Ok (playSong c (deref w s) (with_random tape w))).
  { intros r0 j s Hj Hs. unfold playPrev. rewrite Hc.
    rewrite bool_decide_eq_false_2 by lia. rewrite Hm.
    rewrite bool_decide_eq_true_2 by done. cbn [random with_random].
    rewrite Hj. unfold playSong_at, queue_at.
    rewrite bool_decide_eq_false_2 by lia. rewrite Nat2Z.id, Hs.
    by destruct w. }
  assert (Hw : with_random (r :: tape) w = w) by (destruct w; cbn in *; by subst).
  split.
  - destruct (random_index_range _ r Hlen Hr) as [H0 H1].
    assert (Hj : Z.to_nat (random_index (length (queue c)) r) < length (queue c)) by lia.
    destruct (lookup_lt_is_Some_2 _ _ Hj) as [s Hs].
    exists (Z.to_nat (random_index (length (queue c)) r)), s.
    assert (Hidx : random_index (length (queue c)) r
                   = Z.of_nat (Z.to_nat (random_index (length (queue c)) r))) by lia.
    split; [exact Hidx |]. split; [exact Hs |].
    pose proof (Hprev r _ s Hidx Hs) as Hp. rewrite Hw in Hp.
    split; [exact Hp |].
    intros Hid Hsrc. rewrite Hp. f_equal. unfold playSong, is_current.
    cbn [audioRef with_random location_href]. rewrite Ha, Hc, Hsrc.
    unfold deref. cbn [heap with_random].
    by rewrite bool_decide_eq_true_2 by (by symmetry).
  - intros j s Hs. apply (Hprev _ j s); [| done].
    by apply random_index_grid.
Qed.

Lemma shuffle_prev_may_repeat_witness :
  let w := with_random [(1 # 2)%Q] (setPlayMode shuffle trio_world) in
  playPrev (st w) w = Ok (togglePlay (st w) (with_random [] w)) ∧
  isPlaying (st (togglePlay (st w) (with_random [] w))) = false.
Proof.
  cbn zeta.
  destruct (shuffle_prev_may_repeat
              (st (with_random [(1 # 2)%Q] (setPlayMode shuffle trio_world)))
              (with_random [(1 # 2)%Q] (setPlayMode shuffle trio_world))
              _ 1 (1 # 2)%Q [] eq_refl eq_refl ltac:(done) eq_refl eq_refl
              ltac:(by split))
    as [(j & s & Hj & Hs & _ & Htoggle) _].
  assert (Hj1 : 1%Z = Z.of_nat j) by (rewrite <- Hj; reflexivity).
  assert (j = 1) as -> by lia.
  injection Hs as <-.
  split; [by apply Htoggle | done].
Defined.

(** ** The volume *)

Lemma playSong_start_volume song w : volume (st (playSong_start song w)) = volume (st w).
Proof.
  destruct_world w. unfold playSong_start, alloc. cbv beta iota zeta.
  by destruct (has_id _ _ _); crunch.
Qed.

Lemma audio_do_st f c w : st (audio_do f c w) = st w.
Proof. unfold audio_do. by destruct (audioRef w). Qed.

Lemma togglePlay_volume c w : volume (st (togglePlay c w)) = volume (st w).
Proof.
  unfold togglePlay. destruct (audioRef w) eqn:Ha; [| done].
  destruct (currentSong c); [| done].
  destruct (negb _); [apply playSong_start_volume |].
  destruct (isPlaying c); cbn; by rewrite audio_do_st.
Qed.

Lemma playSong_volume c song w : volume (st (playSong c song w)) = volume (st w).
Proof.
  unfold playSong. destruct (audioRef w); [| done].
  destruct (_ && _); [apply togglePlay_volume | apply playSong_start_volume].
Qed.

Lemma playSong_at_volume c i w : volume (st (playSong_at c i w)) = volume (st w).
Proof. unfold playSong_at. destruct (queue_at _ _); [apply playSong_volume | done]. Qed.

Lemma playNext_volume c force w w1 :
  playNext c force w = Ok w1 → volume (st w1) = volume (st w).
Proof.
  unfold playNext. destruct (currentSong c); [| by intros [= <-]].
  destruct (bool_decide (length (queue c) = 0)); [by intros [= <-] |].
  destruct (negb force && _).
  { intros [= <-]. by rewrite !audio_do_st. }
  destruct (bool_decide (playMode c = shuffle)).
  - destruct (shuffle_draw _ _ _) as [[i tape] | |]; [| done | done].
    intros [= <-]. by rewrite playSong_at_volume.
  - intros [= <-]. apply playSong_at_volume.
Qed.

Lemma playPrev_volume c w w1 : playPrev c w = Ok w1 → volume (st w1) = volume (st w).
Proof.
  unfold playPrev. destruct (currentSong c); [| by intros [= <-]].
  destruct (bool_decide (length (queue c) = 0)); [by intros [= <-] |].
  destruct (bool_decide (playMode c = shuffle)).
  - destruct (random w) as [| x tape] eqn:Ht; [done |].
    intros [= <-]. by rewrite playSong_at_volume.
  - intros [= <-]. apply playSong_at_volume.
Qed.

Lemma settle_volume k r w : volume (st (settle k r w)) = volume (st w).
Proof.
  unfold settle. destruct (pending w !! k) as [cont|]; [| done].
  destruct_world w. crunch.
  destruct cont as [song f | song f | f]; cbn [resume].
  - unfold playSong_resume. destruct r as [[u|] | | |]; try by crunch.
    + destruct (negb (truthy (Song.pic song))); destruct (truthy (Some u));
        destruct au; by crunch.
    + destruct (negb (truthy (Song.pic song))); by crunch.
  - unfold info_arrived. destruct r as [| [info|] | |]; try by crunch.
    destruct (info_pic info) as [p|]; [| by crunch].
    destruct (truthy (Some p)); [| by crunch].
    crunch. by destruct cs.
  - unfold play_settled. by destruct r; crunch.
Qed.

Lemma handles_volume (e : Event) (w w1 : World) :
  handles e w w1 → volume (st w1) = volume (st w).
Proof.
  intros [c force w0 w0' _ H | c w0 w0' _ H | e0 w0 w0' _ H].
  - by apply (playNext_volume c force).
  - by apply (playPrev_volume c).
  - destruct e0; cbn [handle] in H; try (injection H as <-).
    + apply playSong_volume.
    + apply togglePlay_volume.
    + unfold seek. destruct (audioRef w0); [| done]. cbn. by rewrite audio_do_st.
    + exact (playNext_volume _ _ _ _ H).
    + exact (playPrev_volume _ _ _ H).
    + unfold addToQueue. by destruct (has_id _ _ _).
    + done.
    + done.
    + done.
    + apply settle_volume.
    + unfold handleTimeUpdate, device_progress.
      destruct (audioRef w0) eqn:Ha; cbn; by rewrite ?Ha.
    + unfold handleLoadedMetadata, device_metadata.
      destruct (audioRef w0) eqn:Ha; cbn; by rewrite ?Ha.
    + exact (playNext_volume _ _ _ _ H).
    + done.
    + done.
    + done.
Qed.

Lemma startup_volume (ls : Storage) (href : string) (tape : list Q) (w : World) :
  startup ls href tape = Ok (Some w) → volume (st w) = 1%Q.
Proof.
  unfold startup.
  destruct (getLocal_total key_current JNull ls) as [c ->].
  destruct (getLocal_total key_queue (JArr []) ls) as [q ->].
  destruct (getLocal_total key_mode (JStr "sequence") ls) as [m ->].
  cbn [mbind res_bind].
  destruct (hydrate c q m) as [[s h]|] eqn:Hh; [| done].
  unfold hydrate in Hh.
  destruct (as_current c) as [c'|]; [| done].
  destruct (as_queue q) as [q'|]; [| done].
  destruct (as_mode m) as [m'|]; [| done].
  cbn in Hh. injection Hh as <- <-.
  unfold run_effects. cbn [orb].
  destruct (persist key_queue _ _ _) as [l1 | |]; [| done | done]. cbn [mbind res_bind].
  destruct (persist key_current _ _ _) as [l2 | |]; [| done | done]. cbn [mbind res_bind].
  destruct (persist key_mode _ _ _) as [l3 | |]; [| done | done]. cbn [mbind res_bind].
  by intros [= <-].
Qed.

(** The provider exposes a volume but no operation, promise callback or
    device listener ever sets it: it is 1 when the player starts, whatever
    the storage holds, and in every state reached afterwards. *)
Theorem volume_is_always_one (ls : Storage) (href : string) (tape : list Q)
    (w0 w : World) :
  startup ls href tape = Ok (Some w0) → reaches w0 w → volume (st w) = 1%Q.
Proof.
  intros Hstart Hreach. rewrite <- (startup_volume ls href tape w0 Hstart).
  clear Hstart. induction Hreach as [w | e w w1 w2 w' Hh Hc _ IH]; [done |].
  rewrite IH. apply commit_keeps in Hc as [_ ->]. by apply (handles_volume e).
Qed.

Lemma volume_is_always_one_witness : volume (st orphan_world) = 1%Q.
Proof.
  assert (Hstart : startup blank_storage "https://tunefree.app/" [] = Ok (Some idle_world))
    by (by vm_compute).
  exact (volume_is_always_one _ _ _ idle_world orphan_world Hstart
           (run_reaches _ _ _ orphan_world_reached)).
Defined.

(** ** The end of a track in loop mode *)

(** C6, at two failing inputs.  The [ended] listener is registered once and
    calls the first render's [playNext], which reads the mode, the queue
    and the current track of that render.  On a player started on empty
    storage, a track that ends in loop mode is not replayed: the event
    changes nothing, the elapsed time stays at the end of the track and the
    device is not called.  On a player restored with queue [[A, B]] in
    sequence mode and switched to loop mode, the end of A advances to B. *)
Theorem ended_ignores_loop_mode :
  (∃ w, run (played_to_end_in_loop (EPlaySong track_A)) idle_world = Ok w ∧
        playMode (st w) = loop ∧ current_id w = Some (Song.id track_A) ∧
        isPlaying (st w) = true ∧ currentTime (st w) = 200%Q ∧
        step EEnded w = Ok w) ∧
  (∃ w0 w w',
     startup pair_storage "https://tunefree.app/" [] = Ok (Some w0) ∧
     run (played_to_end_in_loop ETogglePlay) w0 = Ok w ∧
     playMode (st w) = loop ∧ current_id w = Some (Song.id track_A) ∧
     ids (heap w) (queue (st w)) = [Song.id track_A; Song.id track_B] ∧
     isPlaying (st w) = true ∧
     step EEnded w = Ok w' ∧
     playMode (st w') = loop ∧
     current_id w' = Some (Song.id track_B) ∧
     isLoading (st w') = true ∧
     calls w' = calls w ∧
     Audio.currentTime <$> audioRef w' = Some 200%Q).
Proof.
  split.
  - eexists. split; [vm_compute; reflexivity |]. repeat split.
  - eexists. eexists. eexists. split; [vm_compute; reflexivity |].
    split; [vm_compute; reflexivity |].
    do 5 (split; [reflexivity |]). split; [vm_compute; reflexivity |].
    repeat split.
Qed.

(** ** What the snapshot misses *)

(** C10 as stated fails, twice.  A stored queue record that holds [null] is
    valid JSON: [getLocal] returns [null], not the empty queue, and the
    provider starts with a queue that is no array.  And the URL that
    arrives for the current track is written into the object that is both
    the current track and its queue entry, but not into storage: the stored
    current track and the stored queue still have no URL. *)
Lemma snapshot_misses_shape_and_url :
  (getLocal key_queue (JArr []) null_queue_storage = Ok JNull ∧
   as_queue JNull = None ∧
   startup null_queue_storage "https://tunefree.app/" [] = Ok None) ∧
  (∃ w m, run url_arrival_events idle_world = Ok w ∧
          localStorage w = Items m ∧
          deref w <$> currentSong (st w)
            = Some (Song.with_url "https://cdn.example/a.mp3" track_A) ∧
          deref w <$> queue (st w)
            = [Song.with_url "https://cdn.example/a.mp3" track_A] ∧
          m !! key_current = Some (JSON_stringify (encode_song track_A)) ∧
          m !! key_queue = Some (JSON_stringify (JArr [encode_song track_A])) ∧
          m !! key_current
            ≠ Some (JSON_stringify (encode_current (heap w) (currentSong (st w)))) ∧
          m !! key_queue
            ≠ Some (JSON_stringify (encode_queue (heap w) (queue (st w))))).
Proof.
  split.
  - repeat split.
  - eexists. eexists. split; [vm_compute; reflexivity |].
    split; [reflexivity |]. do 4 (split; [reflexivity |]).
    split; vm_compute; discriminate.
Qed.
